(** * A paged image editor: the virtual-memory manager and the chunk processor

    Shallow embedding of [js/memory/memoryManager.js] (page table, LRU
    swapping, chunk-wise transform with rotation) and of the image processor
    ([setupImageProcessor]: brightness, contrast, filters, [processChunk]).

    Conventions of the embedding.
    - A JavaScript number is a [num]: the rational value of a finite double,
      the two infinities or NaN; zero has no sign.  The arithmetic of the
      image processor and of the memory usage is that of IEEE-754 doubles:
      the exact result, rounded to the nearest double, ties to the even one
      ([fadd], [fsub], [fmul], [fdiv]; the rounding is [SFdiv] of the
      standard library's specification of binary64).  Division by zero,
      products of an infinity with zero and the like follow IEEE-754.
    - Integers that the code only adds, multiplies and compares (widths,
      pixel indices, counters, time stamps) are [Z]; the one quotient of
      two of them, [totalPixels / pixelsPerPage], is taken exactly, which
      under [Math.ceil] is what the quotient of doubles gives for fewer than
      2^53 pixels.
    - The budget [memoryLimit] and the page size [pageSize] are given by
      their values, as rationals; where the code adds, subtracts or compares
      them they are doubles ([toDouble], which leaves the value of a double
      as it is).  [pixelsPerPage] multiplies the page size by powers of two
      only, which is exact on a double short of overflow and underflow, and
      is computed from the value.
    - A [Uint8ClampedArray] is a [list Z] of bytes that lives in a heap; a
      reference to it is a location.  Allocation appends to the heap, so that
      aliasing and in-place mutation are visible.
    - The page table is a JavaScript [Map]: an association list in insertion
      order.
    - [Date.now()] reads the next value of a clock [now : nat -> Z] and
      advances a tick counter; [eventBus.emit] and [console.error] append to
      a trace.
    - [async] functions are run to completion: what other code could do
      while a run waits (for the timer of [simulatePageLoad]) is not
      modelled. *)

From Stdlib Require Import ZArith QArith Qround Lia SpecFloat.
From stdpp Require Import base list strings pretty.

Open Scope Z_scope.

(* ================================================================== *)
(** ** JavaScript numbers *)
(* ================================================================== *)

Module JSNum.

Inductive num : Type :=
| Fin (q : Q)
| PInf
| NInf
| NaN.

Definition ofZ (z : Z) : num := Fin (inject_Z z).

(** Sign of a number: [None] for NaN, [Some Eq] for zero. *)
Definition sign (a : num) : option comparison :=
  match a with
  | Fin q => Some (Qnum q ?= 0)
  | PInf => Some Gt
  | NInf => Some Lt
  | NaN => None
  end.

Definition signMul (a b : comparison) : comparison :=
  match a, b with
  | Eq, _ | _, Eq => Eq
  | Gt, Gt | Lt, Lt => Gt
  | _, _ => Lt
  end.

(** The infinity of a sign; the sign of zero stands for an undefined
    result. *)
Definition infOf (c : comparison) : num :=
  match c with Gt => PInf | Lt => NInf | Eq => NaN end.

Definition isZero (q : Q) : bool := Qnum q =? 0.

Definition neg (a : num) : num :=
  match a with
  | Fin q => Fin (- q)
  | PInf => NInf
  | NInf => PInf
  | NaN => NaN
  end.

Definition add (a b : num) : num :=
  match a, b with
  | NaN, _ | _, NaN => NaN
  | Fin x, Fin y => Fin (x + y)
  | PInf, NInf | NInf, PInf => NaN
  | PInf, _ | _, PInf => PInf
  | NInf, _ | _, NInf => NInf
  end.

Definition sub (a b : num) : num := add a (neg b).

Definition mul (a b : num) : num :=
  match a, b with
  | Fin x, Fin y => Fin (x * y)
  | _, _ =>
      match sign a, sign b with
      | Some sa, Some sb => infOf (signMul sa sb)
      | _, _ => NaN
      end
  end.

Definition div (a b : num) : num :=
  match a, b with
  | NaN, _ | _, NaN => NaN
  | Fin x, Fin y =>
      if isZero y then infOf (Qnum x ?= 0) else Fin (x / y)
  | Fin _, _ => Fin 0
  | _, Fin y =>
      if isZero y then a
      else match sign a with
           | Some sa => infOf (signMul sa (Qnum y ?= 0))
           | None => NaN
           end
  | _, _ => NaN
  end.

(** [Math.round]: to the nearest integer, halves towards plus infinity. *)
Definition mathRound (a : num) : num :=
  match a with
  | Fin q => ofZ (Qfloor (q + (1 # 2)))
  | _ => a
  end.

Definition mathMin (a b : num) : num :=
  match a, b with
  | NaN, _ | _, NaN => NaN
  | NInf, _ | _, NInf => NInf
  | PInf, c | c, PInf => c
  | Fin x, Fin y => if Qle_bool x y then a else b
  end.

Definition mathMax (a b : num) : num :=
  match a, b with
  | NaN, _ | _, NaN => NaN
  | PInf, _ | _, PInf => PInf
  | NInf, c | c, NInf => c
  | Fin x, Fin y => if Qle_bool x y then b else a
  end.

(** What a store into a [Uint8ClampedArray] does to the stored number
    (ToUint8Clamp): NaN becomes 0, the value is clamped to 0..255 and rounded
    to the nearest integer, halves to the even one. *)
Definition toUint8Clamp (a : num) : Z :=
  match a with
  | NaN => 0
  | PInf => 255
  | NInf => 0
  | Fin q =>
      if Qle_bool q 0 then 0
      else if Qle_bool 255 q then 255
      else
        let f := Qfloor q in
        match (q - inject_Z f ?= 1 # 2)%Q with
        | Lt => f
        | Gt => f + 1
        | Eq => if Z.even f then f else f + 1
        end
  end.

(** [a > b] on rationals. *)
Definition Qgtb (a b : Q) : bool := negb (Qle_bool a b).

(** [a > b] on numbers: false when one of them is NaN. *)
Definition gt (a b : num) : bool :=
  match a, b with
  | NaN, _ | _, NaN => false
  | Fin x, Fin y => Qgtb x y
  | PInf, PInf | NInf, _ | Fin _, PInf => false
  | PInf, _ | Fin _, NInf => true
  end.

(** *** Doubles

    The value of the finite double with sign [s], mantissa [m] and exponent
    [e], as a fraction in lowest terms. *)
Definition valueOf (s : bool) (m : positive) (e : Z) : Q :=
  let n := if s then Zneg m else Zpos m in
  if e <? 0 then Qred (Qmake n (Pos.pow 2 (Z.to_pos (- e))))
  else inject_Z (n * 2 ^ e).

Definition ofSpec (f : spec_float) : num :=
  match f with
  | S754_zero _ => Fin 0
  | S754_infinity s => if s then NInf else PInf
  | S754_nan => NaN
  | S754_finite s m e => Fin (valueOf s m e)
  end.

(** An integer as it is, with exponent 0. *)
Definition exactInt (z : Z) : spec_float :=
  match z with
  | Z0 => S754_zero false
  | Zpos p => S754_finite false p 0
  | Zneg p => S754_finite true p 0
  end.

(** The double nearest to a rational, ties to the even one; an infinity
    beyond the largest double: the quotient of numerator and denominator,
    rounded as binary64 rounds a quotient. *)
Definition toDouble (q : Q) : num :=
  ofSpec (SFdiv 53 1024 (exactInt (Qnum q)) (exactInt (Zpos (Qden q)))).

Definition rounded (a : num) : num :=
  match a with
  | Fin q => toDouble q
  | _ => a
  end.

(** The arithmetic of doubles. *)
Definition fadd (a b : num) : num := rounded (add a b).
Definition fsub (a b : num) : num := rounded (sub a b).
Definition fmul (a b : num) : num := rounded (mul a b).
Definition fdiv (a b : num) : num := rounded (div a b).

(** The double of a number that is given as an integer. *)
Definition numberOf (z : Z) : num := toDouble (inject_Z z).

End JSNum.

Import JSNum.

(* ================================================================== *)
(** ** Typed arrays and the heap *)
(* ================================================================== *)

Module TypedArray.

(** The contents of a [Uint8ClampedArray]. *)
Abbreviation bytes := (list Z).

(** [a[i]] used as a number: an index outside the array reads [undefined],
    which is NaN in arithmetic and in a store. *)
Definition rd (a : bytes) (i : Z) : num :=
  if i <? 0 then NaN
  else match a !! Z.to_nat i with
       | Some b => ofZ b
       | None => NaN
       end.

(** [a[i] = v]: a store outside the array is ignored. *)
Definition wr (a : bytes) (i : Z) (v : num) : bytes :=
  if i <? 0 then a else <[Z.to_nat i := toUint8Clamp v]> a.

(** [a.slice(s, e)]: negative bounds count from the end, bounds are cut to
    the length. *)
Definition sliceBound (len k : Z) : Z :=
  if k <? 0 then Z.max (len + k) 0 else Z.min k len.

Definition slice (a : bytes) (s e : Z) : bytes :=
  let len := Z.of_nat (length a) in
  let s' := sliceBound len s in
  let e' := sliceBound len e in
  take (Z.to_nat (e' - s')) (drop (Z.to_nat s') a).

(** [new Uint8ClampedArray(n)]: [n] zero bytes.  (A negative [n] raises
    RangeError in JavaScript; the sizes computed by the code are never
    negative, see [storeImage].) *)
Definition zeros (n : Z) : bytes := replicate (Z.to_nat n) 0.

Abbreviation loc := nat.
Abbreviation heap := (list (list Z)).

(** Contents of an array; a location that was never allocated has none. *)
Definition arr (h : heap) (l : loc) : bytes := default [] (h !! l).

Definition alloc (h : heap) (a : bytes) : heap * loc := (h ++ [a], length h).

Definition hread (h : heap) (l : loc) (i : Z) : num := rd (arr h l) i.

Definition hwrite (h : heap) (l : loc) (i : Z) (v : num) : heap :=
  alter (fun a => wr a i v) l h.

End TypedArray.

Import TypedArray.

(* ================================================================== *)
(** ** The image processor *)
(* ================================================================== *)

Module ImageProcessor.

Record adjustments : Type := mkAdjustments {
  brightness : Z;
  contrast : Z
}.

(** [clamp(value)]: [Math.max(0, Math.min(255, Math.round(value)))]. *)
Definition clamp (value : num) : num :=
  mathMax (ofZ 0) (mathMin (ofZ 255) (mathRound value)).

(** Number of iterations of [for (let i = 0; i < data.length; i += 4)]. *)
Definition strides (data : bytes) : nat := Nat.div (length data + 3) 4.

(** The loops below run on the contents of the one array they read and
    write; the functions with the names of the source apply them in place,
    at a location of the heap. *)

Definition brightnessFactor (brightness : Z) : num :=
  fmul (fdiv (numberOf brightness) (ofZ 100)) (ofZ 255).

Definition brightnessStep (factor : num) (data : bytes) (k : nat) : bytes :=
  let i := 4 * Z.of_nat k in
  let data := wr data i (clamp (fadd (rd data i) factor)) in
  let data := wr data (i + 1) (clamp (fadd (rd data (i + 1)) factor)) in
  wr data (i + 2) (clamp (fadd (rd data (i + 2)) factor)).

Definition brightnessLoop (brightness : Z) (data : bytes) : bytes :=
  foldl (brightnessStep (brightnessFactor brightness)) data
        (seq 0 (strides data)).

Definition applyBrightness (h : heap) (data : loc) (brightness : Z) : heap :=
  alter (brightnessLoop brightness) data h.

(** [factor = (259 * (contrast + 100)) / (255 * (259 - contrast))]. *)
Definition contrastFactor (contrast : Z) : num :=
  fdiv (fmul (ofZ 259) (fadd (numberOf contrast) (ofZ 100)))
       (fmul (ofZ 255) (fsub (ofZ 259) (numberOf contrast))).

Definition contrastPixel (factor : num) (data : bytes) (i : Z) : bytes :=
  wr data i
     (clamp (fadd (fmul factor (fsub (rd data i) (ofZ 128))) (ofZ 128))).

Definition contrastStep (factor : num) (data : bytes) (k : nat) : bytes :=
  let i := 4 * Z.of_nat k in
  let data := contrastPixel factor data i in
  let data := contrastPixel factor data (i + 1) in
  contrastPixel factor data (i + 2).

Definition contrastLoop (contrast : Z) (data : bytes) : bytes :=
  foldl (contrastStep (contrastFactor contrast)) data (seq 0 (strides data)).

Definition applyContrast (h : heap) (data : loc) (contrast : Z) : heap :=
  alter (contrastLoop contrast) data h.

Definition grayscaleStep (data : bytes) (k : nat) : bytes :=
  let i := 4 * Z.of_nat k in
  let avg :=
    fdiv (fadd (fadd (rd data i) (rd data (i + 1))) (rd data (i + 2)))
         (ofZ 3) in
  let data := wr data i avg in
  let data := wr data (i + 1) avg in
  wr data (i + 2) avg.

Definition grayscaleLoop (data : bytes) : bytes :=
  foldl grayscaleStep data (seq 0 (strides data)).

Definition applyGrayscale (h : heap) (data : loc) : heap :=
  alter grayscaleLoop data h.

(** The coefficients are the doubles of the decimals written in the
    code. *)
Definition sepiaMix (r g b : num) (cr cg cb : Q) : num :=
  clamp (fadd (fadd (fmul r (toDouble cr)) (fmul g (toDouble cg)))
              (fmul b (toDouble cb))).

Definition sepiaStep (data : bytes) (k : nat) : bytes :=
  let i := 4 * Z.of_nat k in
  let r := rd data i in
  let g := rd data (i + 1) in
  let b := rd data (i + 2) in
  let data :=
    wr data i (sepiaMix r g b (393 # 1000) (769 # 1000) (189 # 1000)) in
  let data :=
    wr data (i + 1) (sepiaMix r g b (349 # 1000) (686 # 1000) (168 # 1000)) in
  wr data (i + 2) (sepiaMix r g b (272 # 1000) (534 # 1000) (131 # 1000)).

Definition sepiaLoop (data : bytes) : bytes :=
  foldl sepiaStep data (seq 0 (strides data)).

Definition applySepia (h : heap) (data : loc) : heap :=
  alter sepiaLoop data h.

Definition invertStep (data : bytes) (k : nat) : bytes :=
  let i := 4 * Z.of_nat k in
  let data := wr data i (fsub (ofZ 255) (rd data i)) in
  let data := wr data (i + 1) (fsub (ofZ 255) (rd data (i + 1))) in
  wr data (i + 2) (fsub (ofZ 255) (rd data (i + 2))).

Definition invertLoop (data : bytes) : bytes :=
  foldl invertStep data (seq 0 (strides data)).

Definition applyInvert (h : heap) (data : loc) : heap :=
  alter invertLoop data h.

(** The [switch (filter)] of [processChunk]. *)
Definition applyFilter (h : heap) (data : loc) (filter : string) : heap :=
  if String.eqb filter "grayscale" then applyGrayscale h data
  else if String.eqb filter "sepia" then applySepia h data
  else if String.eqb filter "invert" then applyInvert h data
  else h.

(** [processChunk(chunkData, adjustments, filter)]: copies the chunk into a
    new array, adjusts and filters the copy in place and returns it. *)
Definition processChunk (h : heap) (chunkData : loc) (adj : adjustments)
    (filter : string) : heap * loc :=
  let '(h, processedData) := alloc h (arr h chunkData) in
  let h :=
    if brightness adj =? 0 then h
    else applyBrightness h processedData (brightness adj) in
  let h :=
    if contrast adj =? 0 then h
    else applyContrast h processedData (contrast adj) in
  (applyFilter h processedData filter, processedData).

(** The same pipeline on the contents of a chunk. *)
Definition filterLoop (filter : string) (data : bytes) : bytes :=
  if String.eqb filter "grayscale" then grayscaleLoop data
  else if String.eqb filter "sepia" then sepiaLoop data
  else if String.eqb filter "invert" then invertLoop data
  else data.

Definition processedBytes (adj : adjustments) (filter : string)
    (data : bytes) : bytes :=
  let data :=
    if brightness adj =? 0 then data
    else brightnessLoop (brightness adj) data in
  let data :=
    if contrast adj =? 0 then data else contrastLoop (contrast adj) data in
  filterLoop filter data.

End ImageProcessor.

Import ImageProcessor.

(* ================================================================== *)
(** ** The memory manager *)
(* ================================================================== *)

Module ImageData.

(** An [ImageData]: its size and a reference to its RGBA bytes. *)
Record t : Type := mk {
  width : Z;
  height : Z;
  data : loc
}.

End ImageData.

Module MemoryManager.

Inductive pageStatus : Type := active | inactive.

(** An entry of the page table.  [data] is [None] for [null]. *)
Record page : Type := mkPage {
  data : option loc;
  status : pageStatus;
  lastAccessed : Z;
  startPixel : Z;
  endPixel : Z;
  startIndex : Z;
  endIndex : Z
}.

(** The [stats] object; the last four fields are absent until [storeImage]
    sets them. *)
Record statistics : Type := mkStats {
  activePages : Z;
  inactivePages : Z;
  pageHits : Z;
  pageFaults : Z;
  memoryUsage : num;
  totalWidth : option Z;
  totalHeight : option Z;
  totalPixels : option Z;
  totalPages : option num
}.

(** What the manager lets the outside see: the events it emits on the event
    bus and its one [console.error]. *)
Inductive event : Type :=
| PageSwappedOut (pageId : string)
| PageSwappedIn (pageId : string)
| StatsUpdated (s : statistics)
| ConsoleError (pageId : string).

(** A registered chunk processor: it is handed the heap and a reference. *)
Definition chunkProcessor : Type :=
  heap -> loc -> adjustments -> string -> heap * loc.

(** The heap together with the variables closed over by
    [setupMemoryManager], the clock position and the trace. *)
Record state : Type := mkState {
  mem : heap;
  pageTable : list (string * page);
  stats : statistics;
  processChunkFn : option chunkProcessor;
  tick : nat;
  trace : list event
}.

Inductive outcome (A : Type) : Type :=
| Returns (a : A)
| Diverges.
Arguments Returns {A} a.
Arguments Diverges {A}.

(** *** Record updates *)

Definition withMem (s : state) (h : heap) : state :=
  mkState h (pageTable s) (stats s) (processChunkFn s) (tick s) (trace s).

Definition withPageTable (s : state) (m : list (string * page)) : state :=
  mkState (mem s) m (stats s) (processChunkFn s) (tick s) (trace s).

Definition withStats (s : state) (st : statistics) : state :=
  mkState (mem s) (pageTable s) st (processChunkFn s) (tick s) (trace s).

Definition emit (s : state) (e : event) : state :=
  mkState (mem s) (pageTable s) (stats s) (processChunkFn s) (tick s)
          (trace s ++ [e]).

Definition evicted (p : page) : page :=
  mkPage None inactive (lastAccessed p)
         (startPixel p) (endPixel p) (startIndex p) (endIndex p).

Definition loaded (d : loc) (p : page) : page :=
  mkPage (Some d) active (lastAccessed p)
         (startPixel p) (endPixel p) (startIndex p) (endIndex p).

Definition touched (t : Z) (p : page) : page :=
  mkPage (data p) (status p) t
         (startPixel p) (endPixel p) (startIndex p) (endIndex p).

(** The counters after a swap-out, a swap-in and the admission of a page:
    [stats.memoryUsage -= pageSize] and [stats.memoryUsage += pageSize] are
    a subtraction and an addition of doubles, so that the usage need not be
    a multiple of the page size. *)
Definition afterSwapOut (pageSize : Q) (st : statistics) : statistics :=
  mkStats (activePages st - 1) (inactivePages st + 1) (pageHits st)
          (pageFaults st) (fsub (memoryUsage st) (toDouble pageSize))
          (totalWidth st) (totalHeight st) (totalPixels st) (totalPages st).

Definition afterSwapIn (pageSize : Q) (st : statistics) : statistics :=
  mkStats (activePages st + 1) (inactivePages st - 1) (pageHits st)
          (pageFaults st) (fadd (memoryUsage st) (toDouble pageSize))
          (totalWidth st) (totalHeight st) (totalPixels st) (totalPages st).

Definition afterAdmit (pageSize : Q) (st : statistics) : statistics :=
  mkStats (activePages st + 1) (inactivePages st) (pageHits st)
          (pageFaults st) (fadd (memoryUsage st) (toDouble pageSize))
          (totalWidth st) (totalHeight st) (totalPixels st) (totalPages st).

Definition afterHit (st : statistics) : statistics :=
  mkStats (activePages st) (inactivePages st) (pageHits st + 1)
          (pageFaults st) (memoryUsage st)
          (totalWidth st) (totalHeight st) (totalPixels st) (totalPages st).

Definition afterFault (st : statistics) : statistics :=
  mkStats (activePages st) (inactivePages st) (pageHits st)
          (pageFaults st + 1) (memoryUsage st)
          (totalWidth st) (totalHeight st) (totalPixels st) (totalPages st).

Definition withTotals (st : statistics) (w h px : Z) (pages : num)
    : statistics :=
  mkStats (activePages st) (inactivePages st) (pageHits st)
          (pageFaults st) (memoryUsage st)
          (Some w) (Some h) (Some px) (Some pages).

Definition freshStats : statistics :=
  mkStats 0 0 0 0 (ofZ 0) None None None None.

(** *** The [Map] of pages *)

Fixpoint mapGet (k : string) (m : list (string * page)) : option page :=
  match m with
  | [] => None
  | (k', v) :: m' => if String.eqb k' k then Some v else mapGet k m'
  end.

(** [m.set(k, v)]: an existing key keeps its place, a new one goes last. *)
Fixpoint mapSet (k : string) (v : page) (m : list (string * page))
    : list (string * page) :=
  match m with
  | [] => [(k, v)]
  | (k', v') :: m' =>
      if String.eqb k' k then (k, v) :: m' else (k', v') :: mapSet k v m'
  end.

(** Assignment to fields of the object that [m.get(k)] returns. *)
Fixpoint mapUpdate (k : string) (f : page -> page) (m : list (string * page))
    : list (string * page) :=
  match m with
  | [] => []
  | (k', v) :: m' =>
      if String.eqb k' k then (k', f v) :: m'
      else (k', v) :: mapUpdate k f m'
  end.

Definition mapKeys (m : list (string * page)) : list string := map fst m.

(** The key [`page_${i}`]. *)
Definition pageKey (i : nat) : string := "page_" +:+ pretty i.

(** A string is truthy unless it is empty. *)
Definition truthy (k : string) : bool := negb (String.eqb k "").

(** *** Helpers that do not depend on the configuration *)

(** [Math.ceil]. *)
Definition mathCeil (a : num) : num :=
  match a with
  | Fin q => ofZ (Qceiling q)
  | _ => a
  end.

(** Number of rounds of [for (let i = 0; i < n; i++)]; none when it never
    ends. *)
Definition loopCount (n : num) : option nat :=
  match n with
  | Fin q => Some (Z.to_nat (Qceiling q))
  | PInf => None
  | NInf | NaN => Some 0%nat
  end.

(** One round of the scan of [swapOutLRUPage]; [oldestTime] is [None] while
    it is [Infinity]. *)
Definition lruStep (acc : option Z * option string) (e : string * page)
    : option Z * option string :=
  let '(oldestTime, lruPageId) := acc in
  let '(pageId, p) := e in
  match status p with
  | active =>
      if match oldestTime with
         | None => true
         | Some t => lastAccessed p <? t
         end
      then (Some (lastAccessed p), Some pageId)
      else acc
  | inactive => acc
  end.

Definition findLRU (m : list (string * page)) : option string :=
  snd (foldl lruStep (None, None) m).

(** [Date.now()]. *)
Definition dateNow (now : nat -> Z) (s : state) : Z * state :=
  (now (tick s),
   mkState (mem s) (pageTable s) (stats s) (processChunkFn s)
           (S (tick s)) (trace s)).

(** The pixel of the output that receives pixel [pixelIndex] of the
    original: [newPixelIndex] of [applyChunkToOutput]. *)
Definition rotatedIndex (width height rotation pixelIndex : Z) : Z :=
  let x := Z.rem pixelIndex width in
  let y := pixelIndex / width in
  let '(newX, newY) :=
    if rotation =? 90 then (height - 1 - y, x)
    else if rotation =? 180 then (width - 1 - x, height - 1 - y)
    else if rotation =? 270 then (y, width - 1 - x)
    else (x, y) in
  if (rotation =? 90) || (rotation =? 270) then newY * height + newX
  else newY * width + newX.

Definition copyStep (chunkData outputData : loc) (startIndex : Z)
    (h : heap) (i : nat) : heap :=
  hwrite h outputData (startIndex + Z.of_nat i)
         (hread h chunkData (Z.of_nat i)).

Definition rotateStep (chunkData outputData : loc)
    (startPixel width height rotation : Z) (h : heap) (i : nat) : heap :=
  let pixelIndex := startPixel + Z.of_nat i in
  let newIndex := rotatedIndex width height rotation pixelIndex * 4 in
  let srcIndex := Z.of_nat i * 4 in
  let h := hwrite h outputData newIndex (hread h chunkData srcIndex) in
  let h :=
    hwrite h outputData (newIndex + 1) (hread h chunkData (srcIndex + 1)) in
  let h :=
    hwrite h outputData (newIndex + 2) (hread h chunkData (srcIndex + 2)) in
  hwrite h outputData (newIndex + 3) (hread h chunkData (srcIndex + 3)).

(** [applyChunkToOutput(chunkData, outputData, page, width, height,
    rotation)].  With [width = 0] every rotated index is NaN and no store
    takes effect. *)
Definition applyChunkToOutput (h : heap) (chunkData outputData : loc)
    (p : page) (width height rotation : Z) : heap :=
  if rotation =? 0 then
    foldl (copyStep chunkData outputData (startIndex p)) h
          (seq 0 (length (arr h chunkData)))
  else if width =? 0 then h
  else
    foldl (rotateStep chunkData outputData (startPixel p)
                      width height rotation)
          h (seq 0 (strides (arr h chunkData))).

Section Configured.

(** The configuration of [setupMemoryManager] and the clock. *)
Variable memoryLimit : Q.
Variable pageSize : Q.
Variable now : nat -> Z.

Definition registerChunkProcessor (s : state) (processor : chunkProcessor)
    : state :=
  mkState (mem s) (pageTable s) (stats s) (Some processor) (tick s)
          (trace s).

Definition getMemoryStats (s : state) : statistics := stats s.

Definition getPageTableArray (s : state)
    : list (string * pageStatus * Z) :=
  map (fun e => (fst e, status (snd e), lastAccessed (snd e))) (pageTable s).

Definition updateMemoryStats (s : state) : state :=
  emit s (StatsUpdated (getMemoryStats s)).

Definition clearAllPages (s : state) : state :=
  updateMemoryStats (withStats (withPageTable s []) freshStats).

Definition swapOutLRUPage (s : state) : state :=
  match findLRU (pageTable s) with
  | Some lruPageId =>
      if truthy lruPageId then
        let s :=
          withPageTable s (mapUpdate lruPageId evicted (pageTable s)) in
        let s := withStats s (afterSwapOut pageSize (stats s)) in
        emit s (PageSwappedOut lruPageId)
      else s
  | None => s
  end.

(** [simulatePageLoad()]: a timer of five milliseconds; it changes
    nothing. *)
Definition simulatePageLoad (s : state) : state := s.

Definition swapInPage (s : state) (pageId : string) : state :=
  let s :=
    if gt (fadd (memoryUsage (stats s)) (toDouble pageSize))
          (toDouble memoryLimit)
    then swapOutLRUPage s else s in
  match mapGet pageId (pageTable s) with
  | None => emit s (ConsoleError pageId)
  | Some p =>
      match status p with
      | active =>
          let '(t, s) := dateNow now s in
          withPageTable s (mapUpdate pageId (touched t) (pageTable s))
      | inactive =>
          let s := simulatePageLoad s in
          let chunkSize := endIndex p - startIndex p in
          let '(h, d) := alloc (mem s) (zeros chunkSize) in
          let s := withMem s h in
          let s :=
            withPageTable s (mapUpdate pageId (loaded d) (pageTable s)) in
          let '(t, s) := dateNow now s in
          let s :=
            withPageTable s (mapUpdate pageId (touched t) (pageTable s)) in
          let s := withStats s (afterSwapIn pageSize (stats s)) in
          emit s (PageSwappedIn pageId)
      end
  end.

Definition pixelsPerPage : Z := Qfloor (pageSize * 1024 * 1024 / 4).

(** One round of the loop of [storeImage].  (The slice and its copy into a
    new [Uint8ClampedArray] are one allocation here: the slice itself is
    never referred to again.) *)
Definition admitPage (img : ImageData.t) (s : state) (i : nat) : state :=
  let totalPixels := ImageData.width img * ImageData.height img in
  let startPixel := Z.of_nat i * pixelsPerPage in
  let endPixel := Z.min ((Z.of_nat i + 1) * pixelsPerPage) totalPixels in
  let startIndex := startPixel * 4 in
  let endIndex := endPixel * 4 in
  let '(h, chunkData) :=
    alloc (mem s)
          (slice (arr (mem s) (ImageData.data img)) startIndex endIndex) in
  let s := withMem s h in
  let pageId := pageKey i in
  let '(t, s) := dateNow now s in
  let s :=
    withPageTable s
      (mapSet pageId
         (mkPage (Some chunkData) active t
                 startPixel endPixel startIndex endIndex)
         (pageTable s)) in
  let s := withStats s (afterAdmit pageSize (stats s)) in
  if gt (memoryUsage (stats s)) (toDouble memoryLimit)
  then swapOutLRUPage s else s.

Definition storeImage (s : state) (imageData : option ImageData.t)
    : outcome state :=
  match imageData with
  | None => Returns s
  | Some img =>
      let s := clearAllPages s in
      let totalPixels := ImageData.width img * ImageData.height img in
      let totalPages :=
        mathCeil (div (ofZ totalPixels) (ofZ pixelsPerPage)) in
      let s :=
        withStats s
          (withTotals (stats s) (ImageData.width img) (ImageData.height img)
                      totalPixels totalPages) in
      match loopCount totalPages with
      | None => Diverges
      | Some n =>
          Returns (updateMemoryStats (foldl (admitPage img) s (seq 0 n)))
      end
  end.

(** One round of the loop of [processImageChunks], in its two halves.
    First the page is made resident: a page that is missing or inactive is
    swapped in and counted as a fault, any other is counted as a hit. *)
Definition ensureResident (s : state) (pageId : string) : state :=
  match mapGet pageId (pageTable s) with
  | Some (mkPage _ active _ _ _ _ _) => withStats s (afterHit (stats s))
  | _ =>
      let s := swapInPage s pageId in
      withStats s (afterFault (stats s))
  end.

(** Then the page is looked up again; without a page or without data the
    round ends ([continue]), else the page is stamped, its chunk processed
    and the result written to the output. *)
Definition transformPage (processor : chunkProcessor) (outputData : loc)
    (width height : Z) (adj : adjustments) (filter : string) (rotation : Z)
    (s : state) (pageId : string) : state :=
  match mapGet pageId (pageTable s) with
  | None => s
  | Some p =>
      match data p with
      | None => s
      | Some d =>
          let '(t, s) := dateNow now s in
          let s :=
            withPageTable s (mapUpdate pageId (touched t) (pageTable s)) in
          let '(h, processedChunkData) := processor (mem s) d adj filter in
          withMem s
            (applyChunkToOutput h processedChunkData outputData p
                                width height rotation)
      end
  end.

Definition processPage (processor : chunkProcessor) (outputData : loc)
    (width height : Z) (adj : adjustments) (filter : string) (rotation : Z)
    (s : state) (pageId : string) : state :=
  transformPage processor outputData width height adj filter rotation
                (ensureResident s pageId) pageId.

Definition processPages (processor : chunkProcessor) (outputData : loc)
    (width height : Z) (adj : adjustments) (filter : string) (rotation : Z)
    (s : state) (pageIds : list string) : state :=
  foldl (processPage processor outputData width height adj filter rotation)
        s pageIds.

(** [processImageChunks(originalImage, adjustments, filter, rotation)]: the
    state after the run and the image it resolves to.  (The constructor of
    [ImageData] is not modelled: it refuses a width or height of zero, which
    an [ImageData] given as [originalImage] cannot have.) *)
Definition processImageChunks (s : state) (originalImage : option ImageData.t)
    (adj : adjustments) (filter : string) (rotation : Z)
    : state * option ImageData.t :=
  match originalImage, processChunkFn s with
  | Some img, Some processor =>
      let width := ImageData.width img in
      let height := ImageData.height img in
      let '(newWidth, newHeight) :=
        if Z.rem rotation 180 =? 0 then (width, height)
        else (height, width) in
      let '(h, outputData) :=
        alloc (mem s) (zeros (newWidth * newHeight * 4)) in
      let s := withMem s h in
      let pageIds := mapKeys (pageTable s) in
      let s :=
        processPages processor outputData width height adj filter rotation
                     s pageIds in
      (updateMemoryStats s, Some (ImageData.mk newWidth newHeight outputData))
  | _, _ => (s, originalImage)
  end.

End Configured.

(** A manager right after [setupMemoryManager], on a given heap. *)
Definition setupMemoryManager (h : heap) : state :=
  mkState h [] freshStats None 0 [].

End MemoryManager.

Import MemoryManager.

(* ================================================================== *)
(** ** Vocabulary of the specification *)
(* ================================================================== *)

(** [t] is below the running minimum of the scan, which starts at
    [Infinity]. *)
Definition beats (t : Z) (oldestTime : option Z) : Prop :=
  match oldestTime with None => True | Some t0 => t < t0 end.

(** Entry [i] of the table holds the least recently used active page: no
    active page has a smaller [lastAccessed], and among those with the same
    one it comes first in the order of the table. *)
Definition isVictim (m : list (string * page)) (i : nat) (k : string)
    (p : page) : Prop :=
  m !! i = Some (k, p) /\ status p = active /\
  forall j k' q, m !! j = Some (k', q) -> status q = active ->
    lastAccessed p <= lastAccessed q /\
    (lastAccessed q = lastAccessed p -> (i <= j)%nat).

(** The keys of a [Map] are distinct, and those of the page table are not
    the empty string. *)
Definition wellKeyed (m : list (string * page)) : Prop :=
  NoDup (mapKeys m) /\ forall k, k ∈ mapKeys m -> k <> "".

(** *** Concrete configurations used in the examples

    A page size of 2^-18 MB is four bytes, one pixel; the sums of a few such
    sizes are doubles themselves, and nothing is rounded. *)

Definition onePixel : Q := 1 # 262144.

(** A clock that advances by one at every reading. *)
Definition tickingClock (n : nat) : Z := Z.of_nat n.

(** A 2x2 image whose bytes are 1..16, alone in the heap. *)
Definition image2x2 : ImageData.t := ImageData.mk 2 2 0%nat.
Definition heap2x2 : heap :=
  [[1; 2; 3; 4; 5; 6; 7; 8; 9; 10; 11; 12; 13; 14; 15; 16]].

(** A manager with the chunk processor of the image processor registered. *)
Definition freshManager (h : heap) : state :=
  registerChunkProcessor (setupMemoryManager h) processChunk.

Definition stateOf (o : outcome state) : state :=
  match o with Returns s => s | Diverges => setupMemoryManager [] end.

Definition noAdjustments : adjustments := mkAdjustments 0 0.

(** The 2x2 image stored under a budget of [n] one-pixel pages. *)
Definition stored2x2 (budget : Z) (now : nat -> Z) : state :=
  stateOf (storeImage (inject_Z budget * onePixel) onePixel now
                      (freshManager heap2x2) (Some image2x2)).

Definition statuses (s : state) : list (string * pageStatus) :=
  map (fun e => (fst e, status (snd e))) (pageTable s).

(** The swap events of a trace. *)
Definition isSwap (e : event) : bool :=
  match e with
  | PageSwappedOut _ | PageSwappedIn _ => true
  | _ => false
  end.

Definition swaps (tr : list event) : list event := List.filter isSwap tr.

(** *** The closed form of [storeImage]

    [budgetAfter i] is the number of evictions and the memory usage after
    [i] pages were admitted, each admission evicting one page when it takes
    the usage above the limit; the usage is the sum that the code keeps, in
    doubles. *)

Definition budgetStep (memoryLimit pageSize : Q) (acc : nat * num)
    : nat * num :=
  let '(k, u) := acc in
  let u' := fadd u (toDouble pageSize) in
  if gt u' (toDouble memoryLimit)
  then (S k, fsub u' (toDouble pageSize))
  else (k, u').

Fixpoint budgetAfter (memoryLimit pageSize : Q) (i : nat) : nat * num :=
  match i with
  | O => (O, ofZ 0)
  | S i => budgetStep memoryLimit pageSize (budgetAfter memoryLimit pageSize i)
  end.

Section Stored.

Variables memoryLimit pageSize : Q.
Variable now : nat -> Z.
Variable img : ImageData.t.
Variable s0 : state.

Definition pageStart (j : nat) : Z := Z.of_nat j * pixelsPerPage pageSize.

Definition pageEnd (j : nat) : Z :=
  Z.min ((Z.of_nat j + 1) * pixelsPerPage pageSize)
        (ImageData.width img * ImageData.height img).

(** Page [j] once stored, when the pages below [k] have been evicted: its
    chunk is the [j]-th array allocated by [storeImage]. *)
Definition storedPage (k j : nat) : page :=
  mkPage (if (j <? k)%nat then None else Some (length (mem s0) + j)%nat)
         (if (j <? k)%nat then inactive else active)
         (now (tick s0 + j)%nat)
         (pageStart j) (pageEnd j) (pageStart j * 4) (pageEnd j * 4).

Definition storedTable (k i : nat) : list (string * page) :=
  map (fun j => (pageKey j, storedPage k j)) (seq 0 i).

Fixpoint storedHeap (i : nat) : heap :=
  match i with
  | O => mem s0
  | S i =>
      storedHeap i ++
      [slice (arr (storedHeap i) (ImageData.data img))
             (pageStart i * 4) (pageEnd i * 4)]
  end.

Definition storedTotalPages : num :=
  mathCeil (div (ofZ (ImageData.width img * ImageData.height img))
                (ofZ (pixelsPerPage pageSize))).

Definition storedStats (i : nat) : statistics :=
  let '(k, u) := budgetAfter memoryLimit pageSize i in
  mkStats (Z.of_nat i - Z.of_nat k) (Z.of_nat k) 0 0 u
          (Some (ImageData.width img)) (Some (ImageData.height img))
          (Some (ImageData.width img * ImageData.height img))
          (Some storedTotalPages).

(** The state after [i] rounds of the loop of [storeImage]. *)
Definition storedState (i : nat) : state :=
  let k := fst (budgetAfter memoryLimit pageSize i) in
  mkState (storedHeap i) (storedTable k i) (storedStats i)
          (processChunkFn s0) (tick s0 + i)%nat
          (trace s0 ++ StatsUpdated freshStats ::
             map (fun j => PageSwappedOut (pageKey j)) (seq 0 k)).

(** The page that the scan picks at round [i], if that round evicts: the
    lowest-numbered page that is still active. *)
Definition picksLowest (i : nat) : Prop :=
  let '(k, u) := budgetAfter memoryLimit pageSize i in
  gt (fadd u (toDouble pageSize)) (toDouble memoryLimit) = true ->
  findLRU (storedTable k (S i)) = Some (pageKey k).

End Stored.

(** A clock that never goes back. *)
Definition monotone (now : nat -> Z) : Prop :=
  forall a b, (a <= b)%nat -> now a <= now b.

(** The number of pages of an image: [Math.ceil(totalPixels /
    pixelsPerPage)] for a positive [pixelsPerPage]. *)
Definition pageCount (pageSize : Q) (img : ImageData.t) : nat :=
  Z.to_nat
    (- ((- (ImageData.width img * ImageData.height img))
          / pixelsPerPage pageSize)).

(** *** Concrete runs used in the examples *)

Definition returned (o : outcome state) : bool :=
  match o with Returns _ => true | Diverges => false end.

(** A buffer of three bytes offered as a 2x2 image. *)
Definition heapShort : heap := [[1; 2; 3]].

Definition storedShort : outcome state :=
  storeImage (2 * onePixel) onePixel tickingClock
             (setupMemoryManager heapShort) (Some image2x2).

(** The loop of [processImageChunks] for the 2x2 image, without adjustments,
    filter or rotation, over a given sequence of page ids: the output buffer
    is allocated as [processImageChunks] does. *)
Definition acquireInOrder (budget : Z) (now : nat -> Z) (s : state)
    (pageIds : list string) : state :=
  processPages (inject_Z budget * onePixel) onePixel now processChunk
               (length (mem s)) 2 2 noAdjustments "none" 0
               (withMem s (mem s ++ [zeros 16])) pageIds.

(** The events that a run from [s] to [s'] added to the trace. *)
Definition newEvents (s s' : state) : list event :=
  drop (length (trace s)) (trace s').

(** Page 0 of the 2x2 image as [storeImage] leaves it under a budget of two
    pages: evicted. *)
Definition evictedPage0 : page := mkPage None inactive 0 0 1 0 4.

(** The 2x2 image under budgets of two and of three pages, after its pages
    were acquired in the order 0, 1, 2, 0; and after page 3 was acquired
    too. *)
Definition beforePage3 (budget : Z) : state :=
  acquireInOrder budget tickingClock (stored2x2 budget tickingClock)
                 (map pageKey [0; 1; 2; 0]%nat).

Definition afterPage3 (budget : Z) : state :=
  acquireInOrder budget tickingClock (stored2x2 budget tickingClock)
                 (map pageKey [0; 1; 2; 0; 3]%nat).

(** The same two runs from a table in which all four pages are evicted. *)
Definition allEvicted : state :=
  swapOutLRUPage onePixel
    (swapOutLRUPage onePixel (stored2x2 2 tickingClock)).

Definition coldBeforePage3 : state :=
  acquireInOrder 2 tickingClock allEvicted (map pageKey [0; 1; 2; 0]%nat).

Definition coldAfterPage3 : state :=
  acquireInOrder 2 tickingClock allEvicted (map pageKey [0; 1; 2; 0; 3]%nat).

(** A run over the stored 2x2 image that asks for a page that is not in the
    table. *)
Definition runWithUnknownPage : state :=
  acquireInOrder 100 tickingClock (stored2x2 100 tickingClock)
                 ["page_0"; "page_7"; "page_1"].

(** What an infinite contrast factor makes of a channel. *)
Definition saturated (x : Z) : Z := if 128 <? x then 255 else 0.

(** [h'] has every array of [h], unchanged, except possibly the one at
    [out]. *)
Definition extendsExcept (out : loc) (h h' : heap) : Prop :=
  (length h <= length h')%nat /\
  forall l, l <> out -> (l < length h)%nat -> h' !! l = h !! l.

(** Page [pageId] is resident with its data at [d]. *)
Definition residentAt (s : state) (pageId : string) (d : loc) : Prop :=
  exists p, mapGet pageId (pageTable s) = Some p /\
            data p = Some d /\ status p = active.

(** From [s] to [s'] the trace has only grown, and page [pageId], if it was
    resident with its data at [d], still is, unless its swap-out is among
    the new events. *)
Definition keepsPage (pageId : string) (d : loc) (s s' : state) : Prop :=
  exists evs,
    trace s' = trace s ++ evs /\
    (residentAt s pageId d ->
     residentAt s' pageId d \/ PageSwappedOut pageId ∈ evs).

(** *** Rotation of a whole image *)

Definition inRange (b : Z) : Prop := 0 <= b <= 255.

(** What [rotateStep] does to the contents of the output array, given the
    contents of the chunk. *)
Definition placePixel (chunk : bytes) (startPixel width height rotation : Z)
    (output : bytes) (i : nat) : bytes :=
  let newIndex :=
    rotatedIndex width height rotation (startPixel + Z.of_nat i) * 4 in
  let srcIndex := Z.of_nat i * 4 in
  let output := wr output newIndex (rd chunk srcIndex) in
  let output := wr output (newIndex + 1) (rd chunk (srcIndex + 1)) in
  let output := wr output (newIndex + 2) (rd chunk (srcIndex + 2)) in
  wr output (newIndex + 3) (rd chunk (srcIndex + 3)).

(** The first [m] pixels of [source] are in [output] at their rotated
    places, with their four channels. *)
Definition Placed (width height : Z) (source output : bytes) (m : Z) : Prop :=
  forall p c, 0 <= p < m -> 0 <= c < 4 ->
    output !! Z.to_nat (rotatedIndex width height 90 p * 4 + c)
    = source !! Z.to_nat (p * 4 + c).

(** [output] is [source], an image of the given width and height, turned by
    a quarter. *)
Definition Rotated (width height : Z) (source output : bytes) : Prop :=
  length output = length source /\
  Placed width height source output (width * height).

(** Pixel [i] of the chunk is pixel [startPixel + i] of the source. *)
Definition chunkAgrees (source chunk : bytes) (startPixel : Z) (i : nat)
    : Prop :=
  forall c, 0 <= c < 4 ->
    chunk !! Z.to_nat (Z.of_nat i * 4 + c)
    = source !! Z.to_nat ((startPixel + Z.of_nat i) * 4 + c).

(** The state holds the image: its buffer is allocated, has four bytes for
    each pixel, each in 0..255, the image is not empty, and the chunk
    processor of the image processor is registered. *)
Definition holdsImage (s : state) (img : ImageData.t) : Prop :=
  processChunkFn s = Some processChunk /\
  0 < ImageData.width img /\ 0 < ImageData.height img /\
  (ImageData.data img < length (mem s))%nat /\
  Z.of_nat (length (arr (mem s) (ImageData.data img)))
    = ImageData.width img * ImageData.height img * 4 /\
  Forall inRange (arr (mem s) (ImageData.data img)).

(** A page holds at least one pixel, and the budget has room for all the
    pages of the image: the usage that the code sums up while it stores
    them never goes above the limit, so that no page is evicted. *)
Definition enoughMemory (memoryLimit pageSize : Q) (img : ImageData.t)
    : Prop :=
  0 < pixelsPerPage pageSize /\
  fst (budgetAfter memoryLimit pageSize (pageCount pageSize img)) = 0%nat.

(** What [copyStep] does to the contents of the output array. *)
Definition copyByte (chunk : bytes) (startIndex : Z) (output : bytes)
    (i : nat) : bytes :=
  wr output (startIndex + Z.of_nat i) (rd chunk (Z.of_nat i)).

(** What [applyChunkToOutput] does to the contents of the output array,
    given the contents of the chunk and the start of its page. *)
Definition chunkOnOutput (chunk : bytes)
    (startIndex startPixel width height rotation : Z) (output : bytes)
    : bytes :=
  if rotation =? 0 then
    foldl (copyByte chunk startIndex) output (seq 0 (length chunk))
  else if width =? 0 then output
  else
    foldl (placePixel chunk startPixel width height rotation) output
          (seq 0 (strides chunk)).

(** The chunk of page [j] of an image with the bytes [source]. *)
Definition storedChunk (pageSize : Q) (img : ImageData.t) (source : bytes)
    (j : nat) : bytes :=
  slice source (pageStart pageSize j * 4) (pageEnd pageSize img j * 4).

(** The length of the output buffer of a run. *)
Definition outputLength (img : ImageData.t) (rotation : Z) : Z :=
  if Z.rem rotation 180 =? 0
  then ImageData.width img * ImageData.height img * 4
  else ImageData.height img * ImageData.width img * 4.

(** The output of a run after the first [j] pages, when every page is
    resident: a function of the bytes of the image alone. *)
Definition renderedAfter (pageSize : Q) (img : ImageData.t) (source : bytes)
    (adj : adjustments) (filter : string) (rotation : Z) (j : nat) : bytes :=
  foldl (fun output i =>
           chunkOnOutput
             (processedBytes adj filter (storedChunk pageSize img source i))
             (pageStart pageSize i * 4) (pageStart pageSize i)
             (ImageData.width img) (ImageData.height img) rotation output)
        (zeros (outputLength img rotation)) (seq 0 j).

(** Store an image and run the transform on it, as the editor does for a
    new image. *)
Definition renderStored (memoryLimit pageSize : Q) (now : nat -> Z)
    (s : state) (img : ImageData.t) (adj : adjustments) (filter : string)
    (rotation : Z) : state * option ImageData.t :=
  match storeImage memoryLimit pageSize now s (Some img) with
  | Returns s1 =>
      processImageChunks memoryLimit pageSize now s1 (Some img) adj filter
                         rotation
  | Diverges => (s, None)
  end.

(** A quarter turn of an image: the run with a rotation of 90 and nothing
    else. *)
Definition rotateRight (memoryLimit pageSize : Q) (now : nat -> Z)
    (s : state) (img : ImageData.t) : state * option ImageData.t :=
  renderStored memoryLimit pageSize now s img noAdjustments "none" 90.

(** [k] quarter turns, each of the image that the one before returned. *)
Fixpoint turns (memoryLimit pageSize : Q) (now : nat -> Z) (k : nat)
    (s : state) (img : ImageData.t) : state * option ImageData.t :=
  match k with
  | O => (s, Some img)
  | S k =>
      match turns memoryLimit pageSize now k s img with
      | (s', Some img') => rotateRight memoryLimit pageSize now s' img'
      | r => r
      end
  end.

(** The state of a run on the image stored from [s0], after [j] rounds
    without a fault: every page is resident with its chunk, and the output
    is [renderedAfter j]. *)
Definition residentInvariant (pageSize : Q) (img : ImageData.t) (s0 : state)
    (adj : adjustments) (filter : string) (rotation : Z)
    (j : nat) (s : state) : Prop :=
  let n := pageCount pageSize img in
  let out := (length (mem s0) + n)%nat in
  let source := arr (mem s0) (ImageData.data img) in
  processChunkFn s = Some processChunk /\
  (forall i, (i < n)%nat ->
     exists q, mapGet (pageKey i) (pageTable s) = Some q /\
               status q = active /\
               data q = Some (length (mem s0) + i)%nat /\
               startPixel q = pageStart pageSize i /\
               startIndex q = pageStart pageSize i * 4) /\
  (out < length (mem s))%nat /\
  (forall i, (i < n)%nat ->
     arr (mem s) (length (mem s0) + i) = storedChunk pageSize img source i) /\
  arr (mem s) out
    = renderedAfter pageSize img source adj filter rotation j.

(** The first [m] bytes of [output] are those of [source]. *)
Definition Copied (source output : bytes) (m : Z) : Prop :=
  forall k : nat, Z.of_nat k < m -> output !! k = source !! k.

(** A 3x2 image whose bytes are 1..24, alone in the heap. *)
Definition image3x2 : ImageData.t := ImageData.mk 3 2 0%nat.
Definition heap3x2 : heap :=
  [[1; 2; 3; 4; 5; 6; 7; 8; 9; 10; 11; 12;
    13; 14; 15; 16; 17; 18; 19; 20; 21; 22; 23; 24]].

(** The run of the transform without adjustments, filter or rotation on the
    2x2 image stored under a budget of two one-pixel pages. *)
Definition identityRun : state * option ImageData.t :=
  processImageChunks (2 * onePixel) onePixel tickingClock
                     (stored2x2 2 tickingClock) (Some image2x2)
                     noAdjustments "none" 0.

(** Four quarter turns of the 2x2 image, stored in one-pixel pages under a
    budget of two pages. *)
Definition fourTurns : state * option ImageData.t :=
  turns (2 * onePixel) onePixel tickingClock 4 (freshManager heap2x2)
        image2x2.

(** The same under a budget with room for the four pages. *)
Definition fourTurnsResident : state * option ImageData.t :=
  turns (4 * onePixel) onePixel tickingClock 4 (freshManager heap2x2)
        image2x2.

(** An image of eleven pixels in a row, with the bytes 1..44, stored in
    pages of 0.000004 MB, one pixel each, under a budget of 0.000044 MB. *)
Definition image11x1 : ImageData.t := ImageData.mk 11 1 0%nat.
Definition heap11x1 : heap := [map Z.of_nat (seq 1 44)].

Definition stored11x1 : state :=
  stateOf (storeImage (44 # 1000000) (4 # 1000000) tickingClock
                      (freshManager heap11x1) (Some image11x1)).

Definition identityRun11x1 : state * option ImageData.t :=
  processImageChunks (44 # 1000000) (4 # 1000000) tickingClock stored11x1
                     (Some image11x1) noAdjustments "none" 0.

(* ================================================================== *)
(** ** Vocabulary of the further properties *)
(* ================================================================== *)

(** *** Book-keeping of the manager *)

Definition isActive (e : string * page) : bool :=
  match status (snd e) with active => true | inactive => false end.

(** The number of active entries of the table. *)
Definition activeCount (m : list (string * page)) : nat :=
  length (List.filter isActive m).

(** The counters tell what the table holds: the keys are distinct and not
    empty, [activePages] and [inactivePages] count the active and the
    inactive entries, and a page has data exactly when it is active.
    Nothing is said of [memoryUsage], a sum of doubles. *)
Definition accounted (s : state) : Prop :=
  wellKeyed (pageTable s) /\
  activePages (stats s) = Z.of_nat (activeCount (pageTable s)) /\
  activePages (stats s) + inactivePages (stats s)
    = Z.of_nat (length (pageTable s)) /\
  forall k p, (k, p) ∈ pageTable s ->
    (status p = active <-> data p <> None).

(** The number of swap-in events among some events. *)
Definition isSwapIn (e : event) : bool :=
  match e with PageSwappedIn _ => true | _ => false end.

Definition swapIns (evs : list event) : Z :=
  Z.of_nat (length (List.filter isSwapIn evs)).

(** *** The ranges and the chunks of the pages *)

(** The pixel range and the byte range of a page. *)
Definition rangesOf (p : page) : Z * Z * Z * Z :=
  (startPixel p, endPixel p, startIndex p, endIndex p).

Definition keyedRanges (m : list (string * page))
    : list (string * (Z * Z * Z * Z)) :=
  map (fun e => (fst e, rangesOf (snd e))) m.

(** Every page that has data has it in an array of its own, allocated after
    the first [base] arrays of the heap, and the array holds
    [source.slice(startIndex, endIndex)]. *)
Definition chunksHold (source : bytes) (base : nat) (s : state) : Prop :=
  forall k p d, (k, p) ∈ pageTable s -> data p = Some d ->
    (base <= d < length (mem s))%nat /\
    arr (mem s) d = slice source (startIndex p) (endIndex p).

(** *** Loops over pixels *)

(** A step of a loop over the pixels of an array works on the pixel it is
    given and on nothing else: it keeps the length, and on an array made of
    whole pixels followed by more bytes it is the step on the part that
    holds its pixel. *)
Definition pixelStep (step : bytes -> nat -> bytes) : Prop :=
  (forall data k, length (step data k) = length data) /\
  (forall (x y : bytes) k,
     (4 * k + 4 <= length x)%nat -> step (x ++ y) k = step x k ++ y) /\
  (forall (x y : bytes) a k,
     length x = (4 * a)%nat -> step (x ++ y) (a + k)%nat = x ++ step y k).

(** The loop [for (let i = 0; i < data.length; i += 4)] with a given
    step. *)
Definition pixelLoop (step : bytes -> nat -> bytes) (data : bytes) : bytes :=
  foldl step data (seq 0 (strides data)).

(** A step that stores [G] of each of the three colour channels of its
    pixel: the steps of [applyBrightness], [applyContrast] and
    [applyInvert] are of this shape. *)
Definition channelStep (G : num -> num) (data : bytes) (k : nat) : bytes :=
  let i := 4 * Z.of_nat k in
  let data := wr data i (G (rd data i)) in
  let data := wr data (i + 1) (G (rd data (i + 1))) in
  wr data (i + 2) (G (rd data (i + 2))).

(** [g] on every colour channel, the alpha channels as they are. *)
Definition mapChannels (g : Z -> Z) (data : bytes) : bytes :=
  imap (fun j x => if (j mod 4 =? 3)%nat then x else g x) data.

(** What a store of [G] of a channel leaves in the array. *)
Definition storedChannel (G : num -> num) (x : Z) : Z :=
  toUint8Clamp (G (ofZ x)).

(** *** Concrete chunks used in the examples *)

(** Two pixels, and a heap that holds them and a copy of the second. *)
Definition twoPixels : bytes := [10; 20; 30; 40; 50; 60; 70; 80].
Definition heapTwoPixels : heap := [twoPixels; [50; 60; 70; 80]].

(** A number that is neither an infinity nor NaN. *)
Definition isFinite (a : num) : bool :=
  match a with Fin _ => true | _ => false end.
(* ================================================================== *)
(** ** Facts about the page map *)
(* ================================================================== *)

Section MapFacts.

Implicit Types (k : string) (m : list (string * page)) (f : page -> page).

Lemma mapGet_mapUpdate_eq k f m :
  mapGet k (mapUpdate k f m) = f <$> mapGet k m.
Proof.
  induction m as [|[k' v] m IH]; simpl; [done|].
  destruct (String.eqb_spec k' k) as [->|Hne]; simpl.
  - by rewrite String.eqb_refl.
  - destruct (String.eqb_spec k' k); [done|]. apply IH.
Qed.

Lemma mapGet_mapUpdate_ne k k' f m :
  k <> k' -> mapGet k' (mapUpdate k f m) = mapGet k' m.
Proof.
  intros Hne. induction m as [|[k0 v] m IH]; simpl; [done|].
  destruct (String.eqb_spec k0 k) as [->|Hk]; simpl.
  - destruct (String.eqb_spec k k'); [done|]. done.
  - destruct (String.eqb_spec k0 k'); [done|]. apply IH.
Qed.

Lemma mapKeys_mapUpdate k f m : mapKeys (mapUpdate k f m) = mapKeys m.
Proof.
  induction m as [|[k' v] m IH]; simpl; [done|].
  destruct (String.eqb_spec k' k); simpl; [done|]. by rewrite IH.
Qed.

Lemma length_mapUpdate k f m : length (mapUpdate k f m) = length m.
Proof.
  rewrite <- (length_map fst (mapUpdate k f m)), <- (length_map fst m).
  fold (mapKeys (mapUpdate k f m)). by rewrite mapKeys_mapUpdate.
Qed.

Lemma mapGet_None k m : mapGet k m = None <-> k ∉ mapKeys m.
Proof.
  induction m as [|[k' v] m IH]; simpl.
  - split; [intros _; apply not_elem_of_nil|done].
  - rewrite not_elem_of_cons.
    destruct (String.eqb_spec k' k) as [->|Hne]; split.
    + done.
    + intros [? _]. done.
    + intros H. split; [congruence|]. by apply IH.
    + intros [_ H]. by apply IH.
Qed.

Lemma mapGet_Some_elem k v m : mapGet k m = Some v -> (k, v) ∈ m.
Proof.
  induction m as [|[k' v'] m IH]; simpl; [done|].
  destruct (String.eqb_spec k' k) as [->|Hne].
  - intros [= ->]. apply list_elem_of_here.
  - intros H. apply list_elem_of_further. by apply IH.
Qed.

Lemma mapSet_fresh k v m : k ∉ mapKeys m -> mapSet k v m = m ++ [(k, v)].
Proof.
  induction m as [|[k' v'] m IH]; simpl; [done|].
  rewrite not_elem_of_cons. intros [Hne Hm].
  destruct (String.eqb_spec k' k); [congruence|]. by rewrite IH.
Qed.

Lemma mapGet_lookup m i k v :
  NoDup (mapKeys m) -> m !! i = Some (k, v) -> mapGet k m = Some v.
Proof.
  revert i. induction m as [|[k' v'] m IH]; intros i Hnd Hi; [done|].
  simpl in Hnd. apply NoDup_cons in Hnd as [Hk' Hnd]. simpl.
  destruct i as [|i]; simpl in Hi.
  - injection Hi as -> ->. by rewrite String.eqb_refl.
  - destruct (String.eqb_spec k' k) as [->|Hne]; [|by eapply IH].
    exfalso. apply Hk'. apply list_elem_of_lookup. exists i.
    unfold mapKeys. by rewrite list_lookup_fmap, Hi.
Qed.

Lemma mapUpdate_lookup m i k v f :
  NoDup (mapKeys m) -> m !! i = Some (k, v) ->
  mapUpdate k f m = <[i := (k, f v)]> m.
Proof.
  revert i. induction m as [|[k' v'] m IH]; intros i Hnd Hi; [done|].
  simpl in Hnd. apply NoDup_cons in Hnd as [Hk' Hnd]. simpl.
  destruct i as [|i]; simpl in Hi.
  - injection Hi as -> ->. by rewrite String.eqb_refl.
  - destruct (String.eqb_spec k' k) as [->|Hne].
    + exfalso. apply Hk'. apply list_elem_of_lookup. exists i.
      unfold mapKeys. by rewrite list_lookup_fmap, Hi.
    + simpl. f_equal. by apply IH.
Qed.

End MapFacts.

(* ================================================================== *)
(** ** The scan for the least recently used page *)
(* ================================================================== *)

Lemma lruStep_cases acc k p :
  (status p = active /\ beats (lastAccessed p) (fst acc) /\
   lruStep acc (k, p) = (Some (lastAccessed p), Some k))
  \/ ((status p = active -> ~ beats (lastAccessed p) (fst acc)) /\
      lruStep acc (k, p) = acc).
Proof.
  destruct acc as [[t0|] k0]; unfold lruStep; simpl;
    destruct (status p); try (right; split; [congruence|done]).
  - destruct (Z.ltb_spec (lastAccessed p) t0); [left|right]; split; auto.
    intros _. lia.
  - left. done.
Qed.

Lemma lru_fold m : forall t0 k0,
  (foldl lruStep (t0, k0) m = (t0, k0) /\
   forall k p, (k, p) ∈ m -> status p = active ->
               ~ beats (lastAccessed p) t0)
  \/ (exists pre k p post,
        m = pre ++ (k, p) :: post /\
        foldl lruStep (t0, k0) m = (Some (lastAccessed p), Some k) /\
        status p = active /\ beats (lastAccessed p) t0 /\
        (forall k' q, (k', q) ∈ pre -> status q = active ->
                      lastAccessed p < lastAccessed q) /\
        (forall k' q, (k', q) ∈ post -> status q = active ->
                      lastAccessed p <= lastAccessed q)).
Proof.
  induction m as [|[k p] m IH]; intros t0 k0.
  - left. split; [done|]. intros k p H. by apply elem_of_nil in H.
  - cbn [foldl].
    destruct (lruStep_cases (t0, k0) k p) as [(Ha & Hb & ->)|[Hn ->]].
    + simpl in Hb. right.
      destruct (IH (Some (lastAccessed p)) (Some k))
        as [[Hf Hall]
           |(pre & k' & q & post & -> & Hf & Hq & Hbq & Hpre & Hpost)].
      * exists [], k, p, m. repeat split; try done.
        -- intros k' q H. by apply elem_of_nil in H.
        -- intros k' q Hin Hq. specialize (Hall k' q Hin Hq).
           simpl in Hall. lia.
      * exists ((k, p) :: pre), k', q, post. simpl in Hbq.
        repeat split; try done.
        -- destruct t0; simpl in *; [lia|done].
        -- intros k2 q2 Hin Hq2.
           apply elem_of_cons in Hin as [[= -> ->]|Hin]; [done|].
           by eapply Hpre.
    + destruct (IH t0 k0)
        as [[Hf Hall]
           |(pre & k' & q & post & -> & Hf & Hq & Hbq & Hpre & Hpost)].
      * left. split; [done|]. intros k2 q2 Hin Hq2.
        apply elem_of_cons in Hin as [[= -> ->]|Hin]; [by apply Hn|].
        by eapply Hall.
      * right. exists ((k, p) :: pre), k', q, post.
        repeat split; try done.
        intros k2 q2 Hin Hq2. apply elem_of_cons in Hin as [[= -> ->]|Hin].
        -- specialize (Hn Hq2). simpl in Hn.
           destruct t0; simpl in *; [lia|done].
        -- by eapply Hpre.
Qed.

(** The scan returns the first entry, in table order, whose [lastAccessed]
    is least among the active pages; it returns nothing exactly when no page
    is active. *)
Lemma findLRU_spec m :
  (findLRU m = None /\ forall k p, (k, p) ∈ m -> status p = inactive)
  \/ (exists pre k p post,
        m = pre ++ (k, p) :: post /\ findLRU m = Some k /\
        status p = active /\
        (forall k' q, (k', q) ∈ pre -> status q = active ->
                      lastAccessed p < lastAccessed q) /\
        (forall k' q, (k', q) ∈ post -> status q = active ->
                      lastAccessed p <= lastAccessed q)).
Proof.
  unfold findLRU.
  destruct (lru_fold m None None)
    as [[Hf Hall]|(pre & k & p & post & -> & Hf & Hp & _ & Hpre & Hpost)].
  - left. rewrite Hf. split; [done|]. intros k p Hin.
    specialize (Hall k p Hin). destruct (status p); [|done].
    exfalso. by apply Hall.
  - right. exists pre, k, p, post. rewrite Hf. done.
Qed.

Lemma findLRU_victim m :
  (findLRU m = None /\ forall k p, (k, p) ∈ m -> status p = inactive)
  \/ (exists i k p, findLRU m = Some k /\ isVictim m i k p).
Proof.
  destruct (findLRU_spec m)
    as [?|(pre & k & p & post & -> & Hf & Hp & Hpre & Hpost)]; [by left|].
  right. exists (length pre), k, p. split; [done|].
  split; [by rewrite list_lookup_middle|]. split; [done|].
  intros j k' q Hj Hq.
  destruct (Nat.lt_trichotomy j (length pre)) as [Hlt|[->|Hgt]].
  - rewrite lookup_app_l in Hj by done.
    apply list_elem_of_lookup_2 in Hj. specialize (Hpre _ _ Hj Hq). lia.
  - rewrite list_lookup_middle in Hj by done. injection Hj as <- <-. lia.
  - rewrite lookup_app_r in Hj by lia.
    destruct (j - length pre)%nat as [|j'] eqn:Hd; [lia|]. simpl in Hj.
    apply list_elem_of_lookup_2 in Hj. specialize (Hpost _ _ Hj Hq). lia.
Qed.

Section SwapOut.

Variables memoryLimit pageSize : Q.

Lemma swapOutLRUPage_none s :
  findLRU (pageTable s) = None -> swapOutLRUPage pageSize s = s.
Proof. unfold swapOutLRUPage. by intros ->. Qed.

Lemma swapOutLRUPage_some s k :
  findLRU (pageTable s) = Some k -> k <> "" ->
  swapOutLRUPage pageSize s =
    emit (withStats
            (withPageTable s (mapUpdate k evicted (pageTable s)))
            (afterSwapOut pageSize (stats s)))
         (PageSwappedOut k).
Proof.
  unfold swapOutLRUPage. intros -> Hk. unfold truthy.
  destruct (String.eqb_spec k ""); [done|]. done.
Qed.

(** What [swapOutLRUPage] leaves alone, whatever it evicts. *)
Lemma swapOutLRUPage_frame s :
  let s' := swapOutLRUPage pageSize s in
  mem s' = mem s /\ tick s' = tick s /\
  processChunkFn s' = processChunkFn s /\
  pageHits (stats s') = pageHits (stats s) /\
  pageFaults (stats s') = pageFaults (stats s) /\
  mapKeys (pageTable s') = mapKeys (pageTable s).
Proof.
  unfold swapOutLRUPage. destruct (findLRU (pageTable s)) as [k|]; [|done].
  destruct (truthy k); [|done]. simpl. by rewrite mapKeys_mapUpdate.
Qed.

(** The trace only grows, by the swap-out event if there is one. *)
Lemma swapOutLRUPage_trace s :
  trace (swapOutLRUPage pageSize s) = trace s
  \/ exists k, findLRU (pageTable s) = Some k /\
       pageTable (swapOutLRUPage pageSize s)
         = mapUpdate k evicted (pageTable s) /\
       trace (swapOutLRUPage pageSize s) = trace s ++ [PageSwappedOut k].
Proof.
  unfold swapOutLRUPage. destruct (findLRU (pageTable s)) as [k|]; [|by left].
  destruct (truthy k); [|by left]. right. by exists k.
Qed.

(** An inactive page is not a candidate: the swap-out leaves it as it is. *)
Lemma swapOutLRUPage_inactive s k p :
  NoDup (mapKeys (pageTable s)) ->
  mapGet k (pageTable s) = Some p -> status p = inactive ->
  mapGet k (pageTable (swapOutLRUPage pageSize s)) = Some p.
Proof.
  intros Hnd Hget Hp. unfold swapOutLRUPage.
  destruct (findLRU_victim (pageTable s))
    as [[-> _]|(i & k' & q & -> & Hi & Hq & _)]; [done|].
  destruct (truthy k'); [|done]. simpl.
  destruct (decide (k' = k)) as [->|Hne]; [|by rewrite mapGet_mapUpdate_ne].
  rewrite (mapGet_lookup _ _ _ _ Hnd Hi) in Hget. congruence.
Qed.

(** With distinct, non-empty keys: either no page is active and nothing
    happens, or the least recently used active page is evicted. *)
Lemma swapOutLRUPage_cases s :
  wellKeyed (pageTable s) ->
  ((forall k p, (k, p) ∈ pageTable s -> status p = inactive) /\
   swapOutLRUPage pageSize s = s)
  \/ (exists i k p,
        isVictim (pageTable s) i k p /\
        swapOutLRUPage pageSize s =
          emit (withStats
                  (withPageTable s (<[i := (k, evicted p)]> (pageTable s)))
                  (afterSwapOut pageSize (stats s)))
               (PageSwappedOut k)).
Proof.
  intros [Hnd Hkeys].
  destruct (findLRU_victim (pageTable s))
    as [[Hf Hall]|(i & k & p & Hf & Hv)].
  - left. split; [done|]. by apply swapOutLRUPage_none.
  - right. exists i, k, p. split; [done|].
    destruct Hv as (Hi & _).
    rewrite (swapOutLRUPage_some _ _ Hf).
    + by rewrite (mapUpdate_lookup _ _ _ _ evicted Hnd Hi).
    + apply Hkeys. apply list_elem_of_lookup. exists i.
      unfold mapKeys. by rewrite list_lookup_fmap, Hi.
Qed.

End SwapOut.

(* ================================================================== *)
(** ** Swapping a page in *)
(* ================================================================== *)

Section SwapIn.

Variables memoryLimit pageSize : Q.
Variable now : nat -> Z.

(** The state in which [swapInPage] looks the page up: after the swap-out
    that makes room, if one is due. *)
Lemma swapInPage_room s :
  exists s1,
    (s1 = s \/ s1 = swapOutLRUPage pageSize s) /\
    swapInPage memoryLimit pageSize now s =
      fun pageId =>
        match mapGet pageId (pageTable s1) with
        | None => emit s1 (ConsoleError pageId)
        | Some p =>
            match status p with
            | active =>
                withPageTable
                  (snd (dateNow now s1))
                  (mapUpdate pageId (touched (now (tick s1))) (pageTable s1))
            | inactive =>
                emit
                  (mkState
                     (mem s1 ++ [zeros (endIndex p - startIndex p)])
                     (mapUpdate pageId (touched (now (tick s1)))
                        (mapUpdate pageId (loaded (length (mem s1)))
                                   (pageTable s1)))
                     (afterSwapIn pageSize (stats s1))
                     (processChunkFn s1) (S (tick s1)) (trace s1))
                  (PageSwappedIn pageId)
            end
        end.
Proof.
  exists (if gt (fadd (memoryUsage (stats s)) (toDouble pageSize))
                (toDouble memoryLimit)
          then swapOutLRUPage pageSize s else s).
  split; [destruct (gt _ _); auto|].
  unfold swapInPage. reflexivity.
Qed.

Lemma swapInPage_inactive s pageId p :
  NoDup (mapKeys (pageTable s)) ->
  mapGet pageId (pageTable s) = Some p ->
  status p = inactive ->
  exists s1,
    (s1 = s \/ s1 = swapOutLRUPage pageSize s) /\
    swapInPage memoryLimit pageSize now s pageId =
      emit
        (mkState
           (mem s ++ [zeros (endIndex p - startIndex p)])
           (mapUpdate pageId (touched (now (tick s)))
              (mapUpdate pageId (loaded (length (mem s))) (pageTable s1)))
           (afterSwapIn pageSize (stats s1))
           (processChunkFn s) (S (tick s)) (trace s1))
        (PageSwappedIn pageId) /\
    mapGet pageId (pageTable s1) = Some p.
Proof.
  intros Hnd Hget Hp.
  destruct (swapInPage_room s) as (s1 & Hs1 & ->).
  exists s1. split; [done|].
  assert (Hget1 : mapGet pageId (pageTable s1) = Some p).
  { destruct Hs1 as [->| ->]; [done|]. by apply swapOutLRUPage_inactive. }
  assert (Hfr : mem s1 = mem s /\ tick s1 = tick s /\
                processChunkFn s1 = processChunkFn s).
  { destruct Hs1 as [->| ->]; [done|].
    destruct (swapOutLRUPage_frame pageSize s) as (? & ? & ? & _). done. }
  destruct Hfr as (Hm & Ht & Hf).
  rewrite Hget1, Hp, Hm, Ht, Hf. done.
Qed.

End SwapIn.

(** C1.  Swapping in an evicted page does not bring its bytes back: the page
    gets a newly allocated buffer of zeros whose length is
    [endIndex - startIndex]; the page is then active, its [lastAccessed] is
    the reading of the clock, and the last event emitted is the swapped-in
    signal for this page. *)
Theorem swapInPage_zero_fills (memoryLimit pageSize : Q) (now : nat -> Z)
    (s : state) (pageId : string) (p : page) :
  NoDup (mapKeys (pageTable s)) ->
  mapGet pageId (pageTable s) = Some p ->
  status p = inactive ->
  startIndex p <= endIndex p ->
  let s' := swapInPage memoryLimit pageSize now s pageId in
  exists d,
    d = length (mem s) /\
    mapGet pageId (pageTable s') =
      Some (mkPage (Some d) active (now (tick s))
                   (startPixel p) (endPixel p) (startIndex p) (endIndex p)) /\
    mem s' = mem s ++ [arr (mem s') d] /\
    Z.of_nat (length (arr (mem s') d)) = endIndex p - startIndex p /\
    Forall (fun b => b = 0) (arr (mem s') d) /\
    last (trace s') = Some (PageSwappedIn pageId).
Proof.
  intros Hnd Hget Hp Hle s'.
  destruct (swapInPage_inactive memoryLimit pageSize now s pageId p
              Hnd Hget Hp) as (s1 & _ & Heq & Hget1).
  subst s'. rewrite Heq. clear Heq. exists (length (mem s)).
  split; [done|]. simpl.
  assert (Harr : arr (mem s ++ [zeros (endIndex p - startIndex p)])
                     (length (mem s)) = zeros (endIndex p - startIndex p)).
  { unfold arr. by rewrite list_lookup_middle. }
  rewrite Harr. repeat split.
  - rewrite !mapGet_mapUpdate_eq, Hget1. done.
  - unfold zeros. rewrite length_replicate. lia.
  - unfold zeros. apply Forall_replicate. done.
  - by rewrite last_snoc.
Qed.

Lemma swapInPage_zero_fills_witness :
  NoDup (mapKeys (pageTable (stored2x2 2 tickingClock))) /\
  mapGet "page_0" (pageTable (stored2x2 2 tickingClock)) = Some evictedPage0 /\
  status evictedPage0 = inactive /\
  startIndex evictedPage0 <= endIndex evictedPage0 /\
  exists d,
    d = length (mem (stored2x2 2 tickingClock)) /\
    mapGet "page_0"
      (pageTable (swapInPage (2 * onePixel) onePixel tickingClock
                             (stored2x2 2 tickingClock) "page_0"))
    = Some (mkPage (Some d) active
                   (tickingClock (tick (stored2x2 2 tickingClock))) 0 1 0 4).
Proof.
  assert (Hnd : NoDup (mapKeys (pageTable (stored2x2 2 tickingClock))))
    by (apply (bool_decide_unpack _); vm_compute; exact I).
  assert (Hget : mapGet "page_0" (pageTable (stored2x2 2 tickingClock))
                 = Some evictedPage0) by (vm_compute; reflexivity).
  assert (Hle : startIndex evictedPage0 <= endIndex evictedPage0)
    by (vm_compute; discriminate).
  split; [exact Hnd|]. split; [exact Hget|]. split; [reflexivity|].
  split; [exact Hle|].
  destruct (swapInPage_zero_fills (2 * onePixel) onePixel tickingClock
              (stored2x2 2 tickingClock) "page_0" evictedPage0
              Hnd Hget eq_refl Hle) as (d & Hd & Hp & _).
  exists d. split; [exact Hd|exact Hp].
Defined.

(* ================================================================== *)
(** ** One round of the transform loop *)
(* ================================================================== *)

Section Round.

Variables memoryLimit pageSize : Q.
Variable now : nat -> Z.

(** [swapInPage] never touches the hit and fault counters. *)
Lemma swapInPage_counters s pageId :
  let s' := swapInPage memoryLimit pageSize now s pageId in
  pageHits (stats s') = pageHits (stats s) /\
  pageFaults (stats s') = pageFaults (stats s).
Proof.
  destruct (swapInPage_room memoryLimit pageSize now s) as (s1 & Hs1 & ->).
  assert (H1 : pageHits (stats s1) = pageHits (stats s) /\
               pageFaults (stats s1) = pageFaults (stats s)).
  { destruct Hs1 as [->| ->]; [done|].
    destruct (swapOutLRUPage_frame pageSize s) as (_ & _ & _ & ? & ? & _).
    done. }
  simpl. destruct (mapGet pageId (pageTable s1)) as [p|]; [|done].
  destruct (status p); done.
Qed.

(** The second half of a round leaves the statistics and the trace alone. *)
Lemma transformPage_stats processor out w h adj f rot s pageId :
  let s' := transformPage now processor out w h adj f rot s pageId in
  stats s' = stats s /\ trace s' = trace s /\
  processChunkFn s' = processChunkFn s /\
  mapKeys (pageTable s') = mapKeys (pageTable s).
Proof.
  unfold transformPage.
  destruct (mapGet pageId (pageTable s)) as [p|]; [|done].
  destruct (data p) as [d|]; [|done]. simpl.
  destruct (processor _ _ _ _) as [h' r]. simpl.
  by rewrite mapKeys_mapUpdate.
Qed.

End Round.

(** C5.  In a round of the transform loop, a page that is resident is
    counted as a hit and leaves the fault counter as it is; a page that is
    evicted adds exactly one to the fault counter and leaves the hit counter
    as it is. *)
Theorem acquisition_counts (memoryLimit pageSize : Q) (now : nat -> Z)
    (processor : chunkProcessor) (outputData : loc) (width height : Z)
    (adj : adjustments) (filter : string) (rotation : Z)
    (s : state) (pageId : string) (p : page) :
  mapGet pageId (pageTable s) = Some p ->
  let s' :=
    processPage memoryLimit pageSize now processor outputData width height
                adj filter rotation s pageId in
  (status p = active ->
     pageFaults (stats s') = pageFaults (stats s) /\
     pageHits (stats s') = pageHits (stats s) + 1) /\
  (status p = inactive ->
     pageFaults (stats s') = pageFaults (stats s) + 1 /\
     pageHits (stats s') = pageHits (stats s)).
Proof.
  intros Hget s'. subst s'. unfold processPage.
  destruct (transformPage_stats now processor outputData width height adj
              filter rotation
              (ensureResident memoryLimit pageSize now s pageId) pageId)
    as (-> & _).
  unfold ensureResident. rewrite Hget.
  destruct (swapInPage_counters memoryLimit pageSize now s pageId)
    as [Hh Hf].
  destruct p as [d [|] t a b c e]; simpl; split; intros Hs;
    try discriminate; simpl; [done|].
  rewrite Hh, Hf. done.
Qed.

Lemma acquisition_counts_witness :
  mapGet "page_0" (pageTable (stored2x2 2 tickingClock)) = Some evictedPage0 /\
  pageFaults
    (stats (processPage (2 * onePixel) onePixel tickingClock processChunk
                        5%nat 2 2 noAdjustments "none" 0
                        (stored2x2 2 tickingClock) "page_0"))
  = pageFaults (stats (stored2x2 2 tickingClock)) + 1.
Proof.
  assert (Hget : mapGet "page_0" (pageTable (stored2x2 2 tickingClock))
                 = Some evictedPage0) by (vm_compute; reflexivity).
  split; [exact Hget|].
  exact (proj1 (proj2 (acquisition_counts (2 * onePixel) onePixel
                         tickingClock processChunk 5%nat 2 2 noAdjustments
                         "none" 0 (stored2x2 2 tickingClock) "page_0"
                         evictedPage0 Hget) eq_refl)).
Defined.

(* ================================================================== *)
(** ** Storing an image *)
(* ================================================================== *)

Lemma pageKey_inj i j : pageKey i = pageKey j -> i = j.
Proof.
  unfold pageKey. intros H. apply (inj (String.app "page_")) in H.
  by apply (inj pretty) in H.
Qed.

Lemma pageKey_nonempty i : pageKey i <> "".
Proof. unfold pageKey. done. Qed.

Lemma budgetAfter_le memoryLimit pageSize i :
  (fst (budgetAfter memoryLimit pageSize i) <= i)%nat.
Proof.
  induction i as [|i IH]; simpl; [done|].
  destruct (budgetAfter memoryLimit pageSize i) as [k u].
  unfold budgetStep. cbn [fst] in *.
  destruct (gt _ _); cbn [fst]; lia.
Qed.

Section StoredFacts.

Variables memoryLimit pageSize : Q.
Variable now : nat -> Z.
Variable img : ImageData.t.
Variable s0 : state.

Local Abbreviation sTable := (storedTable pageSize now img s0).
Local Abbreviation sPage := (storedPage pageSize now img s0).

Lemma storedTable_length k i : length (sTable k i) = i.
Proof. unfold storedTable. by rewrite length_map, length_seq. Qed.

Lemma storedTable_keys k i : mapKeys (sTable k i) = map pageKey (seq 0 i).
Proof.
  unfold mapKeys, storedTable. rewrite map_map. done.
Qed.

Lemma storedTable_lookup k i j :
  (j < i)%nat -> sTable k i !! j = Some (pageKey j, sPage k j).
Proof.
  intros Hj. unfold storedTable.
  rewrite list_lookup_fmap, lookup_seq_lt by done. done.
Qed.

Lemma storedTable_NoDup k i : NoDup (mapKeys (sTable k i)).
Proof.
  rewrite storedTable_keys. apply NoDup_fmap_2; [|apply NoDup_seq].
  intros a b. apply pageKey_inj.
Qed.

Lemma storedTable_fresh k i : pageKey i ∉ mapKeys (sTable k i).
Proof.
  rewrite storedTable_keys. intros H.
  apply list_elem_of_fmap in H as (j & Hj & Hin).
  apply pageKey_inj in Hj as <-. apply elem_of_seq in Hin. lia.
Qed.

Lemma storedTable_snoc k i :
  (k <= i)%nat ->
  sTable k (S i) = sTable k i ++ [(pageKey i, sPage k i)].
Proof.
  intros _. unfold storedTable. by rewrite seq_S, map_app.
Qed.

Lemma storedTable_evict k i :
  (k < i)%nat ->
  mapUpdate (pageKey k) evicted (sTable k i) = sTable (S k) i.
Proof.
  intros Hk.
  rewrite (mapUpdate_lookup _ k _ (sPage k k)); cycle 1.
  { apply storedTable_NoDup. }
  { by apply storedTable_lookup. }
  apply list_eq. intros j.
  destruct (decide (j < i)%nat) as [Hj|Hj].
  - rewrite (storedTable_lookup (S k)) by done.
    destruct (decide (k = j)) as [->|Hne].
    + rewrite list_lookup_insert_eq by (by rewrite storedTable_length).
      unfold storedPage, evicted.
      destruct (Nat.ltb_spec j j), (Nat.ltb_spec j (S j)); try lia; done.
    + rewrite list_lookup_insert_ne by done.
      rewrite storedTable_lookup by done. unfold storedPage.
      destruct (Nat.ltb_spec j k), (Nat.ltb_spec j (S k)); try lia; done.
  - rewrite !lookup_ge_None_2; [done| |].
    + rewrite storedTable_length. lia.
    + rewrite length_insert, storedTable_length. lia.
Qed.

End StoredFacts.

Section StoreLoop.

Variables memoryLimit pageSize : Q.
Variable now : nat -> Z.
Variable img : ImageData.t.
Variable s0 : state.

Local Abbreviation sState := (storedState memoryLimit pageSize now img s0).

Lemma storedHeap_length i :
  length (storedHeap pageSize img s0 i) = (length (mem s0) + i)%nat.
Proof.
  induction i as [|i IH]; simpl; [lia|]. rewrite length_app, IH. simpl. lia.
Qed.

(** One round of the loop takes the closed form to the next one, provided
    the scan picks the lowest active page if it runs. *)
Lemma admitPage_stored i :
  picksLowest memoryLimit pageSize now img s0 i ->
  admitPage memoryLimit pageSize now img (sState i) i = sState (S i).
Proof.
  unfold picksLowest, storedState, storedStats. simpl budgetAfter.
  pose proof (budgetAfter_le memoryLimit pageSize i) as Hle.
  destruct (budgetAfter memoryLimit pageSize i) as [k u]. simpl in Hle.
  intros Hpick. unfold admitPage, alloc, dateNow. cbn -[gt fadd fsub toDouble storedTable pixelsPerPage storedHeap].
  rewrite (mapSet_fresh _ _ _ (storedTable_fresh pageSize now img s0 k i)).
  rewrite storedHeap_length. cbn [storedHeap].
  assert (Hsnoc :
    storedTable pageSize now img s0 k i ++
      [(pageKey i,
        mkPage (Some (length (mem s0) + i)%nat) active (now (tick s0 + i)%nat)
          (Z.of_nat i * pixelsPerPage pageSize)
          (Z.min ((Z.of_nat i + 1) * pixelsPerPage pageSize)
                 (ImageData.width img * ImageData.height img))
          (Z.of_nat i * pixelsPerPage pageSize * 4)
          (Z.min ((Z.of_nat i + 1) * pixelsPerPage pageSize)
                 (ImageData.width img * ImageData.height img) * 4))]
    = storedTable pageSize now img s0 k (S i)).
  { rewrite storedTable_snoc by done. f_equal. f_equal. f_equal.
    unfold storedPage, pageStart, pageEnd.
    destruct (Nat.ltb_spec i k); [lia|]. done. }
  rewrite Hsnoc. unfold budgetStep.
  destruct (gt (fadd u (toDouble pageSize)) (toDouble memoryLimit)) eqn:Hq.
  - rewrite (swapOutLRUPage_some pageSize _ (pageKey k)); cycle 1.
    { simpl. by apply Hpick. }
    { apply pageKey_nonempty. }
    cbn -[gt fadd fsub toDouble storedTable pixelsPerPage storedHeap].
    rewrite storedTable_evict by lia.
    unfold emit, withStats, withPageTable, afterSwapOut.
    cbn -[gt fadd fsub toDouble storedTable pixelsPerPage storedHeap].
    f_equal.
    + f_equal; lia.
    + lia.
    + rewrite <- app_assoc, <- app_comm_cons. do 2 f_equal.
      symmetry.
      exact (eq_trans (f_equal (map _) (seq_S _ _)) (map_app _ _ _)).
  - unfold withStats, withPageTable, afterAdmit.
    cbn -[gt fadd fsub toDouble storedTable pixelsPerPage storedHeap].
    f_equal.
    + f_equal; lia.
    + lia.
Qed.

End StoreLoop.

Lemma loopCount_pages pageSize img :
  0 < pixelsPerPage pageSize ->
  loopCount (storedTotalPages pageSize img) = Some (pageCount pageSize img).
Proof.
  intros Hpos. unfold storedTotalPages, pageCount.
  set (tp := ImageData.width img * ImageData.height img).
  set (ppp := pixelsPerPage pageSize) in *.
  unfold div, ofZ, isZero. simpl Qnum.
  destruct (Z.eqb_spec ppp 0) as [?|_]; [lia|].
  unfold mathCeil, ofZ, loopCount. f_equal. f_equal.
  rewrite Qceiling_Z. unfold Qceiling. f_equal.
  rewrite Zdiv_Qdiv. apply Qfloor_comp.
  rewrite inject_Z_opp. unfold Qdiv. ring.
Qed.

Lemma pageCount_bounds pageSize img :
  0 < pixelsPerPage pageSize ->
  0 <= ImageData.width img * ImageData.height img ->
  let n := Z.of_nat (pageCount pageSize img) in
  (n - 1) * pixelsPerPage pageSize
    < ImageData.width img * ImageData.height img
    <= n * pixelsPerPage pageSize
  \/ (ImageData.width img * ImageData.height img = 0 /\ n = 0).
Proof.
  intros Hpos Htp. unfold pageCount.
  set (tp := ImageData.width img * ImageData.height img) in *.
  set (ppp := pixelsPerPage pageSize) in *.
  pose proof (Z.div_mod (- tp) ppp ltac:(lia)) as Hdm.
  pose proof (Z.mod_pos_bound (- tp) ppp Hpos) as Hr.
  destruct (Z.eq_dec tp 0) as [H0|H0].
  - right. split; [done|]. rewrite H0. simpl. rewrite Z.div_0_l by lia. done.
  - left. assert (Hq : (- tp) / ppp < 0).
    { apply Z.div_lt_upper_bound; lia. }
    rewrite Z2Nat.id by lia. nia.
Qed.

Section StoreImage.

Variables memoryLimit pageSize : Q.
Variable now : nat -> Z.
Variable img : ImageData.t.
Variable s0 : state.

Local Abbreviation sState := (storedState memoryLimit pageSize now img s0).

Lemma foldl_admitPage n :
  (forall i, (i < n)%nat -> picksLowest memoryLimit pageSize now img s0 i) ->
  foldl (admitPage memoryLimit pageSize now img) (sState 0) (seq 0 n)
  = sState n.
Proof.
  induction n as [|n IH]; intros Hpick; [done|].
  rewrite seq_S, foldl_app, IH by (intros; apply Hpick; lia). simpl.
  apply admitPage_stored. apply Hpick. lia.
Qed.

(** [storeImage] in closed form. *)
Lemma storeImage_stored :
  0 < pixelsPerPage pageSize ->
  (forall i, (i < pageCount pageSize img)%nat ->
             picksLowest memoryLimit pageSize now img s0 i) ->
  storeImage memoryLimit pageSize now s0 (Some img)
  = Returns (updateMemoryStats (sState (pageCount pageSize img))).
Proof.
  intros Hpos Hpick. unfold storeImage.
  fold (storedTotalPages pageSize img).
  rewrite loopCount_pages by done. f_equal. f_equal.
  rewrite <- (foldl_admitPage _ Hpick). f_equal.
  unfold storedState, storedStats, clearAllPages, updateMemoryStats. simpl.
  unfold withStats, withTotals, emit. simpl. f_equal. lia.
Qed.

End StoreImage.

(** *** Which page the scan picks *)

Lemma foldl_lruStep_inactive acc m :
  (forall k p, (k, p) ∈ m -> status p = inactive) ->
  foldl lruStep acc m = acc.
Proof.
  revert acc. induction m as [|[k p] m IH]; intros acc Hall; [done|].
  cbn [foldl]. rewrite IH.
  - destruct acc as [t0 k0]. unfold lruStep.
    by rewrite (Hall k p (list_elem_of_here _ _)).
  - intros k' q Hin. eapply Hall. by apply list_elem_of_further.
Qed.

Lemma foldl_lruStep_later t k m :
  (forall k' q, (k', q) ∈ m -> status q = active -> t <= lastAccessed q) ->
  foldl lruStep (Some t, Some k) m = (Some t, Some k).
Proof.
  induction m as [|[k' q] m IH]; intros Hall; [done|].
  cbn [foldl]. rewrite <- IH at 2.
  - f_equal. unfold lruStep.
    pose proof (Hall k' q (list_elem_of_here _ _)) as Hq.
    destruct (status q); [|done].
    destruct (Z.ltb_spec (lastAccessed q) t); [|done]. specialize (Hq eq_refl). lia.
  - intros k2 q2 Hin. eapply Hall. by apply list_elem_of_further.
Qed.

(** The scan returns an active page that follows inactive pages only and is
    followed by no page accessed earlier. *)
Lemma findLRU_first_active pre k p post :
  (forall k' q, (k', q) ∈ pre -> status q = inactive) ->
  status p = active ->
  (forall k' q, (k', q) ∈ post -> status q = active ->
                lastAccessed p <= lastAccessed q) ->
  findLRU (pre ++ (k, p) :: post) = Some k.
Proof.
  intros Hpre Hp Hpost. unfold findLRU.
  rewrite foldl_app, (foldl_lruStep_inactive _ _ Hpre). cbn [foldl].
  replace (lruStep (None, None) (k, p)) with (Some (lastAccessed p), Some k)
    by (unfold lruStep; by rewrite Hp).
  by rewrite foldl_lruStep_later.
Qed.

Lemma picksLowest_monotone memoryLimit pageSize now img s0 i :
  monotone now -> picksLowest memoryLimit pageSize now img s0 i.
Proof.
  intros Hmono. unfold picksLowest.
  pose proof (budgetAfter_le memoryLimit pageSize i) as Hle.
  destruct (budgetAfter memoryLimit pageSize i) as [k u]. simpl in Hle.
  intros _. unfold storedTable.
  replace (seq 0 (S i)) with (seq 0 k ++ k :: seq (S k) (i - k)); cycle 1.
  { replace (S i) with (k + S (i - k))%nat by lia.
    rewrite seq_app. done. }
  rewrite map_app. cbn [map]. apply findLRU_first_active.
  - intros k' q Hin. apply list_elem_of_fmap in Hin as (j & [= -> ->] & Hj).
    apply elem_of_seq in Hj. unfold storedPage. simpl.
    destruct (Nat.ltb_spec j k); [done|lia].
  - unfold storedPage. simpl. by rewrite Nat.ltb_irrefl.
  - intros k' q Hin _. apply list_elem_of_fmap in Hin as (j & [= -> ->] & Hj).
    apply elem_of_seq in Hj. unfold storedPage. simpl.
    apply Hmono. lia.
Qed.

(** *** The keys of the table, for any clock *)

Lemma mapKeys_mapSet_fresh k v m :
  k ∉ mapKeys m -> mapKeys (mapSet k v m) = mapKeys m ++ [k].
Proof.
  intros H. rewrite mapSet_fresh by done. unfold mapKeys.
  by rewrite map_app.
Qed.

Lemma admitPage_keys memoryLimit pageSize now img s i :
  mapKeys (pageTable s) = map pageKey (seq 0 i) ->
  mapKeys (pageTable (admitPage memoryLimit pageSize now img s i))
  = map pageKey (seq 0 (S i)).
Proof.
  intros Hk. rewrite seq_S, map_app. cbn [map].
  unfold admitPage, alloc, dateNow.
  cbn -[gt fadd fsub toDouble pixelsPerPage].
  match goal with
  | |- mapKeys (pageTable (if ?c then swapOutLRUPage _ ?s else _)) = ?r =>
      assert (Hs : mapKeys (pageTable s) = r);
      [|destruct c; [|done];
        destruct (swapOutLRUPage_frame pageSize s) as (_&_&_&_&_&->); done]
  end.
  cbn -[gt fadd fsub toDouble pixelsPerPage].
  rewrite mapKeys_mapSet_fresh, Hk; [done|].
  rewrite Hk. intros Hin. apply list_elem_of_fmap in Hin as (j & Hj & Hin).
  apply pageKey_inj in Hj as <-. apply elem_of_seq in Hin. lia.
Qed.

Lemma foldl_admitPage_keys memoryLimit pageSize now img s n :
  pageTable s = [] ->
  mapKeys (pageTable
             (foldl (admitPage memoryLimit pageSize now img) s (seq 0 n)))
  = map pageKey (seq 0 n).
Proof.
  intros Hs. induction n as [|n IH]; [simpl; by rewrite Hs|].
  set (f := admitPage memoryLimit pageSize now img) in *.
  replace (foldl f s (seq 0 (S n))) with (f (foldl f s (seq 0 n)) n)
    by (by rewrite seq_S, foldl_app).
  by apply admitPage_keys.
Qed.

(* ================================================================== *)
(** ** Claims about [storeImage] and the eviction order *)
(* ================================================================== *)



Lemma monotone_tickingClock : monotone tickingClock.
Proof. intros a b Hab. unfold tickingClock. lia. Qed.


(** The usage is a sum of doubles.  Eleven additions of 0.000004 give more
    than 0.000044: of eleven one-pixel pages under that budget, [storeImage]
    evicts page 0.  Ten additions of 0.1 give less than 1: under a budget
    of 1 the tenth admission evicts nothing. *)
Lemma usage_is_summed_in_doubles :
  budgetAfter (44 # 1000000) (4 # 1000000) 11
    = (1%nat, Fin (5902958103587057 # 147573952589676412928)) /\
  statuses stored11x1
    = [("page_0", inactive); ("page_1", active); ("page_2", active);
       ("page_3", active); ("page_4", active); ("page_5", active);
       ("page_6", active); ("page_7", active); ("page_8", active);
       ("page_9", active); ("page_10", active)] /\
  swaps (trace stored11x1) = [PageSwappedOut "page_0"] /\
  budgetAfter 1 (1 # 10) 10
    = (0%nat, Fin (9007199254740991 # 9007199254740992)).
Proof. repeat split; vm_compute; reflexivity. Qed.

(* ================================================================== *)
(** ** Claims about eviction and unknown pages *)
(* ================================================================== *)

(** C4, as stated, fails in its example: with a budget of two pages, when
    page 3 is admitted page 1 is already evicted (it went out when page 0
    was acquired again, which was a fault) and the page evicted is page 2;
    from the table as [storeImage] leaves it, and as well from a table in
    which all four pages are evicted. *)
Lemma budget_two_evicts_page_2 :
  (statuses (beforePage3 2)
     = [("page_0", active); ("page_1", inactive);
        ("page_2", active); ("page_3", inactive)] /\
   newEvents (beforePage3 2) (afterPage3 2)
     = [PageSwappedOut "page_2"; PageSwappedIn "page_3"]) /\
  (statuses coldBeforePage3
     = [("page_0", active); ("page_1", inactive);
        ("page_2", active); ("page_3", inactive)] /\
   newEvents coldBeforePage3 coldAfterPage3
     = [PageSwappedOut "page_2"; PageSwappedIn "page_3"]).
Proof. repeat split; vm_compute; reflexivity. Qed.

(** C4 (amended).  [swapOutLRUPage] evicts, among the active pages only, the
    page with the least [lastAccessed], the first one in the order of the
    table among equals; it does nothing when no page is active.  In the
    example with a budget of two pages, page 2 is evicted when page 3 is
    admitted, whether the run starts from the table as [storeImage] leaves
    it or from one with all pages evicted; with a budget of three pages it
    is page 1, and not page 0. *)
Theorem swapOutLRUPage_evicts_least_recent :
  (forall (pageSize : Q) (s : state),
     wellKeyed (pageTable s) ->
     ((forall k p, (k, p) ∈ pageTable s -> status p = inactive) /\
      swapOutLRUPage pageSize s = s)
     \/ (exists i k p,
           isVictim (pageTable s) i k p /\
           pageTable (swapOutLRUPage pageSize s)
             = <[i := (k, evicted p)]> (pageTable s) /\
           trace (swapOutLRUPage pageSize s)
             = trace s ++ [PageSwappedOut k])) /\
  newEvents (beforePage3 2) (afterPage3 2)
    = [PageSwappedOut "page_2"; PageSwappedIn "page_3"] /\
  newEvents coldBeforePage3 coldAfterPage3
    = [PageSwappedOut "page_2"; PageSwappedIn "page_3"] /\
  (statuses (beforePage3 3)
     = [("page_0", active); ("page_1", active);
        ("page_2", active); ("page_3", inactive)] /\
   newEvents (beforePage3 3) (afterPage3 3)
     = [PageSwappedOut "page_1"; PageSwappedIn "page_3"]).
Proof.
  split.
  - intros pageSize s Hwk.
    destruct (swapOutLRUPage_cases pageSize s Hwk)
      as [?|(i & k & p & Hv & ->)]; [by left|].
    right. exists i, k, p. done.
  - repeat split; vm_compute; reflexivity.
Qed.

Lemma wellKeyed_stored2x2 : wellKeyed (pageTable (stored2x2 2 tickingClock)).
Proof.
  split.
  - apply (bool_decide_unpack _). vm_compute. exact I.
  - intros k Hk. vm_compute in Hk.
    repeat (apply elem_of_cons in Hk as [->|Hk]; [discriminate|]).
    by apply elem_of_nil in Hk.
Qed.

Lemma swapOutLRUPage_evicts_least_recent_witness :
  wellKeyed (pageTable (stored2x2 2 tickingClock)) /\
  ((forall k p, (k, p) ∈ pageTable (stored2x2 2 tickingClock) ->
                status p = inactive) /\
   swapOutLRUPage onePixel (stored2x2 2 tickingClock)
     = stored2x2 2 tickingClock
   \/ exists i k p,
        isVictim (pageTable (stored2x2 2 tickingClock)) i k p /\
        pageTable (swapOutLRUPage onePixel (stored2x2 2 tickingClock))
          = <[i := (k, evicted p)]> (pageTable (stored2x2 2 tickingClock)) /\
        trace (swapOutLRUPage onePixel (stored2x2 2 tickingClock))
          = trace (stored2x2 2 tickingClock) ++ [PageSwappedOut k]).
Proof.
  split; [exact wellKeyed_stored2x2|].
  exact (proj1 swapOutLRUPage_evicts_least_recent onePixel
               (stored2x2 2 tickingClock) wellKeyed_stored2x2).
Defined.

(** *** Unknown pages *)

Section Unknown.

Variables memoryLimit pageSize : Q.
Variable now : nat -> Z.

Lemma swapInPage_unknown s pageId :
  mapGet pageId (pageTable s) = None ->
  exists s1,
    (s1 = s \/ s1 = swapOutLRUPage pageSize s) /\
    mapGet pageId (pageTable s1) = None /\
    swapInPage memoryLimit pageSize now s pageId
      = emit s1 (ConsoleError pageId).
Proof.
  intros Hget.
  destruct (swapInPage_room memoryLimit pageSize now s) as (s1 & Hs1 & ->).
  exists s1. split; [done|].
  assert (Hget1 : mapGet pageId (pageTable s1) = None).
  { destruct Hs1 as [->| ->]; [done|]. apply mapGet_None.
    destruct (swapOutLRUPage_frame pageSize s) as (_&_&_&_&_&->).
    by apply mapGet_None. }
  by rewrite Hget1.
Qed.

Lemma processPage_unknown processor out w h adj f rot s pageId :
  mapGet pageId (pageTable s) = None ->
  exists s1,
    (s1 = s \/ s1 = swapOutLRUPage pageSize s) /\
    mapGet pageId (pageTable s1) = None /\
    processPage memoryLimit pageSize now processor out w h adj f rot s pageId
      = withStats (emit s1 (ConsoleError pageId)) (afterFault (stats s1)).
Proof.
  intros Hget.
  destruct (swapInPage_unknown s pageId Hget) as (s1 & Hs1 & Hget1 & Hsw).
  exists s1. split; [done|]. split; [done|].
  unfold processPage, ensureResident. rewrite Hget, Hsw.
  unfold transformPage. simpl. by rewrite Hget1.
Qed.

End Unknown.

(** C9, as stated, fails: a run that asks for [page_7], which the table
    does not have, is not aborted.  The round counts a fault and logs to the
    console, the next page is still processed, and the output holds the
    bytes of the pages that were found. *)
Lemma unknown_page_does_not_abort :
  arr (mem runWithUnknownPage) 5%nat
    = [1; 2; 3; 4; 5; 6; 7; 8; 0; 0; 0; 0; 0; 0; 0; 0] /\
  newEvents (stored2x2 100 tickingClock) runWithUnknownPage
    = [ConsoleError "page_7"] /\
  pageFaults (stats runWithUnknownPage) = 1 /\
  pageHits (stats runWithUnknownPage) = 2.
Proof. repeat split; vm_compute; reflexivity. Qed.

(** C9 (amended).  When the page asked for is not in the page table, the
    round counts a page fault, writes one [console.error] and ends: no error
    event is emitted, no array is written (the bytes of the output stay as
    they were), and the loop goes on with the next page id.  A run with an
    image and a registered processor always returns its output image. *)
Theorem unknown_page_is_skipped (memoryLimit pageSize : Q) (now : nat -> Z)
    (processor : chunkProcessor) (outputData : loc) (width height : Z)
    (adj : adjustments) (filter : string) (rotation : Z)
    (s : state) (pageId : string) (rest : list string) :
  mapGet pageId (pageTable s) = None ->
  let round :=
    processPage memoryLimit pageSize now processor outputData width height
                adj filter rotation in
  mem (round s pageId) = mem s /\
  last (trace (round s pageId)) = Some (ConsoleError pageId) /\
  pageFaults (stats (round s pageId)) = pageFaults (stats s) + 1 /\
  pageHits (stats (round s pageId)) = pageHits (stats s) /\
  mapGet pageId (pageTable (round s pageId)) = None /\
  processPages memoryLimit pageSize now processor outputData width height
               adj filter rotation s (pageId :: rest)
    = processPages memoryLimit pageSize now processor outputData width
                   height adj filter rotation (round s pageId) rest /\
  forall img,
    processChunkFn s = Some processor ->
    exists s' w' h',
      processImageChunks memoryLimit pageSize now s (Some img) adj filter
                         rotation
      = (s', Some (ImageData.mk w' h' (length (mem s)))).
Proof.
  intros Hget round. subst round.
  assert (Hrun : forall img,
    processChunkFn s = Some processor ->
    exists s' w' h',
      processImageChunks memoryLimit pageSize now s (Some img) adj filter
                         rotation
      = (s', Some (ImageData.mk w' h' (length (mem s))))).
  { intros img Hfn. unfold processImageChunks. rewrite Hfn.
    destruct (Z.rem rotation 180 =? 0); simpl; eauto. }
  destruct (processPage_unknown memoryLimit pageSize now processor
              outputData width height adj filter rotation s pageId Hget)
    as (s1 & Hs1 & Hget1 & Heq).
  assert (Hfr : mem s1 = mem s /\
                pageHits (stats s1) = pageHits (stats s) /\
                pageFaults (stats s1) = pageFaults (stats s)).
  { destruct Hs1 as [->| ->]; [done|].
    destruct (swapOutLRUPage_frame pageSize s) as (?&_&_&?&?&_). done. }
  destruct Hfr as (Hm & Hh & Hf).
  split; [by rewrite Heq|].
  split; [rewrite Heq; simpl; by rewrite last_snoc|].
  split; [rewrite Heq; simpl; by rewrite Hf|].
  split; [rewrite Heq; simpl; by rewrite Hh|].
  split; [by rewrite Heq|].
  split; [reflexivity|exact Hrun].
Qed.

Lemma unknown_page_is_skipped_witness :
  mapGet "page_7" (pageTable (stored2x2 100 tickingClock)) = None /\
  last (trace (processPage (100 * onePixel) onePixel tickingClock
                 processChunk 5%nat 2 2 noAdjustments "none" 0
                 (stored2x2 100 tickingClock) "page_7"))
  = Some (ConsoleError "page_7").
Proof.
  assert (Hget : mapGet "page_7" (pageTable (stored2x2 100 tickingClock))
                 = None) by (vm_compute; reflexivity).
  split; [exact Hget|].
  exact (proj1 (proj2 (unknown_page_is_skipped (100 * onePixel) onePixel
                         tickingClock processChunk 5%nat 2 2 noAdjustments
                         "none" 0 (stored2x2 100 tickingClock) "page_7" []
                         Hget))).
Defined.

(* ================================================================== *)
(** ** The chunk processor *)
(* ================================================================== *)

Lemma alter_snoc {A} (f : A -> A) (l : list A) (x : A) :
  alter f (length l) (l ++ [x]) = l ++ [f x].
Proof.
  replace (length l) with (length l + 0)%nat at 1 by lia.
  by rewrite alter_app_r.
Qed.

Lemma arr_snoc (h : heap) (a : bytes) : arr (h ++ [a]) (length h) = a.
Proof. unfold arr. by rewrite list_lookup_middle. Qed.

Lemma arr_app_l (h h' : heap) l :
  (l < length h)%nat -> arr (h ++ h') l = arr h l.
Proof. intros Hl. unfold arr. by rewrite lookup_app_l. Qed.

(** [processChunk] allocates one array, the processed copy of the chunk,
    and changes nothing else. *)
Lemma processChunk_spec h chunkData adj filter :
  processChunk h chunkData adj filter
  = (h ++ [processedBytes adj filter (arr h chunkData)], length h).
Proof.
  unfold processChunk, alloc, processedBytes.
  unfold applyBrightness, applyContrast, applyFilter, filterLoop,
    applyGrayscale, applySepia, applyInvert.
  f_equal.
  destruct (brightness adj =? 0), (contrast adj =? 0),
    (String.eqb filter "grayscale"), (String.eqb filter "sepia"),
    (String.eqb filter "invert");
    rewrite ?alter_snoc; reflexivity.
Qed.


(* ================================================================== *)
(** ** What a transform run leaves unchanged *)
(* ================================================================== *)

Lemma extendsExcept_refl out h : extendsExcept out h h.
Proof. split; [lia|done]. Qed.

Lemma extendsExcept_trans out h1 h2 h3 :
  extendsExcept out h1 h2 -> extendsExcept out h2 h3 ->
  extendsExcept out h1 h3.
Proof.
  intros [Hl1 H1] [Hl2 H2]. split; [lia|].
  intros l Hne Hl. rewrite H2 by (done || lia). by apply H1.
Qed.

Lemma extendsExcept_snoc out (h : heap) (a : bytes) :
  extendsExcept out h (h ++ [a]).
Proof.
  split; [rewrite length_app; lia|].
  intros l _ Hl. by rewrite lookup_app_l.
Qed.

Lemma extendsExcept_hwrite out h i v : extendsExcept out h (hwrite h out i v).
Proof.
  unfold hwrite. split; [by rewrite length_alter|].
  intros l Hne _. by rewrite list_lookup_alter_ne.
Qed.

Lemma extendsExcept_foldl {A} out (step : heap -> A -> heap) (xs : list A) :
  (forall h x, extendsExcept out h (step h x)) ->
  forall h, extendsExcept out h (foldl step h xs).
Proof.
  intros Hstep. induction xs as [|x xs IH]; intros h; simpl.
  - apply extendsExcept_refl.
  - eapply extendsExcept_trans; [apply Hstep|apply IH].
Qed.

(** [applyChunkToOutput] writes to the output array only. *)
Lemma applyChunkToOutput_frame h chunkData out p w hgt rot :
  extendsExcept out h (applyChunkToOutput h chunkData out p w hgt rot).
Proof.
  unfold applyChunkToOutput.
  destruct (rot =? 0).
  - apply extendsExcept_foldl. intros h' i. apply extendsExcept_hwrite.
  - destruct (w =? 0); [apply extendsExcept_refl|].
    apply extendsExcept_foldl. intros h' i. unfold rotateStep.
    repeat (eapply extendsExcept_trans; [|apply extendsExcept_hwrite]).
    apply extendsExcept_refl.
Qed.

Lemma keepsPage_refl pageId d s : keepsPage pageId d s s.
Proof. exists []. rewrite app_nil_r. auto. Qed.

Lemma keepsPage_trans pageId d s1 s2 s3 :
  keepsPage pageId d s1 s2 -> keepsPage pageId d s2 s3 ->
  keepsPage pageId d s1 s3.
Proof.
  intros (e1 & Ht1 & H1) (e2 & Ht2 & H2). exists (e1 ++ e2).
  split; [by rewrite Ht2, Ht1, app_assoc|].
  intros Hr. rewrite elem_of_app.
  destruct (H1 Hr) as [Hr2|?]; [|by auto].
  destruct (H2 Hr2); auto.
Qed.

(** A change of the state that touches neither the trace nor the data and
    status of the pages keeps every page. *)
Lemma keepsPage_same pageId d s s' :
  trace s' = trace s ->
  (residentAt s pageId d -> residentAt s' pageId d) ->
  keepsPage pageId d s s'.
Proof.
  intros Ht Hr. exists []. rewrite app_nil_r. auto.
Qed.

Lemma residentAt_touched s pageId d k t m' :
  residentAt s pageId d ->
  m' = mapUpdate k (touched t) (pageTable s) ->
  exists p, mapGet pageId m' = Some p /\ data p = Some d /\ status p = active.
Proof.
  intros (p & Hget & Hd & Hs) ->.
  destruct (decide (k = pageId)) as [->|Hne].
  - exists (touched t p). by rewrite mapGet_mapUpdate_eq, Hget.
  - exists p. by rewrite mapGet_mapUpdate_ne.
Qed.

Section Frame.

Variables memoryLimit pageSize : Q.
Variable now : nat -> Z.

Lemma swapOutLRUPage_keeps pageId d s :
  keepsPage pageId d s (swapOutLRUPage pageSize s).
Proof.
  destruct (swapOutLRUPage_trace pageSize s) as [Ht|(k & _ & Hm & Ht)].
  - unfold swapOutLRUPage in *.
    destruct (findLRU (pageTable s)) as [k|]; [|apply keepsPage_refl].
    destruct (truthy k); [|apply keepsPage_refl].
    simpl in Ht. exfalso. apply (f_equal length) in Ht.
    rewrite length_app in Ht. simpl in Ht. lia.
  - exists [PageSwappedOut k]. split; [done|].
    intros (p & Hget & Hd & Hs).
    destruct (decide (k = pageId)) as [->|Hne].
    + right. apply list_elem_of_here.
    + left. exists p. by rewrite Hm, mapGet_mapUpdate_ne.
Qed.

Lemma swapInPage_keeps pageId d s k :
  keepsPage pageId d s (swapInPage memoryLimit pageSize now s k).
Proof.
  destruct (swapInPage_room memoryLimit pageSize now s) as (s1 & Hs1 & ->).
  apply keepsPage_trans with s1.
  { destruct Hs1 as [->| ->];
      [apply keepsPage_refl|apply swapOutLRUPage_keeps]. }
  destruct (mapGet k (pageTable s1)) as [p|] eqn:Hk.
  - destruct (status p) eqn:Hp.
    + apply keepsPage_same; [done|]. intros Hr. simpl.
      by eapply residentAt_touched.
    + exists [PageSwappedIn k]. split; [done|].
      intros (q & Hget & Hd & Hs). left.
      assert (Hne : k <> pageId) by (intros ->; congruence).
      exists q. simpl. by rewrite !mapGet_mapUpdate_ne.
  - exists [ConsoleError k]. split; [done|]. intros Hr. by left.
Qed.

Lemma ensureResident_keeps pageId d s k :
  keepsPage pageId d s (ensureResident memoryLimit pageSize now s k).
Proof.
  unfold ensureResident.
  assert (Hfault :
    keepsPage pageId d s
      (withStats (swapInPage memoryLimit pageSize now s k)
         (afterFault (stats (swapInPage memoryLimit pageSize now s k))))).
  { eapply keepsPage_trans; [apply swapInPage_keeps|].
    by apply keepsPage_same. }
  destruct (mapGet k (pageTable s)) as [[? [|] ? ? ? ? ?]|]; try done.
  by apply keepsPage_same.
Qed.

Lemma transformPage_keeps processor out w h adj f rot pageId d s k :
  keepsPage pageId d s
    (transformPage now processor out w h adj f rot s k).
Proof.
  unfold transformPage.
  destruct (mapGet k (pageTable s)) as [p|]; [|apply keepsPage_refl].
  destruct (data p) as [dp|]; [|apply keepsPage_refl].
  simpl. destruct (processor _ _ _ _) as [h' r].
  apply keepsPage_same; [done|]. intros Hr. simpl.
  by eapply residentAt_touched.
Qed.

Lemma processPages_keeps processor out w h adj f rot pageId d ids :
  forall s,
    keepsPage pageId d s
      (processPages memoryLimit pageSize now processor out w h adj f rot
                    s ids).
Proof.
  induction ids as [|k ids IH]; intros s; [apply keepsPage_refl|].
  simpl. eapply keepsPage_trans; [|apply IH].
  unfold processPage.
  eapply keepsPage_trans;
    [apply ensureResident_keeps|apply transformPage_keeps].
Qed.

(** *** The heap *)

Lemma swapInPage_mem out s k :
  extendsExcept out (mem s) (mem (swapInPage memoryLimit pageSize now s k)).
Proof.
  destruct (swapInPage_room memoryLimit pageSize now s) as (s1 & Hs1 & ->).
  assert (Hm : mem s1 = mem s).
  { destruct Hs1 as [->| ->]; [done|].
    by destruct (swapOutLRUPage_frame pageSize s) as (-> & _). }
  destruct (mapGet k (pageTable s1)) as [p|].
  - destruct (status p); simpl; rewrite Hm;
      [apply extendsExcept_refl|apply extendsExcept_snoc].
  - simpl. rewrite Hm. apply extendsExcept_refl.
Qed.

Lemma processPage_mem out w h adj f rot s k :
  extendsExcept out (mem s)
    (mem (processPage memoryLimit pageSize now processChunk out w h adj f
                      rot s k)).
Proof.
  unfold processPage.
  apply extendsExcept_trans
    with (mem (ensureResident memoryLimit pageSize now s k)).
  { unfold ensureResident.
    destruct (mapGet k (pageTable s)) as [[? [|] ? ? ? ? ?]|]; simpl;
      try apply swapInPage_mem. apply extendsExcept_refl. }
  generalize (ensureResident memoryLimit pageSize now s k). intros s1.
  unfold transformPage.
  destruct (mapGet k (pageTable s1)) as [p|]; [|apply extendsExcept_refl].
  destruct (data p) as [dp|]; [|apply extendsExcept_refl].
  cbn -[processChunk applyChunkToOutput]. rewrite processChunk_spec.
  cbn -[applyChunkToOutput].
  eapply extendsExcept_trans;
    [apply extendsExcept_snoc|apply applyChunkToOutput_frame].
Qed.

Lemma processPages_mem out w h adj f rot ids :
  forall s,
    extendsExcept out (mem s)
      (mem (processPages memoryLimit pageSize now processChunk out w h adj
                         f rot s ids)).
Proof.
  induction ids as [|k ids IH]; intros s; [apply extendsExcept_refl|].
  simpl. eapply extendsExcept_trans; [apply processPage_mem|apply IH].
Qed.

End Frame.

Lemma processedBytes_nil adj filter : processedBytes adj filter [] = [].
Proof.
  unfold processedBytes, filterLoop.
  destruct (brightness adj =? 0), (contrast adj =? 0),
    (String.eqb filter "grayscale"), (String.eqb filter "sepia"),
    (String.eqb filter "invert"); reflexivity.
Qed.

(** C10.  [processChunk] does not write to its input: it returns a newly
    allocated array, and every array that existed before the call, the
    input chunk among them, has the bytes it had.  Consequently a transform
    run changes no array that existed before it, and a page that was
    resident when the run began still has its data afterwards, unless the
    run swapped it out. *)
Theorem processChunk_preserves_input :
  (forall h chunkData adj filter,
     let r := processChunk h chunkData adj filter in
     snd r = length h /\ h !! snd r = None /\
     length (fst r) = S (length h) /\
     (forall l, (l < length h)%nat -> fst r !! l = h !! l) /\
     arr (fst r) chunkData = arr h chunkData /\
     arr (fst r) (snd r) = processedBytes adj filter (arr h chunkData)) /\
  (forall memoryLimit pageSize now s img adj filter rotation,
     processChunkFn s = Some processChunk ->
     let s' :=
       fst (processImageChunks memoryLimit pageSize now s (Some img) adj
                               filter rotation) in
     (forall l, (l < length (mem s))%nat -> mem s' !! l = mem s !! l) /\
     (forall pageId d,
        residentAt s pageId d ->
        PageSwappedOut pageId ∉ newEvents s s' ->
        residentAt s' pageId d /\
        ((d < length (mem s))%nat -> arr (mem s') d = arr (mem s) d))).
Proof.
  split.
  - intros h chunkData adj filter r. subst r. rewrite processChunk_spec.
    simpl. split; [done|]. split; [by apply lookup_ge_None_2|].
    split; [rewrite length_app; simpl; lia|].
    split; [intros l Hl; by rewrite lookup_app_l|].
    split; [|apply arr_snoc].
    unfold arr. destruct (decide (chunkData < length h)%nat) as [Hl|Hl].
    + by rewrite lookup_app_l.
    + rewrite (lookup_ge_None_2 h) by lia.
      destruct (decide (chunkData = length h)) as [->|Hne].
      * rewrite list_lookup_middle by done. simpl.
        apply processedBytes_nil.
      * rewrite lookup_ge_None_2; [done|]. rewrite length_app. simpl. lia.
  - intros memoryLimit pageSize now s img adj filter rotation Hfn s'.
    subst s'. unfold processImageChunks. rewrite Hfn.
    destruct (if Z.rem rotation 180 =? 0 then _ else _) as [nw nh].
    cbn [alloc fst].
    set (s1 := withMem s (mem s ++ [zeros (nw * nh * 4)])).
    set (s2 := processPages _ _ _ _ _ _ _ _ _ _ s1 _).
    assert (Hmem : forall l, (l < length (mem s))%nat ->
                     mem (updateMemoryStats s2) !! l = mem s !! l).
    { intros l Hl. simpl.
      pose proof (processPages_mem memoryLimit pageSize now (length (mem s))
                    (ImageData.width img) (ImageData.height img) adj filter
                    rotation (mapKeys (pageTable s1)) s1) as [_ Hext].
      fold s2 in Hext. rewrite Hext.
      - simpl. by rewrite lookup_app_l.
      - lia.
      - simpl. rewrite length_app. lia. }
    split; [exact Hmem|].
    intros pageId d Hres Hnot.
    destruct (processPages_keeps memoryLimit pageSize now processChunk
                (length (mem s)) (ImageData.width img)
                (ImageData.height img) adj filter rotation pageId d
                (mapKeys (pageTable s1)) s1) as (evs & Ht & Hk).
    fold s2 in Ht, Hk.
    assert (Hnew : newEvents s (updateMemoryStats s2)
                   = evs ++ [StatsUpdated (stats s2)]).
    { unfold newEvents, updateMemoryStats, emit, getMemoryStats. simpl.
      rewrite Ht. simpl. rewrite <- app_assoc. by rewrite drop_app_length. }
    rewrite Hnew in Hnot.
    destruct (Hk Hres) as [Hr|Hin].
    + split; [exact Hr|]. intros Hd. unfold arr. by rewrite Hmem.
    + exfalso. apply Hnot. apply elem_of_app. by left.
Qed.

(* ================================================================== *)
(** ** The rotation by a quarter turn *)
(* ================================================================== *)

Lemma coordinates w p :
  0 < w -> 0 <= p ->
  p = (p / w) * w + p mod w /\ 0 <= p mod w < w /\ 0 <= p / w.
Proof.
  intros Hw Hp. split; [|split].
  - rewrite Z.mul_comm. apply Z.div_mod. lia.
  - by apply Z.mod_pos_bound.
  - apply Z.div_pos; lia.
Qed.

Lemma row_bound w h p : 0 < w -> 0 <= p < w * h -> p / w < h.
Proof. intros Hw Hp. apply Z.div_lt_upper_bound; lia. Qed.

(** In coordinates: the pixel at column [x] and row [y] of an image of
    width [w] and height [h] goes to column [h - 1 - y] and row [x] of an
    image of width [h]. *)
Lemma rotatedIndex_90 w h x y :
  0 <= x < w -> 0 <= y ->
  rotatedIndex w h 90 (y * w + x) = x * h + (h - 1 - y).
Proof.
  intros Hx Hy.
  assert (Hrem : Z.rem (y * w + x) w = x).
  { rewrite Z.rem_mod_nonneg by nia.
    rewrite Z.add_comm, Z.mod_add by lia. apply Z.mod_small. lia. }
  assert (Hdiv : (y * w + x) / w = y).
  { rewrite Z.add_comm, Z.div_add by lia. rewrite Z.div_small by lia. lia. }
  unfold rotatedIndex. rewrite Hrem, Hdiv. reflexivity.
Qed.

Lemma rotatedIndex_90_coords w h p :
  0 < w -> 0 <= p ->
  rotatedIndex w h 90 p = (p mod w) * h + (h - 1 - p / w).
Proof.
  intros Hw Hp. destruct (coordinates w p Hw Hp) as (Heq & Hx & Hy).
  rewrite Heq at 1. by apply rotatedIndex_90.
Qed.

Lemma rotatedIndex_90_range w h p :
  0 < w -> 0 < h -> 0 <= p < w * h ->
  0 <= rotatedIndex w h 90 p < h * w.
Proof.
  intros Hw Hh Hp. rewrite rotatedIndex_90_coords by lia.
  destruct (coordinates w p Hw ltac:(lia)) as (_ & Hx & Hy).
  pose proof (row_bound w h p Hw Hp). nia.
Qed.

Lemma rotatedIndex_90_inj w h p q :
  0 < w -> 0 < h -> 0 <= p < w * h -> 0 <= q < w * h ->
  rotatedIndex w h 90 p = rotatedIndex w h 90 q -> p = q.
Proof.
  intros Hw Hh Hp Hq. rewrite !rotatedIndex_90_coords by lia.
  destruct (coordinates w p Hw ltac:(lia)) as (Hpe & Hpx & Hpy).
  destruct (coordinates w q Hw ltac:(lia)) as (Hqe & Hqx & Hqy).
  pose proof (row_bound w h p Hw Hp). pose proof (row_bound w h q Hw Hq).
  intros Heq.
  assert (p mod w = q mod w) by nia.
  assert (p / w = q / w) by nia.
  lia.
Qed.

(** Two quarter turns are a half turn, four are the identity. *)
Lemma rotatedIndex_90_twice w h p :
  0 < w -> 0 < h -> 0 <= p < w * h ->
  rotatedIndex h w 90 (rotatedIndex w h 90 p)
  = (h - 1 - p / w) * w + (w - 1 - p mod w).
Proof.
  intros Hw Hh Hp.
  destruct (coordinates w p Hw ltac:(lia)) as (_ & Hx & Hy).
  pose proof (row_bound w h p Hw Hp).
  rewrite (rotatedIndex_90_coords w h p) by lia.
  rewrite rotatedIndex_90 by lia. lia.
Qed.

Lemma rotatedIndex_90_four_times w h p :
  0 < w -> 0 < h -> 0 <= p < w * h ->
  rotatedIndex h w 90
    (rotatedIndex w h 90 (rotatedIndex h w 90 (rotatedIndex w h 90 p)))
  = p.
Proof.
  intros Hw Hh Hp.
  destruct (coordinates w p Hw ltac:(lia)) as (Heq & Hx & Hy).
  pose proof (row_bound w h p Hw Hp).
  rewrite (rotatedIndex_90_twice w h p) by lia.
  rewrite (rotatedIndex_90 w h (w - 1 - p mod w) (h - 1 - p / w)) by lia.
  rewrite (rotatedIndex_90 h w (h - 1 - (h - 1 - p / w)) (w - 1 - p mod w))
    by lia.
  lia.
Qed.

(** *** Bytes *)

Lemma toUint8Clamp_range v : inRange (toUint8Clamp v).
Proof.
  unfold inRange, toUint8Clamp. destruct v as [q| | |]; try lia.
  destruct (Qle_bool q 0) eqn:H0; [lia|].
  destruct (Qle_bool 255 q) eqn:H255; [lia|].
  assert (Hlo : (0 <= q)%Q).
  { apply Qnot_lt_le. intros Hlt. apply Qlt_le_weak in Hlt.
    apply Qle_bool_iff in Hlt. congruence. }
  assert (Hhi : (q < 255)%Q).
  { apply Qnot_le_lt. intros Hle. apply Qle_bool_iff in Hle. congruence. }
  assert (Hf0 : 0 <= Qfloor q).
  { change 0 with (Qfloor 0). by apply Qfloor_resp_le. }
  assert (Hf1 : Qfloor q < 255).
  { apply Qlt_le_weak in Hhi as Hle.
    pose proof (Qfloor_le q) as Hfl.
    assert (Hlt : (inject_Z (Qfloor q) < inject_Z 255)%Q)
      by (eapply Qle_lt_trans; [exact Hfl|exact Hhi]).
    by rewrite <- Zlt_Qlt in Hlt. }
  cbv zeta.
  destruct (q - inject_Z (Qfloor q) ?= 1 # 2)%Q; [destruct (Z.even _)| |];
    lia.
Qed.

Lemma toUint8Clamp_ofZ b : inRange b -> toUint8Clamp (ofZ b) = b.
Proof.
  intros [Hlo Hhi]. unfold toUint8Clamp, ofZ.
  destruct (Qle_bool (inject_Z b) 0) eqn:H0.
  { apply Qle_bool_iff in H0. change 0%Q with (inject_Z 0) in H0.
    rewrite <- Zle_Qle in H0. lia. }
  destruct (Qle_bool 255 (inject_Z b)) eqn:H255.
  { apply Qle_bool_iff in H255. change 255%Q with (inject_Z 255) in H255.
    rewrite <- Zle_Qle in H255. lia. }
  cbv zeta. rewrite Qfloor_Z.
  assert (Hlt : (inject_Z b - inject_Z b ?= 1 # 2)%Q = Lt).
  { unfold Qcompare, Qminus, Qplus, Qopp, inject_Z. cbn.
    apply Z.compare_lt_iff. lia. }
  by rewrite Hlt.
Qed.

Lemma rd_lookup (a : bytes) z b :
  0 <= z -> a !! Z.to_nat z = Some b -> rd a z = ofZ b.
Proof.
  intros Hz Hb. unfold rd. destruct (Z.ltb_spec z 0); [lia|].
  by rewrite Hb.
Qed.

Lemma wr_insert (o : bytes) z v :
  0 <= z -> wr o z v = <[Z.to_nat z := toUint8Clamp v]> o.
Proof. intros Hz. unfold wr. destruct (Z.ltb_spec z 0); [lia|done]. Qed.

Lemma length_wr (o : bytes) z v : length (wr o z v) = length o.
Proof. unfold wr. destruct (z <? 0); [done|]. apply length_insert. Qed.

Lemma Forall_wr (o : bytes) z v :
  Forall inRange o -> Forall inRange (wr o z v).
Proof.
  intros Ho. unfold wr. destruct (z <? 0); [done|].
  destruct (decide (Z.to_nat z < length o)%nat) as [Hl|Hl].
  - apply Forall_insert; [done|apply toUint8Clamp_range].
  - rewrite list_insert_ge by lia. done.
Qed.

Lemma length_placePixel chunk sp w h rot o i :
  length (placePixel chunk sp w h rot o i) = length o.
Proof. unfold placePixel. by rewrite !length_wr. Qed.

Lemma Forall_placePixel chunk sp w h rot o i :
  Forall inRange o -> Forall inRange (placePixel chunk sp w h rot o i).
Proof. intros Ho. unfold placePixel. by repeat apply Forall_wr. Qed.

(** The four stores of one pixel, read back. *)
Lemma placePixel_lookup chunk sp w h rot (o : bytes) i base :
  base = rotatedIndex w h rot (sp + Z.of_nat i) * 4 ->
  0 <= base -> (Z.to_nat base + 4 <= length o)%nat ->
  forall j : nat,
    placePixel chunk sp w h rot o i !! j =
      if decide (Z.to_nat base <= j < Z.to_nat base + 4)%nat
      then Some (toUint8Clamp
                   (rd chunk (Z.of_nat i * 4
                              + Z.of_nat (j - Z.to_nat base))))
      else o !! j.
Proof.
  intros Hbase H0 Hlen j. unfold placePixel. rewrite <- Hbase.
  rewrite !wr_insert by lia.
  replace (Z.to_nat (base + 1)) with (Z.to_nat base + 1)%nat by lia.
  replace (Z.to_nat (base + 2)) with (Z.to_nat base + 2)%nat by lia.
  replace (Z.to_nat (base + 3)) with (Z.to_nat base + 3)%nat by lia.
  set (b := Z.to_nat base) in *.
  destruct (decide (b <= j < b + 4)%nat) as [Hin|Hout].
  - destruct (decide (j = b + 3)%nat) as [->|H3].
    { rewrite list_lookup_insert_eq by (rewrite !length_insert; lia).
      do 3 f_equal. lia. }
    rewrite list_lookup_insert_ne by lia.
    destruct (decide (j = b + 2)%nat) as [->|H2].
    { rewrite list_lookup_insert_eq by (rewrite !length_insert; lia).
      do 3 f_equal. lia. }
    rewrite list_lookup_insert_ne by lia.
    destruct (decide (j = b + 1)%nat) as [->|H1].
    { rewrite list_lookup_insert_eq by (rewrite !length_insert; lia).
      do 3 f_equal. lia. }
    rewrite list_lookup_insert_ne by lia.
    assert (j = b) as -> by lia.
    rewrite list_lookup_insert_eq by lia. do 3 f_equal. lia.
  - rewrite !list_lookup_insert_ne by lia. done.
Qed.

Section Placing.

Variables w h : Z.
Hypothesis Hw : 0 < w.
Hypothesis Hh : 0 < h.
Variables source chunk : bytes.
Variable sp : Z.
Hypothesis Hsp : 0 <= sp.
Hypothesis Hsource : Forall inRange source.

Local Abbreviation chunkAgrees := (chunkAgrees source chunk sp).

Lemma placePixel_Placed (o : bytes) (i : nat) :
  sp + Z.of_nat i < w * h ->
  Z.of_nat (length o) = w * h * 4 ->
  length source = length o ->
  chunkAgrees i ->
  Placed w h source o (sp + Z.of_nat i) ->
  Placed w h source (placePixel chunk sp w h 90 o i) (sp + Z.of_nat i + 1).
Proof.
  intros Hp Hlen Hsl Hagree Hplaced q c Hq Hc.
  pose proof (rotatedIndex_90_range w h (sp + Z.of_nat i) Hw Hh
                ltac:(lia)) as Hr.
  rewrite (placePixel_lookup chunk sp w h 90 o i
             (rotatedIndex w h 90 (sp + Z.of_nat i) * 4)) by (done || lia).
  destruct (decide (q = sp + Z.of_nat i)) as [->|Hne].
  - destruct (decide _) as [_|Hn]; [|lia].
    replace (Z.of_nat
               (Z.to_nat (rotatedIndex w h 90 (sp + Z.of_nat i) * 4 + c)
                - Z.to_nat (rotatedIndex w h 90 (sp + Z.of_nat i) * 4)))
      with c by lia.
    assert (Hsome : is_Some (source !! Z.to_nat ((sp + Z.of_nat i) * 4 + c))).
    { apply lookup_lt_is_Some. lia. }
    destruct Hsome as [b Hb]. rewrite Hb.
    pose proof (Hagree c Hc) as Hcb. rewrite Hb in Hcb.
    rewrite (rd_lookup chunk _ b) by (done || lia).
    rewrite toUint8Clamp_ofZ; [done|].
    eapply Forall_lookup_1 in Hsource; [exact Hsource|exact Hb].
  - assert (Hrq : rotatedIndex w h 90 q
                  <> rotatedIndex w h 90 (sp + Z.of_nat i)).
    { intros Heq. apply Hne.
      eapply (rotatedIndex_90_inj w h); eauto; lia. }
    pose proof (rotatedIndex_90_range w h q Hw Hh ltac:(lia)) as Hrq2.
    destruct (decide _) as [Hin|_]; [lia|].
    apply Hplaced; lia.
Qed.

Lemma foldl_placePixel_Placed (m : nat) : forall o : bytes,
  sp + Z.of_nat m <= w * h ->
  Z.of_nat (length o) = w * h * 4 ->
  length source = length o ->
  (forall i, (i < m)%nat -> chunkAgrees i) ->
  Placed w h source o sp ->
  Placed w h source (foldl (placePixel chunk sp w h 90) o (seq 0 m))
         (sp + Z.of_nat m).
Proof.
  induction m as [|m IH]; intros o Hm Hlen Hsl Hagree Hplaced.
  - simpl. by rewrite Z.add_0_r.
  - rewrite seq_S, foldl_app. simpl.
    replace (sp + Z.of_nat (S m)) with (sp + Z.of_nat m + 1) by lia.
    assert (Hlen' : forall o' : bytes,
              o' = foldl (placePixel chunk sp w h 90) o (seq 0 m) ->
              length o' = length o).
    { intros o' ->. clear. generalize (seq 0 m). intros l. revert o.
      induction l as [|x l IHl]; intros o; [done|]. simpl.
      by rewrite IHl, length_placePixel. }
    apply placePixel_Placed.
    + lia.
    + rewrite (Hlen' _ eq_refl). done.
    + rewrite (Hlen' _ eq_refl). done.
    + apply Hagree. lia.
    + apply IH; try done; [lia|]. intros i Hi. apply Hagree. lia.
Qed.

End Placing.

(** *** From the heap to the contents of the output *)

Lemma arr_hwrite_eq h out i v : arr (hwrite h out i v) out = wr (arr h out) i v.
Proof.
  unfold arr, hwrite. rewrite list_lookup_alter_eq.
  destruct (h !! out) as [a|]; simpl; [done|].
  unfold wr. destruct (i <? 0); [done|]. by rewrite list_insert_ge by (simpl; lia).
Qed.

Lemma arr_hwrite_ne h out c i v :
  c <> out -> arr (hwrite h out i v) c = arr h c.
Proof. intros Hne. unfold arr, hwrite. by rewrite list_lookup_alter_ne. Qed.

Lemma rotateStep_pure h c out sp w hg rot i :
  c <> out ->
  arr (rotateStep c out sp w hg rot h i) out
    = placePixel (arr h c) sp w hg rot (arr h out) i /\
  arr (rotateStep c out sp w hg rot h i) c = arr h c.
Proof.
  intros Hne. unfold rotateStep, placePixel, hread. cbv zeta.
  rewrite !arr_hwrite_eq, !arr_hwrite_ne by done. done.
Qed.

Lemma foldl_rotateStep_pure c out sp w hg rot (l : list nat) :
  c <> out ->
  forall h,
    arr (foldl (rotateStep c out sp w hg rot) h l) out
    = foldl (placePixel (arr h c) sp w hg rot) (arr h out) l.
Proof.
  intros Hne. induction l as [|i l IH]; intros h; [done|]. simpl.
  destruct (rotateStep_pure h c out sp w hg rot i Hne) as [Ho Hc].
  by rewrite IH, Ho, Hc.
Qed.

Lemma length_foldl_placePixel chunk sp w h rot (l : list nat) :
  forall o : bytes,
    length (foldl (placePixel chunk sp w h rot) o l) = length o.
Proof.
  induction l as [|i l IH]; intros o; [done|]. simpl.
  by rewrite IH, length_placePixel.
Qed.

Lemma Forall_foldl_placePixel chunk sp w h rot (l : list nat) :
  forall o : bytes,
    Forall inRange o ->
    Forall inRange (foldl (placePixel chunk sp w h rot) o l).
Proof.
  induction l as [|i l IH]; intros o Ho; [done|]. simpl.
  apply IH. by apply Forall_placePixel.
Qed.

(** *** Slices *)

Lemma slice_inside (a : bytes) s e :
  0 <= s <= e -> e <= Z.of_nat (length a) ->
  slice a s e = take (Z.to_nat (e - s)) (drop (Z.to_nat s) a).
Proof.
  intros Hs He. unfold slice, sliceBound.
  destruct (Z.ltb_spec s 0); [lia|]. destruct (Z.ltb_spec e 0); [lia|].
  by rewrite !Z.min_l by lia.
Qed.

Lemma length_slice (a : bytes) s e :
  0 <= s <= e -> e <= Z.of_nat (length a) ->
  length (slice a s e) = Z.to_nat (e - s).
Proof.
  intros Hs He. rewrite slice_inside by done.
  rewrite length_take, length_drop. lia.
Qed.

Lemma lookup_slice (a : bytes) s e (k : nat) :
  0 <= s <= e -> e <= Z.of_nat (length a) ->
  (k < Z.to_nat (e - s))%nat ->
  slice a s e !! k = a !! (Z.to_nat s + k)%nat.
Proof.
  intros Hs He Hk. rewrite slice_inside by done.
  rewrite lookup_take_lt by done. by rewrite lookup_drop.
Qed.


(* ================================================================== *)
(** ** Runs without a page fault *)
(* ================================================================== *)

(** *** A budget with room for every page *)

Lemma pageSize_pos pageSize : 0 < pixelsPerPage pageSize -> (0 < pageSize)%Q.
Proof.
  intros Hpos. destruct (Qlt_le_dec 0 pageSize) as [H|H]; [done|exfalso].
  assert (Hx : (pageSize * 1024 * 1024 / 4 <= 0)%Q).
  { destruct pageSize as [a b]. unfold Qle in *. simpl in *. lia. }
  apply Qfloor_resp_le in Hx. unfold pixelsPerPage in Hpos.
  change (Qfloor 0) with 0 in Hx. lia.
Qed.

Lemma budgetAfter_mono memoryLimit pageSize i :
  (fst (budgetAfter memoryLimit pageSize i)
   <= fst (budgetAfter memoryLimit pageSize (S i)))%nat.
Proof.
  cbn [budgetAfter].
  destruct (budgetAfter memoryLimit pageSize i) as [k u].
  unfold budgetStep. destruct (gt _ _); cbn [fst]; lia.
Qed.

(** When no page was evicted after [n] admissions, none was evicted
    before. *)
Lemma budgetAfter_enough memoryLimit pageSize n :
  fst (budgetAfter memoryLimit pageSize n) = O ->
  forall i, (i <= n)%nat -> fst (budgetAfter memoryLimit pageSize i) = O.
Proof.
  intros Hn i Hi. induction Hi as [|n Hi IH]; [done|].
  apply IH. pose proof (budgetAfter_mono memoryLimit pageSize n). lia.
Qed.

Lemma picksLowest_enough memoryLimit pageSize now img s0 i :
  enoughMemory memoryLimit pageSize img ->
  (i < pageCount pageSize img)%nat ->
  picksLowest memoryLimit pageSize now img s0 i.
Proof.
  intros [Hpos Hn] Hi. unfold picksLowest.
  pose proof (budgetAfter_enough _ _ _ Hn (S i) ltac:(lia)) as Hk.
  cbn [budgetAfter] in Hk.
  destruct (budgetAfter memoryLimit pageSize i) as [k u].
  unfold budgetStep in Hk.
  destruct (gt (fadd u (toDouble pageSize)) (toDouble memoryLimit));
    [discriminate|]. done.
Qed.

Lemma storedHeap_allocated pageSize img s0 i :
  (ImageData.data img < length (mem s0))%nat ->
  storedHeap pageSize img s0 i
  = mem s0 ++
    map (fun j => slice (arr (mem s0) (ImageData.data img))
                        (pageStart pageSize j * 4)
                        (pageEnd pageSize img j * 4))
        (seq 0 i).
Proof.
  intros Hd. induction i as [|i IH]; [by rewrite app_nil_r|].
  cbn [storedHeap]. rewrite IH at 1. rewrite IH, arr_app_l by done.
  by rewrite seq_S, map_app, app_assoc.
Qed.

(** *** From the heap to the contents of the output, for a whole chunk *)

Lemma copyStep_pure hp c out si i :
  c <> out ->
  arr (copyStep c out si hp i) out = copyByte (arr hp c) si (arr hp out) i /\
  arr (copyStep c out si hp i) c = arr hp c.
Proof.
  intros Hne. unfold copyStep, copyByte, hread.
  by rewrite arr_hwrite_eq, arr_hwrite_ne.
Qed.

Lemma foldl_copyStep_pure c out si (l : list nat) :
  c <> out ->
  forall hp,
    arr (foldl (copyStep c out si) hp l) out
    = foldl (copyByte (arr hp c) si) (arr hp out) l.
Proof.
  intros Hne. induction l as [|i l IH]; intros hp; [done|]. simpl.
  destruct (copyStep_pure hp c out si i Hne) as [Ho Hc].
  by rewrite IH, Ho, Hc.
Qed.

(** [applyChunkToOutput] on the contents of its two arrays. *)
Lemma applyChunkToOutput_pure hp c out p w h rot :
  c <> out ->
  arr (applyChunkToOutput hp c out p w h rot) out
  = chunkOnOutput (arr hp c) (startIndex p) (startPixel p) w h rot
                  (arr hp out).
Proof.
  intros Hne. unfold applyChunkToOutput, chunkOnOutput.
  destruct (rot =? 0); [by apply foldl_copyStep_pure|].
  destruct (w =? 0); [done|]. by apply foldl_rotateStep_pure.
Qed.

(** *** The rounds of a run whose pages are all resident *)

Section ResidentRound.

Variables memoryLimit pageSize : Q.
Variable now : nat -> Z.

Lemma ensureResident_hit s pageId q :
  mapGet pageId (pageTable s) = Some q -> status q = active ->
  ensureResident memoryLimit pageSize now s pageId
  = withStats s (afterHit (stats s)).
Proof.
  intros Hget Hq. unfold ensureResident. rewrite Hget.
  destruct q as [d st t a b c e]. simpl in Hq. by subst st.
Qed.

Lemma transformPage_resident out w h adj filter rot s pageId q d :
  mapGet pageId (pageTable s) = Some q -> data q = Some d ->
  transformPage now processChunk out w h adj filter rot s pageId
  = mkState
      (applyChunkToOutput
         (mem s ++ [processedBytes adj filter (arr (mem s) d)])
         (length (mem s)) out q w h rot)
      (mapUpdate pageId (touched (now (tick s))) (pageTable s))
      (stats s) (processChunkFn s) (S (tick s)) (trace s).
Proof.
  intros Hget Hd. unfold transformPage. rewrite Hget, Hd.
  unfold dateNow. cbn -[processChunk applyChunkToOutput].
  by rewrite processChunk_spec.
Qed.

Variable img : ImageData.t.
Variable s0 : state.
Variable adj : adjustments.
Variable filter : string.
Variable rotation : Z.

Local Abbreviation n := (pageCount pageSize img).
Local Abbreviation out := (length (mem s0) + pageCount pageSize img)%nat.
Local Abbreviation source := (arr (mem s0) (ImageData.data img)).
Local Abbreviation invariant :=
  (residentInvariant pageSize img s0 adj filter rotation).

(** One round of the run adds the chunk of its page to the output. *)
Lemma resident_round j s :
  (j < n)%nat ->
  invariant j s ->
  invariant (S j)
    (processPage memoryLimit pageSize now processChunk out
                 (ImageData.width img) (ImageData.height img)
                 adj filter rotation s (pageKey j)).
Proof.
  intros Hj (Hfn & Hres & Hout & Hchunks & Hrendered).
  destruct (Hres j Hj) as (q & Hget & Hst & Hd & Hsp & Hsi).
  unfold processPage.
  rewrite (ensureResident_hit _ _ q Hget Hst).
  rewrite (transformPage_resident out _ _ adj filter rotation
             (withStats s (afterHit (stats s))) (pageKey j) q
             (length (mem s0) + j)%nat Hget Hd).
  cbn [withStats mem pageTable stats processChunkFn tick trace].
  rewrite (Hchunks j Hj).
  set (chunk := processedBytes adj filter
                  (storedChunk pageSize img source j)).
  set (hF := applyChunkToOutput _ _ _ _ _ _ _).
  assert (Hext : extendsExcept out (mem s ++ [chunk]) hF)
    by apply applyChunkToOutput_frame.
  unfold residentInvariant.
  cbn [mem pageTable stats processChunkFn tick trace].
  split; [exact Hfn|]. split; [|split; [|split]].
  - intros i Hi.
    destruct (Hres i Hi) as (qi & Hgi & Hsti & Hdi & Hpi & Hii).
    destruct (decide (i = j)) as [->|Hne].
    + exists (touched (now (tick s)) qi).
      by rewrite mapGet_mapUpdate_eq, Hgi.
    + exists qi. rewrite mapGet_mapUpdate_ne; [done|].
      intros Heq. apply pageKey_inj in Heq. lia.
  - destruct Hext as [Hl _]. rewrite length_app in Hl. simpl in Hl. lia.
  - intros i Hi. rewrite <- (Hchunks i Hi). destruct Hext as [_ Hx].
    unfold arr at 1. rewrite Hx by (rewrite ?length_app; simpl; lia).
    fold (arr (mem s ++ [chunk]) (length (mem s0) + i)).
    apply arr_app_l. lia.
  - unfold hF. rewrite applyChunkToOutput_pure by lia.
    rewrite arr_snoc, arr_app_l, Hrendered, Hsp, Hsi by lia.
    unfold renderedAfter. by rewrite seq_S, foldl_app.
Qed.

Lemma resident_rounds s :
  invariant 0 s ->
  forall j, (j <= n)%nat ->
    invariant j
      (processPages memoryLimit pageSize now processChunk out
                    (ImageData.width img) (ImageData.height img)
                    adj filter rotation s (map pageKey (seq 0 j))).
Proof.
  intros H0. induction j as [|j IH]; intros Hj; [exact H0|].
  rewrite seq_S, map_app. unfold processPages. rewrite foldl_app.
  simpl. apply resident_round; [lia|]. apply IH. lia.
Qed.

(** Storing an image and running the transform on it, with room in the
    budget for all pages: the run returns a new buffer that holds
    [renderedAfter] all pages. *)
Lemma renderStored_spec :
  processChunkFn s0 = Some processChunk ->
  (ImageData.data img < length (mem s0))%nat ->
  enoughMemory memoryLimit pageSize img ->
  exists s',
    renderStored memoryLimit pageSize now s0 img adj filter rotation
      = (s', Some (ImageData.mk
                     (if Z.rem rotation 180 =? 0
                      then ImageData.width img else ImageData.height img)
                     (if Z.rem rotation 180 =? 0
                      then ImageData.height img else ImageData.width img)
                     out)) /\
    processChunkFn s' = Some processChunk /\
    (out < length (mem s'))%nat /\
    arr (mem s') out
      = renderedAfter pageSize img source adj filter rotation n.
Proof.
  intros Hfn Halloc Henough.
  pose proof Henough as (Hppp & Hroom).
  pose proof (budgetAfter_enough _ _ _ Hroom n (le_n _)) as Hk.
  unfold renderStored.
  rewrite storeImage_stored; [|done|];
    [|intros i Hi; by apply picksLowest_enough].
  set (s1 := updateMemoryStats
               (storedState memoryLimit pageSize now img s0 n)).
  assert (Hmem1 : mem s1 = storedHeap pageSize img s0 n) by done.
  assert (Htab1 : pageTable s1 = storedTable pageSize now img s0 0 n).
  { unfold s1, storedState. simpl. by rewrite Hk. }
  assert (Hfn1 : processChunkFn s1 = Some processChunk) by done.
  unfold processImageChunks. rewrite Hfn1.
  assert (Hzeros :
    (let '(newWidth, newHeight) :=
       if Z.rem rotation 180 =? 0
       then (ImageData.width img, ImageData.height img)
       else (ImageData.height img, ImageData.width img) in
     zeros (newWidth * newHeight * 4)) = zeros (outputLength img rotation)).
  { unfold outputLength. by destruct (Z.rem rotation 180 =? 0). }
  set (zs := zeros (outputLength img rotation)) in *.
  set (s2 := withMem s1 (storedHeap pageSize img s0 n ++ [zs])).
  assert (Hinv0 : invariant 0 s2).
  { unfold residentInvariant. simpl mem. simpl pageTable.
    split; [done|]. split; [|split; [|split]].
    - intros i Hi. exists (storedPage pageSize now img s0 0 i).
      split; [|done].
      change (pageTable s1) with
        (pageTable (storedState memoryLimit pageSize now img s0 n)).
      unfold storedState. simpl pageTable. rewrite Hk.
      eapply mapGet_lookup; [apply storedTable_NoDup|].
      by apply storedTable_lookup.
    - rewrite length_app, storedHeap_length. simpl. lia.
    - intros i Hi. rewrite arr_app_l by (rewrite storedHeap_length; lia).
      rewrite storedHeap_allocated by done. unfold arr.
      rewrite lookup_app_r by lia.
      replace (length (mem s0) + i - length (mem s0))%nat with i by lia.
      rewrite list_lookup_fmap, lookup_seq_lt by done. done.
    - by rewrite <- (storedHeap_length pageSize img s0 n), arr_snoc. }
  pose proof (resident_rounds s2 Hinv0 n (le_n _))
    as (Hfn3 & _ & Hout & _ & Hrendered).
  destruct (Z.rem rotation 180 =? 0);
    unfold alloc; cbv iota beta zeta;
    match goal with
    | |- context [mapKeys (pageTable (withMem s1 ?m))] =>
        change (mapKeys (pageTable (withMem s1 m)))
          with (mapKeys (pageTable s1))
    end;
    rewrite Hmem1, storedHeap_length, Htab1, storedTable_keys;
    rewrite Hzeros; fold s2;
    (eexists; split; [reflexivity|]); done.
Qed.

End ResidentRound.

(* ================================================================== *)
(** ** Four quarter turns *)
(* ================================================================== *)

Lemma strides_quads (a : bytes) k :
  length a = (4 * k)%nat -> strides a = k.
Proof.
  intros Hl. unfold strides. rewrite Hl.
  replace (4 * k + 3)%nat with (3 + k * 4)%nat by lia.
  rewrite Nat.div_add by lia. reflexivity.
Qed.

Section Pages.

Variable pageSize : Q.
Variable img : ImageData.t.

Hypothesis Hw : 0 < ImageData.width img.
Hypothesis Hh : 0 < ImageData.height img.
Hypothesis Hppp : 0 < pixelsPerPage pageSize.

Local Abbreviation w := (ImageData.width img).
Local Abbreviation h := (ImageData.height img).
Local Abbreviation n := (pageCount pageSize img).
Local Abbreviation ppp := (pixelsPerPage pageSize).

Lemma pages_cover :
  (Z.of_nat n - 1) * ppp < w * h <= Z.of_nat n * ppp.
Proof.
  destruct (pageCount_bounds pageSize img Hppp ltac:(nia)) as [H|[H _]];
    [exact H|nia].
Qed.

Lemma page_bounds j :
  (j < n)%nat ->
  0 <= pageStart pageSize j < pageEnd pageSize img j /\
  pageEnd pageSize img j <= w * h /\
  pageStart pageSize j = Z.min (Z.of_nat j * ppp) (w * h) /\
  pageEnd pageSize img j = Z.min (Z.of_nat (S j) * ppp) (w * h).
Proof.
  intros Hj. pose proof pages_cover as Hc.
  unfold pageStart, pageEnd.
  replace (Z.of_nat (S j)) with (Z.of_nat j + 1) by lia.
  assert (Z.of_nat j * ppp <= (Z.of_nat n - 1) * ppp) by nia.
  nia.
Qed.

Variable source : bytes.

Hypothesis Hlen :
  Z.of_nat (length source) = ImageData.width img * ImageData.height img * 4.

Lemma length_storedChunk j :
  (j < n)%nat ->
  length (storedChunk pageSize img source j)
  = (4 * Z.to_nat (pageEnd pageSize img j - pageStart pageSize j))%nat.
Proof.
  intros Hj. destruct (page_bounds j Hj) as (Hs & He & _).
  unfold storedChunk. rewrite length_slice by lia. lia.
Qed.

Lemma lookup_storedChunk j (k : nat) :
  (j < n)%nat ->
  (k < length (storedChunk pageSize img source j))%nat ->
  storedChunk pageSize img source j !! k
  = source !! (Z.to_nat (pageStart pageSize j * 4) + k)%nat.
Proof.
  intros Hj Hk. destruct (page_bounds j Hj) as (Hs & He & _).
  rewrite length_storedChunk in Hk by done.
  unfold storedChunk. rewrite lookup_slice by lia. done.
Qed.

Lemma chunk_agrees j i :
  (j < n)%nat ->
  (i < Z.to_nat (pageEnd pageSize img j - pageStart pageSize j))%nat ->
  chunkAgrees source (storedChunk pageSize img source j)
              (pageStart pageSize j) i.
Proof.
  intros Hj Hi c Hc.
  destruct (page_bounds j Hj) as (Hs & He & _).
  rewrite lookup_storedChunk by (rewrite ?length_storedChunk; lia).
  f_equal. lia.
Qed.

Hypothesis Hrange : Forall inRange source.

(** The output of a run with a rotation of 90 and nothing else, page after
    page: the pixels of the pages done are at their rotated places. *)
Lemma rendered_quarter_turn j :
  (j <= n)%nat ->
  let output := renderedAfter pageSize img source noAdjustments "none" 90 j in
  length output = length source /\
  Forall inRange output /\
  Placed w h source output (Z.min (Z.of_nat j * ppp) (w * h)).
Proof.
  induction j as [|j IH]; intros Hj output; subst output.
  - unfold renderedAfter, outputLength, zeros. simpl foldl.
    change (Z.rem 90 180 =? 0) with false. cbv iota.
    split; [rewrite length_replicate; lia|].
    split; [apply Forall_replicate; unfold inRange; lia|].
    intros p c Hp. lia.
  - destruct IH as (Hl & Hr & Hp); [lia|].
    destruct (page_bounds j ltac:(lia)) as (Hs & He & Hps & Hpe).
    unfold renderedAfter in *. rewrite seq_S, foldl_app. simpl foldl.
    set (done := foldl _ _ (seq 0 j)) in *.
    change (processedBytes noAdjustments "none"
              (storedChunk pageSize img source j))
      with (storedChunk pageSize img source j).
    unfold chunkOnOutput. change (90 =? 0) with false. cbv iota.
    destruct (Z.eqb_spec w 0) as [?|_]; [lia|].
    rewrite (strides_quads _ _ (length_storedChunk j ltac:(lia))).
    split; [by rewrite length_foldl_placePixel|].
    split; [by apply Forall_foldl_placePixel|].
    rewrite <- Hpe.
    replace (pageEnd pageSize img j)
      with (pageStart pageSize j
            + Z.of_nat (Z.to_nat (pageEnd pageSize img j
                                  - pageStart pageSize j))) at 2 by lia.
    apply foldl_placePixel_Placed; try done; try lia.
    + intros i Hi. by apply chunk_agrees; [lia|].
    + by rewrite Hps.
Qed.

End Pages.

Lemma pageCount_swap pageSize w h d d' :
  pageCount pageSize (ImageData.mk h w d')
  = pageCount pageSize (ImageData.mk w h d).
Proof. unfold pageCount. simpl. by rewrite (Z.mul_comm h w). Qed.

Lemma enoughMemory_swap memoryLimit pageSize w h d d' :
  enoughMemory memoryLimit pageSize (ImageData.mk w h d) ->
  enoughMemory memoryLimit pageSize (ImageData.mk h w d').
Proof.
  unfold enoughMemory. by rewrite (pageCount_swap pageSize w h d d').
Qed.

(** A quarter turn: the run returns, in a new buffer, the image turned by a
    quarter, and the state holds that image. *)
Lemma rotateRight_spec memoryLimit pageSize now s0 img :
  holdsImage s0 img ->
  enoughMemory memoryLimit pageSize img ->
  exists s' out,
    rotateRight memoryLimit pageSize now s0 img
      = (s', Some (ImageData.mk (ImageData.height img)
                                (ImageData.width img) out)) /\
    holdsImage s' (ImageData.mk (ImageData.height img)
                                (ImageData.width img) out) /\
    Rotated (ImageData.width img) (ImageData.height img)
            (arr (mem s0) (ImageData.data img)) (arr (mem s') out).
Proof.
  intros (Hfn & Hw & Hh & Halloc & Hlen & Hrange) Henough.
  pose proof Henough as (Hppp & _).
  destruct (renderStored_spec memoryLimit pageSize now img s0 noAdjustments
              "none" 90 Hfn Halloc Henough)
    as (s' & Heq & Hfn' & Hout & Hrendered).
  change (Z.rem 90 180 =? 0) with false in Heq. cbv iota in Heq.
  destruct (rendered_quarter_turn pageSize img Hw Hh Hppp _ Hlen Hrange
              (pageCount pageSize img) (le_n _)) as (Hl & Hr & Hp).
  pose proof (pages_cover pageSize img Hw Hh Hppp) as Hcover.
  rewrite Z.min_r in Hp by lia.
  exists s', (length (mem s0) + pageCount pageSize img)%nat.
  split; [exact Heq|]. rewrite Hrendered. split.
  - unfold holdsImage. simpl. rewrite Hrendered.
    repeat split; try done. lia.
  - split; done.
Qed.

Lemma Rotated_four_times w h (d0 d1 d2 d3 d4 : bytes) :
  0 < w -> 0 < h ->
  Z.of_nat (length d0) = w * h * 4 ->
  Rotated w h d0 d1 -> Rotated h w d1 d2 ->
  Rotated w h d2 d3 -> Rotated h w d3 d4 ->
  d4 = d0.
Proof.
  intros Hw Hh Hlen [L1 P1] [L2 P2] [L3 P3] [L4 P4].
  apply list_eq. intros i.
  destruct (decide (i < length d0)%nat) as [Hi|Hi]; cycle 1.
  { rewrite !lookup_ge_None_2; [done|lia|lia]. }
  set (p := Z.of_nat i / 4). set (c := Z.of_nat i mod 4).
  assert (Hpc : i = Z.to_nat (p * 4 + c)).
  { unfold p, c. pose proof (Z.div_mod (Z.of_nat i) 4 ltac:(lia)). lia. }
  assert (Hc : 0 <= c < 4) by (apply Z.mod_pos_bound; lia).
  assert (Hp : 0 <= p < w * h).
  { unfold p. split; [apply Z.div_pos; lia|].
    apply Z.div_lt_upper_bound; lia. }
  pose proof (rotatedIndex_90_range w h p Hw Hh Hp) as Hr1.
  set (r1 := rotatedIndex w h 90 p) in *.
  pose proof (rotatedIndex_90_range h w r1 Hh Hw Hr1) as Hr2.
  set (r2 := rotatedIndex h w 90 r1) in *.
  pose proof (rotatedIndex_90_range w h r2 Hw Hh Hr2) as Hr3.
  set (r3 := rotatedIndex w h 90 r2) in *.
  pose proof (rotatedIndex_90_four_times w h p Hw Hh Hp) as H4.
  fold r1 r2 r3 in H4.
  rewrite Hpc. rewrite <- H4 at 1.
  rewrite (P4 r3 c) by lia. fold r3. unfold r3.
  rewrite (P3 r2 c) by lia. unfold r2.
  rewrite (P2 r1 c) by lia. unfold r1.
  by rewrite (P1 p c) by lia.
Qed.


Lemma holdsImage_3x2 : holdsImage (freshManager heap3x2) image3x2.
Proof.
  unfold holdsImage. simpl.
  split; [reflexivity|]. split; [lia|]. split; [lia|]. split; [lia|].
  split; [reflexivity|].
  repeat (apply Forall_cons; split; [unfold inRange; lia|]).
  apply Forall_nil. done.
Qed.

Lemma enoughMemory_3x2 : enoughMemory (8 * onePixel) onePixel image3x2.
Proof. split; [reflexivity|]. vm_compute. reflexivity. Qed.


(** C6 fails on the code as soon as a page is evicted; the remap is not at
    fault (the theorem above).  The 2x2 image with bytes 1..16 is stored in
    one-pixel pages under a budget of two pages: [storeImage] evicts two
    pages, the first quarter turn faults on every page, each fault reloads
    the page as zeros, and the turn returns sixteen zeros, as does the
    fourth.  Under a budget of four pages the fourth turn returns the bytes
    of the image. *)
Lemma four_quarter_turns_return_zeros :
  arr heap2x2 (ImageData.data image2x2)
    = [1; 2; 3; 4; 5; 6; 7; 8; 9; 10; 11; 12; 13; 14; 15; 16] /\
  snd (turns (2 * onePixel) onePixel tickingClock 1 (freshManager heap2x2)
             image2x2)
    = Some (ImageData.mk 2 2 5%nat) /\
  arr (mem (fst (turns (2 * onePixel) onePixel tickingClock 1
                       (freshManager heap2x2) image2x2))) 5%nat
    = [0; 0; 0; 0; 0; 0; 0; 0; 0; 0; 0; 0; 0; 0; 0; 0] /\
  snd fourTurns = Some (ImageData.mk 2 2 44%nat) /\
  arr (mem (fst fourTurns)) 44%nat
    = [0; 0; 0; 0; 0; 0; 0; 0; 0; 0; 0; 0; 0; 0; 0; 0] /\
  snd fourTurnsResident = Some (ImageData.mk 2 2 32%nat) /\
  arr (mem (fst fourTurnsResident)) 32%nat
    = [1; 2; 3; 4; 5; 6; 7; 8; 9; 10; 11; 12; 13; 14; 15; 16].
Proof. repeat split; vm_compute; reflexivity. Qed.

(* ================================================================== *)
(** ** The transform that changes nothing *)
(* ================================================================== *)

Lemma length_foldl_copyByte chunk s (l : list nat) :
  forall o : bytes, length (foldl (copyByte chunk s) o l) = length o.
Proof.
  induction l as [|i l IH]; intros o; [done|]. simpl.
  rewrite IH. unfold copyByte. apply length_wr.
Qed.

Section Copying.

Variables source chunk : bytes.
Variable s : Z.
Hypothesis Hs : 0 <= s.
Hypothesis Hsource : Forall inRange source.

Lemma copyByte_Copied (o : bytes) (i : nat) :
  chunk !! i = source !! (Z.to_nat s + i)%nat ->
  (Z.to_nat s + i < length source)%nat ->
  length o = length source ->
  Copied source o (s + Z.of_nat i) ->
  Copied source (copyByte chunk s o i) (s + Z.of_nat i + 1).
Proof.
  intros Hchunk Hin Hlen Hcopied k Hk. unfold copyByte.
  rewrite wr_insert by lia.
  replace (Z.to_nat (s + Z.of_nat i)) with (Z.to_nat s + i)%nat by lia.
  destruct (decide (k = Z.to_nat s + i)%nat) as [->|Hne].
  - rewrite list_lookup_insert_eq by lia.
    destruct (lookup_lt_is_Some_2 source (Z.to_nat s + i) Hin) as [b Hb].
    rewrite Hb in Hchunk |- *.
    rewrite (rd_lookup chunk (Z.of_nat i) b) by (rewrite ?Nat2Z.id; done || lia).
    rewrite toUint8Clamp_ofZ; [done|].
    eapply Forall_lookup_1 in Hsource; [exact Hsource|exact Hb].
  - rewrite list_lookup_insert_ne by lia. apply Hcopied. lia.
Qed.

Lemma foldl_copyByte_Copied (m : nat) : forall o : bytes,
  (forall i, (i < m)%nat -> chunk !! i = source !! (Z.to_nat s + i)%nat) ->
  (Z.to_nat s + m <= length source)%nat ->
  length o = length source ->
  Copied source o s ->
  Copied source (foldl (copyByte chunk s) o (seq 0 m)) (s + Z.of_nat m).
Proof.
  induction m as [|m IH]; intros o Hchunk Hin Hlen Hcopied.
  - simpl. by rewrite Z.add_0_r.
  - rewrite seq_S, foldl_app. simpl.
    replace (s + Z.of_nat (S m)) with (s + Z.of_nat m + 1) by lia.
    apply copyByte_Copied.
    + apply Hchunk. lia.
    + lia.
    + by rewrite length_foldl_copyByte.
    + apply IH; try done; [|lia]. intros i Hi. apply Hchunk. lia.
Qed.

End Copying.

Section Unchanged.

Variable pageSize : Q.
Variable img : ImageData.t.
Variable source : bytes.

Hypothesis Hw : 0 < ImageData.width img.
Hypothesis Hh : 0 < ImageData.height img.
Hypothesis Hppp : 0 < pixelsPerPage pageSize.
Hypothesis Hlen :
  Z.of_nat (length source) = ImageData.width img * ImageData.height img * 4.
Hypothesis Hrange : Forall inRange source.

(** The output of a run without adjustments, filter or rotation, page after
    page: the bytes of the pages done are those of the image. *)
Lemma rendered_copy j :
  (j <= pageCount pageSize img)%nat ->
  let output := renderedAfter pageSize img source noAdjustments "none" 0 j in
  length output = length source /\
  Copied source output
         (Z.min (Z.of_nat j * pixelsPerPage pageSize)
                (ImageData.width img * ImageData.height img) * 4).
Proof.
  induction j as [|j IH]; intros Hj output; subst output.
  - unfold renderedAfter, outputLength, zeros. simpl foldl.
    change (Z.rem 0 180 =? 0) with true. cbv iota.
    split; [rewrite length_replicate; lia|].
    intros k Hk. lia.
  - destruct IH as (Hl & Hc); [lia|].
    destruct (page_bounds pageSize img Hw Hh Hppp j ltac:(lia))
      as (Hs & He & Hps & Hpe).
    unfold renderedAfter in *. rewrite seq_S, foldl_app. simpl foldl.
    set (done := foldl _ _ (seq 0 j)) in *.
    change (processedBytes noAdjustments "none"
              (storedChunk pageSize img source j))
      with (storedChunk pageSize img source j).
    unfold chunkOnOutput. change (0 =? 0) with true. cbv iota.
    split; [by rewrite length_foldl_copyByte|].
    rewrite <- Hpe.
    pose proof (length_storedChunk pageSize img Hw Hh Hppp source Hlen j
                  ltac:(lia)) as Hcl.
    replace (pageEnd pageSize img j * 4)
      with (pageStart pageSize j * 4
            + Z.of_nat (length (storedChunk pageSize img source j)))
      by lia.
    apply foldl_copyByte_Copied; try done; try lia.
    + intros i Hi.
      by apply (lookup_storedChunk pageSize img Hw Hh Hppp source Hlen).
    + by rewrite Hps.
Qed.

Lemma rendered_unchanged :
  renderedAfter pageSize img source noAdjustments "none" 0
                (pageCount pageSize img)
  = source.
Proof.
  destruct (rendered_copy (pageCount pageSize img) (le_n _)) as [Hl Hc].
  pose proof (pages_cover pageSize img Hw Hh Hppp) as Hcover.
  rewrite Z.min_r in Hc by lia.
  apply list_eq. intros k.
  destruct (decide (k < length source)%nat) as [Hk|Hk].
  - apply Hc. lia.
  - rewrite !lookup_ge_None_2; [done|lia|lia].
Qed.

End Unchanged.


(** C2 fails on the code as soon as a page faults ([identity_run_when_resident]
    above is the case without faults, where it holds).  The 2x2 image with
    bytes 1..16 is stored in one-pixel pages under a budget of two pages;
    the run with brightness 0, contrast 0, filter none and rotation 0 faults
    on every page, each fault reloads the page as zeros, and the output is
    sixteen zeros, not the bytes of the image. *)
Lemma identity_run_returns_zeros :
  arr heap2x2 (ImageData.data image2x2)
    = [1; 2; 3; 4; 5; 6; 7; 8; 9; 10; 11; 12; 13; 14; 15; 16] /\
  snd identityRun = Some (ImageData.mk 2 2 5%nat) /\
  arr (mem (fst identityRun)) 5%nat
    = [0; 0; 0; 0; 0; 0; 0; 0; 0; 0; 0; 0; 0; 0; 0; 0] /\
  pageFaults (stats (fst identityRun)) = 4 /\
  pageHits (stats (fst identityRun)) = 0.
Proof. repeat split; vm_compute; reflexivity. Qed.

(** The budget of 0.000044 MB does not have room for eleven pages of
    0.000004 MB, as the code sums them: page 0 is evicted by [storeImage],
    the run faults on every page and returns zeros. *)
Lemma identity_run_faults_on_double_sum :
  fst (budgetAfter (44 # 1000000) (4 # 1000000)
                   (pageCount (4 # 1000000) image11x1)) = 1%nat /\
  snd identityRun11x1 = Some (ImageData.mk 11 1 12%nat) /\
  arr (mem (fst identityRun11x1)) 12%nat = replicate 44 0 /\
  pageFaults (stats (fst identityRun11x1)) = 11.
Proof. repeat split; vm_compute; reflexivity. Qed.

(* ================================================================== *)
(** ** The counters and the table *)
(* ================================================================== *)

Lemma activeCount_app m m' :
  activeCount (m ++ m') = (activeCount m + activeCount m')%nat.
Proof. unfold activeCount. by rewrite List.filter_app, length_app. Qed.

Lemma activeCount_insert m : forall i e e',
  m !! i = Some e ->
  (activeCount (<[i := e']> m) + (if isActive e then 1 else 0)
   = activeCount m + (if isActive e' then 1 else 0))%nat.
Proof.
  unfold activeCount.
  induction m as [|x m IH]; intros [|i] e e' Hi; try done; simpl in *.
  - injection Hi as ->. destruct (isActive e), (isActive e'); simpl; lia.
  - specialize (IH i e e' Hi). destruct (isActive x); simpl; lia.
Qed.

Lemma activeCount_none m :
  (forall k p, (k, p) ∈ m -> status p = inactive) -> activeCount m = 0%nat.
Proof.
  unfold activeCount. induction m as [|[k p] m IH]; intros Hall; [done|].
  simpl. unfold isActive at 1. simpl.
  rewrite (Hall k p) by apply list_elem_of_here.
  apply IH. intros k' q Hin. apply (Hall k' q). by apply list_elem_of_further.
Qed.

Lemma mapGet_Some_lookup k v m :
  mapGet k m = Some v -> exists i, m !! i = Some (k, v).
Proof.
  intros H. apply mapGet_Some_elem in H. by apply list_elem_of_lookup in H.
Qed.

Lemma mapKeys_insert (m : list (string * page)) i k v v' :
  m !! i = Some (k, v) -> mapKeys (<[i := (k, v')]> m) = mapKeys m.
Proof.
  intros Hi. unfold mapKeys. rewrite list_fmap_insert. simpl.
  apply list_insert_id. by rewrite list_lookup_fmap, Hi.
Qed.

(** Replacing the page under a key of the table. *)
Lemma coherent_insert (m : list (string * page)) i k p p' :
  m !! i = Some (k, p) ->
  (forall k0 q, (k0, q) ∈ m -> (status q = active <-> data q <> None)) ->
  (status p' = active <-> data p' <> None) ->
  forall k0 q, (k0, q) ∈ <[i := (k, p')]> m ->
    (status q = active <-> data q <> None).
Proof.
  intros Hi Hall Hp' k0 q Hin.
  apply list_elem_of_lookup in Hin as [j Hj].
  destruct (decide (i = j)) as [->|Hne].
  - rewrite list_lookup_insert_eq in Hj
      by (by apply lookup_lt_Some in Hi).
    by injection Hj as <- <-.
  - rewrite list_lookup_insert_ne in Hj by done.
    apply (Hall k0). by apply list_elem_of_lookup_2 in Hj.
Qed.

Section Accounting.

Variables memoryLimit pageSize : Q.
Variable now : nat -> Z.

(** [swapOutLRUPage] keeps the books: either no page is active and nothing
    changes, or one page less is active. *)
Lemma swapOutLRUPage_accounted s :
  accounted s -> accounted (swapOutLRUPage pageSize s).
Proof.
  intros (Hwk & Hact & Hsum & Hdata).
  destruct (swapOutLRUPage_cases pageSize s Hwk)
    as [[Hall ->]|(i & k & p & (Hi & Hp & _) & ->)]; [done|].
  - pose proof (activeCount_insert (pageTable s) i (k, p) (k, evicted p) Hi)
      as Hcount.
    unfold isActive in Hcount. simpl in Hcount. rewrite Hp in Hcount.
    unfold accounted, wellKeyed. simpl.
    rewrite (mapKeys_insert _ _ _ _ _ Hi), length_insert.
    split; [done|]. split; [lia|]. split; [lia|].
    apply (coherent_insert _ _ _ p); try done.
Qed.

Lemma coherent_mapUpdate (m : list (string * page)) k f :
  NoDup (mapKeys m) ->
  (forall k0 q, (k0, q) ∈ m -> (status q = active <-> data q <> None)) ->
  (forall p, mapGet k m = Some p ->
             (status (f p) = active <-> data (f p) <> None)) ->
  forall k0 q, (k0, q) ∈ mapUpdate k f m ->
    (status q = active <-> data q <> None).
Proof.
  intros Hnd Hall Hf.
  destruct (mapGet k m) as [p|] eqn:Hget.
  - destruct (mapGet_Some_lookup _ _ _ Hget) as [i Hi].
    rewrite (mapUpdate_lookup _ _ _ _ f Hnd Hi).
    apply (coherent_insert _ _ _ p); auto.
  - assert (mapUpdate k f m = m) as ->; [|done].
    apply mapGet_None in Hget. clear -Hget.
    induction m as [|[k' v] m IH]; [done|]. simpl.
    destruct (String.eqb_spec k' k) as [->|Hne].
    + exfalso. apply Hget. apply list_elem_of_here.
    + f_equal. apply IH. intros Hin. apply Hget.
      by apply list_elem_of_further.
Qed.

Lemma activeCount_mapUpdate (m : list (string * page)) k f p :
  NoDup (mapKeys m) -> mapGet k m = Some p ->
  (activeCount (mapUpdate k f m) + (if isActive (k, p) then 1 else 0)
   = activeCount m + (if isActive (k, f p) then 1 else 0))%nat.
Proof.
  intros Hnd Hget. destruct (mapGet_Some_lookup _ _ _ Hget) as [i Hi].
  rewrite (mapUpdate_lookup _ _ _ _ f Hnd Hi).
  by apply activeCount_insert.
Qed.

(** A new time stamp changes nothing in the books. *)
Lemma touched_accounted s k t :
  accounted s ->
  accounted (withPageTable s (mapUpdate k (touched t) (pageTable s))).
Proof.
  intros ([Hnd Hne] & Hact & Hsum & Hdata).
  unfold accounted, wellKeyed. simpl.
  rewrite mapKeys_mapUpdate, length_mapUpdate.
  split; [done|].
  assert (activeCount (mapUpdate k (touched t) (pageTable s))
          = activeCount (pageTable s)) as ->.
  { destruct (mapGet k (pageTable s)) as [p|] eqn:Hget.
    - pose proof (activeCount_mapUpdate _ k (touched t) p Hnd Hget) as H.
      unfold isActive in H. simpl in H. destruct (status p); lia.
    - f_equal. apply mapGet_None in Hget. clear -Hget.
      induction (pageTable s) as [|[k' v] m IH]; [done|]. simpl.
      destruct (String.eqb_spec k' k) as [->|Hne].
      + exfalso. apply Hget. apply list_elem_of_here.
      + simpl. rewrite IH; [done|]. intros Hin. apply Hget.
        by apply list_elem_of_further. }
  do 2 (split; [done|]).
  apply (coherent_mapUpdate _ k (touched t) Hnd Hdata).
  intros p Hget. simpl. apply (Hdata k). by apply mapGet_Some_elem.
Qed.

(** Loading an inactive page: one page more is active. *)
Lemma loaded_accounted s k p d t h f tk tr :
  accounted s ->
  mapGet k (pageTable s) = Some p -> status p = inactive ->
  accounted
    (mkState h
       (mapUpdate k (touched t) (mapUpdate k (loaded d) (pageTable s)))
       (afterSwapIn pageSize (stats s)) f tk tr).
Proof.
  intros ([Hnd Hne] & Hact & Hsum & Hdata) Hget Hp.
  set (m1 := mapUpdate k (loaded d) (pageTable s)).
  assert (NoDup (mapKeys m1)) as Hnd1
    by (subst m1; by rewrite mapKeys_mapUpdate).
  assert (mapGet k m1 = Some (loaded d p)) as Hget1
    by (subst m1; by rewrite mapGet_mapUpdate_eq, Hget).
  pose proof (activeCount_mapUpdate _ k (loaded d) p Hnd Hget) as Hc1.
  pose proof (activeCount_mapUpdate _ k (touched t) _ Hnd1 Hget1) as Hc2.
  fold m1 in Hc1. unfold isActive in Hc1, Hc2. simpl in Hc1, Hc2.
  rewrite Hp in Hc1.
  unfold accounted, wellKeyed. simpl. fold m1.
  rewrite (mapKeys_mapUpdate k (touched t) m1),
          (length_mapUpdate k (touched t) m1).
  split; [split; [done|]|].
  { subst m1. by rewrite mapKeys_mapUpdate. }
  assert (length m1 = length (pageTable s)) as Hlen
    by (subst m1; apply length_mapUpdate).
  split; [lia|]. split; [lia|].
  apply (coherent_mapUpdate _ k (touched t) Hnd1).
  - subst m1. apply (coherent_mapUpdate _ k (loaded d) Hnd Hdata).
    intros q _. simpl. split; done.
  - intros q Hq. rewrite Hget1 in Hq. injection Hq as <-. simpl.
    split; done.
Qed.

(** [swapInPage] keeps the books, whichever way the test of the budget
    goes. *)
Lemma swapInPage_accounted s pageId :
  accounted s -> accounted (swapInPage memoryLimit pageSize now s pageId).
Proof.
  intros Hacc. unfold swapInPage.
  set (s1 := if gt _ _ then swapOutLRUPage pageSize s else s).
  assert (accounted s1) as Hacc1.
  { subst s1. destruct (gt _ _); [|done].
    by apply swapOutLRUPage_accounted. }
  clearbody s1.
  destruct (mapGet pageId (pageTable s1)) as [p|] eqn:Hget; [|done].
  destruct (status p) eqn:Hp.
  - simpl. by apply (touched_accounted (snd (dateNow now s1))).
  - simpl. by apply (loaded_accounted s1 pageId p).
Qed.

(** The books do not depend on the hit and fault counters, the usage, the
    heap, the clock or the trace. *)
Lemma accounted_same s s' :
  pageTable s' = pageTable s ->
  activePages (stats s') = activePages (stats s) ->
  inactivePages (stats s') = inactivePages (stats s) ->
  accounted s -> accounted s'.
Proof.
  unfold accounted. intros -> -> ->. done.
Qed.

Lemma ensureResident_accounted s pageId :
  accounted s ->
  accounted (ensureResident memoryLimit pageSize now s pageId).
Proof.
  intros Hacc. unfold ensureResident.
  pose proof (swapInPage_accounted s pageId Hacc) as Ha.
  destruct (mapGet pageId (pageTable s)) as [[? [] ? ? ? ? ?]|].
  - exact (accounted_same s _ eq_refl eq_refl eq_refl Hacc).
  - exact (accounted_same _ _ eq_refl eq_refl eq_refl Ha).
  - exact (accounted_same _ _ eq_refl eq_refl eq_refl Ha).
Qed.

Lemma transformPage_accounted processor out w h adj f rot s pageId :
  accounted s ->
  accounted (transformPage now processor out w h adj f rot s pageId).
Proof.
  intros Hacc. unfold transformPage.
  destruct (mapGet pageId (pageTable s)) as [p|]; [|done].
  destruct (data p) as [d|]; [|done]. simpl.
  destruct (processor _ _ _ _) as [hp pc].
  exact (accounted_same _ _ eq_refl eq_refl eq_refl
           (touched_accounted s pageId (now (tick s)) Hacc)).
Qed.

Lemma processPages_accounted processor out w h adj f rot ids :
  forall s,
    accounted s ->
    accounted
      (processPages memoryLimit pageSize now processor out w h adj f rot
                    s ids).
Proof.
  unfold processPages.
  induction ids as [|k ids IH]; intros s Hacc; [done|].
  cbn [foldl]. unfold processPage at 2.
  apply IH, transformPage_accounted, ensureResident_accounted, Hacc.
Qed.

(** A new active page at the end of the table. *)
Lemma admitted_accounted s k p h f tk tr :
  accounted s ->
  k ∉ mapKeys (pageTable s) -> k <> "" ->
  status p = active -> data p <> None ->
  accounted
    (mkState h (pageTable s ++ [(k, p)]) (afterAdmit pageSize (stats s))
             f tk tr).
Proof.
  intros ([Hnd Hne] & Hact & Hsum & Hdata) Hfresh Hk Hp Hd.
  unfold accounted, wellKeyed. simpl.
  unfold mapKeys. rewrite fmap_app, length_app, activeCount_app. simpl.
  fold (mapKeys (pageTable s)).
  unfold activeCount at 2. simpl. unfold isActive. simpl. rewrite Hp. simpl.
  split; [split|].
  - apply NoDup_app. split; [done|]. split; [|apply NoDup_singleton].
    intros x Hx Hx'. apply list_elem_of_singleton in Hx' as ->. done.
  - intros x Hx. apply elem_of_app in Hx as [Hx|Hx]; [by apply Hne|].
    by apply list_elem_of_singleton in Hx as ->.
  - split; [lia|]. split; [lia|].
    intros k0 q Hq. apply elem_of_app in Hq as [Hq|Hq]; [by eapply Hdata|].
    apply list_elem_of_singleton in Hq as [= -> ->]. done.
Qed.

(** One more page is admitted: the books are kept, whichever way the test
    of the budget goes. *)
Lemma admitPage_accounted img s i :
  accounted s ->
  pageKey i ∉ mapKeys (pageTable s) ->
  accounted (admitPage memoryLimit pageSize now img s i).
Proof.
  intros Hacc Hfresh.
  unfold admitPage. cbv zeta. cbn -[gt fadd fsub toDouble pixelsPerPage].
  rewrite (mapSet_fresh _ _ _ Hfresh).
  match goal with
  | |- context [if ?c then swapOutLRUPage _ ?x else _] =>
      set (mid := x); assert (accounted mid) as Hmid;
      [|destruct c]
  end.
  - subst mid. apply admitted_accounted; try done; apply pageKey_nonempty.
  - by apply swapOutLRUPage_accounted.
  - done.
Qed.

Lemma foldl_admitPage_accounted img n : forall s,
  accounted s ->
  pageTable s = [] ->
  accounted (foldl (admitPage memoryLimit pageSize now img) s (seq 0 n)).
Proof.
  intros s Hacc Hempty.
  induction n as [|n IH]; [done|].
  rewrite seq_S, foldl_app. cbn [foldl].
  apply admitPage_accounted; try done.
  rewrite (foldl_admitPage_keys _ _ _ _ _ _ Hempty).
  intros Hin. apply list_elem_of_fmap in Hin as (j & Hj & Hin).
  apply pageKey_inj in Hj as <-. apply elem_of_seq in Hin. lia.
Qed.

End Accounting.

(* ================================================================== *)
(** ** The rounds of a run: keys, counters and events *)
(* ================================================================== *)

Lemma swapIns_app a b : swapIns (a ++ b) = swapIns a + swapIns b.
Proof. unfold swapIns. rewrite List.filter_app, length_app. lia. Qed.

Section Rounds.

Variables memoryLimit pageSize : Q.
Variable now : nat -> Z.

Lemma swapInPage_keys s k :
  mapKeys (pageTable (swapInPage memoryLimit pageSize now s k))
  = mapKeys (pageTable s).
Proof.
  destruct (swapInPage_room memoryLimit pageSize now s) as (s1 & Hs1 & ->).
  assert (mapKeys (pageTable s1) = mapKeys (pageTable s)) as <-.
  { destruct Hs1 as [->| ->]; [done|]. apply swapOutLRUPage_frame. }
  destruct (mapGet k (pageTable s1)) as [p|]; [destruct (status p)|];
    simpl; by rewrite ?mapKeys_mapUpdate.
Qed.

Lemma processPage_keys processor out w h adj f rot s k :
  mapKeys (pageTable
             (processPage memoryLimit pageSize now processor out w h adj f
                          rot s k))
  = mapKeys (pageTable s).
Proof.
  unfold processPage.
  destruct (transformPage_stats now processor out w h adj f rot
              (ensureResident memoryLimit pageSize now s k) k)
    as (_ & _ & _ & ->).
  unfold ensureResident.
  destruct (mapGet k (pageTable s)) as [[? [] ? ? ? ? ?]|]; simpl;
    by rewrite ?swapInPage_keys.
Qed.

Lemma processPages_keys processor out w h adj f rot ids : forall s,
  mapKeys (pageTable
             (processPages memoryLimit pageSize now processor out w h adj f
                           rot s ids))
  = mapKeys (pageTable s).
Proof.
  unfold processPages. induction ids as [|k ids IH]; intros s; [done|].
  cbn [foldl]. by rewrite IH, processPage_keys.
Qed.

(** A round on a page of the table counts one hit or one fault, and a fault
    shows as one swap-in event. *)
Lemma processPage_counts processor out w h adj f rot s k :
  NoDup (mapKeys (pageTable s)) ->
  k ∈ mapKeys (pageTable s) ->
  let s' :=
    processPage memoryLimit pageSize now processor out w h adj f rot s k in
  exists evs,
    trace s' = trace s ++ evs /\
    pageFaults (stats s') = pageFaults (stats s) + swapIns evs /\
    pageHits (stats s') + pageFaults (stats s')
      = pageHits (stats s) + pageFaults (stats s) + 1.
Proof.
  intros Hnd Hin s'. subst s'. unfold processPage.
  destruct (transformPage_stats now processor out w h adj f rot
              (ensureResident memoryLimit pageSize now s k) k)
    as (-> & -> & _).
  destruct (mapGet k (pageTable s)) as [p|] eqn:Hget;
    [|by apply mapGet_None in Hget].
  destruct (status p) eqn:Hp.
  - rewrite (ensureResident_hit _ _ _ _ _ _ Hget Hp). simpl.
    exists []. rewrite app_nil_r. unfold swapIns. simpl. split; [done|]. lia.
  - assert (ensureResident memoryLimit pageSize now s k
            = withStats (swapInPage memoryLimit pageSize now s k)
                (afterFault
                   (stats (swapInPage memoryLimit pageSize now s k))))
      as ->.
    { unfold ensureResident. rewrite Hget.
      destruct p as [? [] ? ? ? ? ?]; [discriminate|done]. }
    destruct (swapInPage_inactive memoryLimit pageSize now s k p Hnd Hget Hp)
      as (s1 & Hs1 & -> & _).
    simpl.
    assert (pageHits (stats s1) = pageHits (stats s) /\
            pageFaults (stats s1) = pageFaults (stats s) /\
            exists evs, trace s1 = trace s ++ evs /\ swapIns evs = 0)
      as (-> & -> & evs & -> & Hevs).
    { destruct Hs1 as [->| ->].
      - repeat split. exists []. by rewrite app_nil_r.
      - destruct (swapOutLRUPage_frame pageSize s)
          as (_ & _ & _ & -> & -> & _).
        repeat split.
        destruct (swapOutLRUPage_trace pageSize s) as [->|(k' & _ & _ & ->)].
        + exists []. by rewrite app_nil_r.
        + by exists [PageSwappedOut k']. }
    exists (evs ++ [PageSwappedIn k]). rewrite app_assoc.
    split; [done|]. rewrite swapIns_app, Hevs. unfold swapIns. simpl.
    split; lia.
Qed.

Lemma processPages_counts processor out w h adj f rot ids : forall s,
  NoDup (mapKeys (pageTable s)) ->
  (forall k, k ∈ ids -> k ∈ mapKeys (pageTable s)) ->
  let s' :=
    processPages memoryLimit pageSize now processor out w h adj f rot
                 s ids in
  exists evs,
    trace s' = trace s ++ evs /\
    pageFaults (stats s') = pageFaults (stats s) + swapIns evs /\
    pageHits (stats s') + pageFaults (stats s')
      = pageHits (stats s) + pageFaults (stats s) + Z.of_nat (length ids).
Proof.
  unfold processPages. induction ids as [|k ids IH]; intros s Hnd Hids.
  - exists []. rewrite app_nil_r. unfold swapIns. simpl. split; [done|]. lia.
  - cbn [foldl].
    destruct (processPage_counts processor out w h adj f rot s k Hnd)
      as (evs1 & Ht1 & Hf1 & Hs1); [apply Hids, list_elem_of_here|].
    destruct (IH (processPage memoryLimit pageSize now processor out w h adj
                              f rot s k))
      as (evs2 & Ht2 & Hf2 & Hs2).
    + by rewrite processPage_keys.
    + intros k' Hk'. rewrite processPage_keys.
      by apply Hids, list_elem_of_further.
    + exists (evs1 ++ evs2). cbv zeta. rewrite Ht2, Ht1, app_assoc.
      split; [done|]. rewrite swapIns_app, length_cons.
      cbv zeta in Hf1, Hs1, Hf2, Hs2. split; lia.
Qed.

End Rounds.

(* ================================================================== *)
(** ** The books after [storeImage] and after a run *)
(* ================================================================== *)

Lemma admitPage_counters memoryLimit pageSize now img s i :
  pageHits (stats (admitPage memoryLimit pageSize now img s i))
    = pageHits (stats s) /\
  pageFaults (stats (admitPage memoryLimit pageSize now img s i))
    = pageFaults (stats s).
Proof.
  unfold admitPage. cbv zeta. cbn -[gt fadd fsub toDouble pixelsPerPage].
  match goal with
  | |- context [if ?c then swapOutLRUPage _ ?x else _] =>
      destruct c; [|done];
      by destruct (swapOutLRUPage_frame pageSize x) as (_ & _ & _ & -> & -> & _)
  end.
Qed.

Lemma foldl_admitPage_counters memoryLimit pageSize now img n : forall s,
  pageHits (stats (foldl (admitPage memoryLimit pageSize now img) s (seq 0 n)))
    = pageHits (stats s) /\
  pageFaults
    (stats (foldl (admitPage memoryLimit pageSize now img) s (seq 0 n)))
    = pageFaults (stats s).
Proof.
  intros s. induction n as [|n [IHa IHb]]; [done|].
  rewrite seq_S, foldl_app. cbn [foldl].
  destruct (admitPage_counters memoryLimit pageSize now img
              (foldl (admitPage memoryLimit pageSize now img) s (seq 0 n))
              (0 + n)) as [-> ->].
  done.
Qed.

(** The usage and the number of evicted pages after one more admission
    follow [budgetStep], whatever the clock: the page just admitted is
    active, so that a swap-out finds a page to evict. *)
Lemma admitPage_usage memoryLimit pageSize now img s i (k : nat) :
  accounted s ->
  pageKey i ∉ mapKeys (pageTable s) ->
  inactivePages (stats s) = Z.of_nat k ->
  let r := budgetStep memoryLimit pageSize (k, memoryUsage (stats s)) in
  memoryUsage (stats (admitPage memoryLimit pageSize now img s i)) = snd r /\
  inactivePages (stats (admitPage memoryLimit pageSize now img s i))
    = Z.of_nat (fst r).
Proof.
  intros Hacc Hfresh Hk. unfold budgetStep, admitPage. cbv zeta.
  cbn -[gt fadd fsub toDouble pixelsPerPage].
  rewrite (mapSet_fresh _ _ _ Hfresh).
  match goal with
  | |- context [if ?c then swapOutLRUPage _ ?x else _] =>
      set (mid := x); assert (accounted mid) as Hmid;
      [|destruct c]
  end.
  - subst mid. apply admitted_accounted; try done; apply pageKey_nonempty.
  - destruct (swapOutLRUPage_cases pageSize mid (proj1 Hmid))
      as [[Hall _]|(j & kj & p & _ & ->)].
    + exfalso.
      assert (exists q, (pageKey i, q) ∈ pageTable mid /\ status q = active)
        as (q & Hq & Hs).
      { subst mid. eexists.
        split; [apply elem_of_app; right; apply list_elem_of_here|].
        reflexivity. }
      rewrite (Hall _ _ Hq) in Hs. discriminate.
    + subst mid. cbn -[fadd fsub toDouble]. split; [done|]. lia.
  - subst mid. cbn -[fadd fsub toDouble]. done.
Qed.

Lemma foldl_admitPage_usage memoryLimit pageSize now img s n :
  accounted s -> pageTable s = [] ->
  memoryUsage (stats s) = ofZ 0 -> inactivePages (stats s) = 0 ->
  let s' := foldl (admitPage memoryLimit pageSize now img) s (seq 0 n) in
  memoryUsage (stats s') = snd (budgetAfter memoryLimit pageSize n) /\
  inactivePages (stats s')
    = Z.of_nat (fst (budgetAfter memoryLimit pageSize n)).
Proof.
  intros Hacc Hempty Hu Hi. induction n as [|n [IHu IHi]]; [done|].
  cbv zeta. rewrite seq_S, foldl_app. cbn [foldl budgetAfter].
  set (sn := foldl (admitPage memoryLimit pageSize now img) s (seq 0 n))
    in *.
  cbv zeta in IHu, IHi.
  destruct (admitPage_usage memoryLimit pageSize now img sn (0 + n)
              (fst (budgetAfter memoryLimit pageSize n))) as [H1 H2].
  - by apply foldl_admitPage_accounted.
  - subst sn. rewrite (foldl_admitPage_keys _ _ _ _ _ _ Hempty).
    intros Hin. apply list_elem_of_fmap in Hin as (j & Hj & Hin).
    apply pageKey_inj in Hj as <-. apply elem_of_seq in Hin. lia.
  - done.
  - rewrite IHu in H1, H2. cbv zeta in H1, H2.
    by destruct (budgetAfter memoryLimit pageSize n).
Qed.

Lemma storeImage_accounted memoryLimit pageSize now s0 img :
  0 < pixelsPerPage pageSize ->
  exists s',
    storeImage memoryLimit pageSize now s0 (Some img) = Returns s' /\
    accounted s'.
Proof.
  intros Hppp. unfold storeImage.
  fold (storedTotalPages pageSize img). rewrite loopCount_pages by done.
  eexists. split; [reflexivity|].
  set (s1 := withStats _ _).
  assert (accounted s1) as Hacc.
  { unfold accounted, wellKeyed. simpl. repeat split; try done.
    - apply NoDup_nil_2.
    - intros k Hk. by apply elem_of_nil in Hk.
    - intros _. by apply elem_of_nil in H.
    - intros _. by apply elem_of_nil in H. }
  pose proof (foldl_admitPage_accounted memoryLimit pageSize now img
                (pageCount pageSize img) s1 Hacc eq_refl) as Ha.
  exact (accounted_same _ _ eq_refl eq_refl eq_refl Ha).
Qed.

Lemma accounted_stored2x2 : accounted (stored2x2 2 tickingClock).
Proof.
  destruct (storeImage_accounted (2 * onePixel) onePixel tickingClock
              (freshManager heap2x2) image2x2)
    as (s' & Hs' & Ha).
  - vm_compute. reflexivity.
  - assert (stored2x2 2 tickingClock = s') as ->; [|done].
    unfold stored2x2. change (inject_Z 2) with (2 : Q). by rewrite Hs'.
Qed.

Lemma processChunkFn_stored2x2 :
  processChunkFn (stored2x2 2 tickingClock) = Some processChunk.
Proof.
  unfold stored2x2. change (inject_Z 2) with (2 : Q).
  rewrite storeImage_stored.
  - reflexivity.
  - vm_compute. reflexivity.
  - intros i _. apply picksLowest_monotone, monotone_tickingClock.
Qed.



(** X2.  A run of [processImageChunks] keeps the books, whichever way the
    tests of the budget go, for any budget, page size, image, settings and
    registered chunk processor: afterwards [activePages] and
    [inactivePages] still count the active and the inactive pages, a page
    still has data exactly when it is active, and the table has the keys it
    had.  Nothing is claimed of [memoryUsage]. *)
Theorem processImageChunks_keeps_books (memoryLimit pageSize : Q)
    (now : nat -> Z) (s : state) (originalImage : option ImageData.t)
    (adj : adjustments) (filter : string) (rotation : Z) :
  accounted s ->
  let s' :=
    fst (processImageChunks memoryLimit pageSize now s originalImage adj
                            filter rotation) in
  accounted s' /\
  mapKeys (pageTable s') = mapKeys (pageTable s).
Proof.
  intros Hacc. unfold processImageChunks.
  destruct originalImage as [img|]; [|done].
  destruct (processChunkFn s) as [processor|]; [|done].
  destruct (Z.rem rotation 180 =? 0); simpl.
  all: match goal with
       | |- context [processPages _ _ _ _ _ _ _ _ _ _ ?x _] =>
           pose proof (processPages_accounted memoryLimit pageSize now
                         processor (length (mem s)) (ImageData.width img)
                         (ImageData.height img) adj filter rotation
                         (mapKeys (pageTable s)) x) as Ha
       end.
  all: rewrite processPages_keys.
  all: split; [|done].
  all: exact (accounted_same _ _ eq_refl eq_refl eq_refl (Ha Hacc)).
Qed.

Lemma processImageChunks_keeps_books_witness :
  accounted (stored2x2 2 tickingClock) /\
  accounted (fst identityRun) /\
  mapKeys (pageTable (fst identityRun))
    = mapKeys (pageTable (stored2x2 2 tickingClock)).
Proof.
  pose proof accounted_stored2x2 as Ha.
  split; [exact Ha|].
  exact (processImageChunks_keeps_books (2 * onePixel) onePixel
           tickingClock (stored2x2 2 tickingClock) (Some image2x2)
           noAdjustments "none" 0 Ha).
Defined.

(** X3.  A run of [processImageChunks] over a table of [n] pages adds [n] to
    the sum of hits and faults; each fault shows as one swapped-in event among
    the events of the run; and the run ends by announcing the statistics it
    leaves. *)
Theorem run_counts_every_page (memoryLimit pageSize : Q) (now : nat -> Z)
    (s : state) (processor : chunkProcessor) (img : ImageData.t)
    (adj : adjustments) (filter : string) (rotation : Z) :
  NoDup (mapKeys (pageTable s)) ->
  processChunkFn s = Some processor ->
  let s' :=
    fst (processImageChunks memoryLimit pageSize now s (Some img) adj
                            filter rotation) in
  pageHits (stats s') + pageFaults (stats s')
    = pageHits (stats s) + pageFaults (stats s)
      + Z.of_nat (length (pageTable s)) /\
  pageFaults (stats s') = pageFaults (stats s) + swapIns (newEvents s s') /\
  last (trace s') = Some (StatsUpdated (stats s')).
Proof.
  intros Hnd Hfn. unfold processImageChunks. rewrite Hfn.
  destruct (Z.rem rotation 180 =? 0); simpl.
  all: match goal with
       | |- context [processPages _ _ _ _ ?o ?w ?h _ _ _ ?x ?ids] =>
           destruct (processPages_counts memoryLimit pageSize now processor
                       o w h adj filter rotation ids x Hnd)
             as (evs & Ht & Hf & Hs); [done|];
           cbv zeta in Ht, Hf, Hs; simpl in Ht, Hf, Hs
       end.
  all: unfold newEvents; simpl; rewrite Ht.
  all: rewrite <- app_assoc, drop_app_length, swapIns_app.
  all: assert (length (mapKeys (pageTable s)) = length (pageTable s))
         as Hlen by apply length_fmap.
  all: rewrite Hlen in Hs.
  all: split; [lia|]; split; [unfold swapIns at 2; simpl; lia|].
  all: by rewrite app_assoc, last_snoc.
Qed.

Lemma run_counts_every_page_witness :
  NoDup (mapKeys (pageTable (stored2x2 2 tickingClock))) /\
  processChunkFn (stored2x2 2 tickingClock) = Some processChunk /\
  pageHits (stats (fst identityRun)) + pageFaults (stats (fst identityRun))
    = pageHits (stats (stored2x2 2 tickingClock))
      + pageFaults (stats (stored2x2 2 tickingClock))
      + Z.of_nat (length (pageTable (stored2x2 2 tickingClock))) /\
  pageFaults (stats (fst identityRun))
    = pageFaults (stats (stored2x2 2 tickingClock))
      + swapIns (newEvents (stored2x2 2 tickingClock) (fst identityRun)).
Proof.
  pose proof (proj1 (proj1 accounted_stored2x2)) as H1.
  pose proof processChunkFn_stored2x2 as H2.
  split; [exact H1|]. split; [exact H2|].
  destruct (run_counts_every_page (2 * onePixel) onePixel tickingClock
              (stored2x2 2 tickingClock) processChunk image2x2
              noAdjustments "none" 0 H1 H2) as (Ha & Hb & _).
  split; [exact Ha|exact Hb].
Defined.

(* ================================================================== *)
(** ** The pages of a stored image tile it *)
(* ================================================================== *)

Lemma keyedRanges_mapUpdate k f m :
  (forall v, rangesOf (f v) = rangesOf v) ->
  keyedRanges (mapUpdate k f m) = keyedRanges m.
Proof.
  intros Hf. induction m as [|[k' v] m IH]; [done|]. simpl.
  destruct (String.eqb k' k); simpl; [by rewrite Hf|by rewrite IH].
Qed.

Lemma mapKeys_keyedRanges m : map fst (keyedRanges m) = mapKeys m.
Proof.
  unfold keyedRanges, mapKeys. rewrite map_map. done.
Qed.

Lemma elem_of_mapUpdate k f (m : list (string * page)) k0 q :
  (k0, q) ∈ mapUpdate k f m ->
  (k0, q) ∈ m \/ exists p, (k0, p) ∈ m /\ q = f p.
Proof.
  induction m as [|[k' v] m IH];
    [intros Hin; by apply elem_of_nil in Hin|]. simpl.
  destruct (String.eqb k' k); intros Hin.
  - apply elem_of_cons in Hin as [[= -> ->]|Hin].
    + right. exists v. split; [apply list_elem_of_here|done].
    + left. by apply list_elem_of_further.
  - apply elem_of_cons in Hin as [[= -> ->]|Hin].
    + left. apply list_elem_of_here.
    + destruct (IH Hin) as [H|(p & H & ->)].
      * left. by apply list_elem_of_further.
      * right. exists p. split; [by apply list_elem_of_further|done].
Qed.

Lemma swapOutLRUPage_ranges pageSize source base s :
  chunksHold source base s ->
  keyedRanges (pageTable (swapOutLRUPage pageSize s))
    = keyedRanges (pageTable s) /\
  chunksHold source base (swapOutLRUPage pageSize s).
Proof.
  intros Hch. unfold swapOutLRUPage.
  destruct (findLRU (pageTable s)) as [k|]; [|done].
  destruct (truthy k); [|done]. simpl. split.
  - by apply keyedRanges_mapUpdate.
  - intros k0 q d Hin Hd. simpl in *.
    apply elem_of_mapUpdate in Hin as [Hin|(p & Hin & ->)];
      [by eapply Hch|done].
Qed.

Section Tiles.

Variables memoryLimit pageSize : Q.
Variable now : nat -> Z.
Variable img : ImageData.t.
Variable s0 : state.

Hypothesis Halloc : (ImageData.data img < length (mem s0))%nat.

Local Abbreviation source := (arr (mem s0) (ImageData.data img)).

Local Abbreviation storedRanges :=
  (fun j : nat =>
     (pageKey j,
      (pageStart pageSize j, pageEnd pageSize img j,
       pageStart pageSize j * 4, pageEnd pageSize img j * 4))).

Local Abbreviation tiled :=
  (fun (i : nat) (s : state) =>
     keyedRanges (pageTable s) = map storedRanges (seq 0 i) /\
     (exists chunks, mem s = mem s0 ++ chunks) /\
     chunksHold source (length (mem s0)) s).

Lemma admitPage_tiled i s :
  tiled i s -> tiled (S i) (admitPage memoryLimit pageSize now img s i).
Proof.
  intros (Hr & [chunks Hmem] & Hch).
  assert (pageKey i ∉ mapKeys (pageTable s)) as Hfresh.
  { rewrite <- mapKeys_keyedRanges, Hr, map_map. cbn [fst].
    intros Hin. apply list_elem_of_fmap in Hin as (j & Hj & Hin).
    apply pageKey_inj in Hj as <-. apply elem_of_seq in Hin. lia. }
  unfold admitPage, alloc, dateNow, withStats, withPageTable, withMem.
  cbv zeta. cbn [pageTable mem stats processChunkFn tick trace fst snd].
  rewrite (mapSet_fresh _ _ _ Hfresh).
  match goal with
  | |- context [if ?c then swapOutLRUPage _ ?x else _] =>
      set (mid := x); assert (tiled (S i) mid) as Hmid;
      [|destruct c; [|exact Hmid]]
  end.
  - subst mid. cbn [pageTable mem]. split; [|split].
    + unfold keyedRanges in *. rewrite map_app, seq_S, map_app, Hr.
      reflexivity.
    + exists (chunks ++ [slice (arr (mem s) (ImageData.data img))
                           (Z.of_nat i * pixelsPerPage pageSize * 4)
                           (Z.min ((Z.of_nat i + 1) * pixelsPerPage pageSize)
                                  (ImageData.width img
                                   * ImageData.height img) * 4)]).
      by rewrite Hmem, app_assoc.
    + intros k p d Hin Hd. cbn [pageTable mem] in *.
      rewrite length_app. cbn [length].
      apply elem_of_app in Hin as [Hin|Hin].
      * destruct (Hch k p d Hin Hd) as [Hb Ha]. split; [lia|].
        rewrite arr_app_l by lia. exact Ha.
      * apply list_elem_of_singleton in Hin as [= -> ->].
        cbn [data startIndex endIndex] in *. injection Hd as <-. split.
        -- rewrite Hmem, length_app. lia.
        -- rewrite arr_snoc. f_equal.
           rewrite Hmem. apply arr_app_l. exact Halloc.
  - destruct Hmid as (Hr' & Hm' & Hch').
    destruct (swapOutLRUPage_ranges pageSize _ _ mid Hch') as [Hr2 Hch2].
    split; [by rewrite Hr2|]. split; [|exact Hch2].
    by destruct (swapOutLRUPage_frame pageSize mid) as (-> & _).
Qed.

Lemma foldl_admitPage_tiled n : forall s,
  tiled 0%nat s ->
  tiled n (foldl (admitPage memoryLimit pageSize now img) s (seq 0 n)).
Proof.
  intros s Hs. induction n as [|n IH]; [done|].
  assert (foldl (admitPage memoryLimit pageSize now img) s (seq 0 (S n))
          = admitPage memoryLimit pageSize now img
              (foldl (admitPage memoryLimit pageSize now img) s (seq 0 n)) n)
    as -> by (by rewrite seq_S, foldl_app).
  exact (admitPage_tiled n _ IH).
Qed.

End Tiles.



(* ================================================================== *)
(** ** Page sizes under one pixel *)
(* ================================================================== *)

Lemma pixelsPerPage_zero pageSize :
  pixelsPerPage pageSize = 0 <->
  (0 <= pageSize)%Q /\ (pageSize < 1 # 262144)%Q.
Proof.
  unfold pixelsPerPage.
  pose proof (Qfloor_le (pageSize * 1024 * 1024 / 4)) as Hle.
  pose proof (Qlt_floor (pageSize * 1024 * 1024 / 4)) as Hlt.
  split.
  - intros H0. rewrite H0 in Hle, Hlt. clear H0.
    destruct pageSize as [n d].
    unfold Qle, Qlt, Qdiv, Qmult, Qinv in *. simpl in *. lia.
  - intros [H0 H1].
    assert (0 <= Qfloor (pageSize * 1024 * 1024 / 4)).
    { change 0 with (Qfloor 0). apply Qfloor_resp_le.
      destruct pageSize as [n d].
      unfold Qle, Qlt, Qdiv, Qmult, Qinv in *. simpl in *. lia. }
    assert (Qfloor (pageSize * 1024 * 1024 / 4) < 1); [|lia].
    apply Z.lt_nge. intros Hge.
    assert (inject_Z 1 <= pageSize * 1024 * 1024 / 4)%Q as Hone.
    { eapply Qle_trans; [|exact Hle]. rewrite <- Zle_Qle. exact Hge. }
    clear -Hone H1. destruct pageSize as [n d].
    unfold Qle, Qlt, Qdiv, Qmult, Qinv in *. simpl in *. lia.
Qed.

Lemma pixelsPerPage_negative pageSize :
  pixelsPerPage pageSize < 0 <-> (pageSize < 0)%Q.
Proof.
  unfold pixelsPerPage.
  pose proof (Qfloor_le (pageSize * 1024 * 1024 / 4)) as Hle.
  pose proof (Qlt_floor (pageSize * 1024 * 1024 / 4)) as Hlt.
  split.
  - intros H0.
    assert (pageSize * 1024 * 1024 / 4 < 0)%Q as Hneg.
    { eapply Qlt_le_trans; [exact Hlt|].
      change 0%Q with (inject_Z 0). rewrite <- Zle_Qle. lia. }
    clear -Hneg. destruct pageSize as [n d].
    unfold Qle, Qlt, Qdiv, Qmult, Qinv in *. simpl in *. lia.
  - intros H0. apply Z.lt_nge. intros Hge.
    assert (0 <= pageSize * 1024 * 1024 / 4)%Q as Hpos.
    { eapply Qle_trans; [|exact Hle].
      change 0%Q with (inject_Z 0). by rewrite <- Zle_Qle. }
    clear -Hpos H0. destruct pageSize as [n d].
    unfold Qle, Qlt, Qdiv, Qmult, Qinv in *. simpl in *. lia.
Qed.

(** The number of rounds of the loop of [storeImage]. *)
Lemma loopCount_totalPages pageSize img :
  let total := ImageData.width img * ImageData.height img in
  (pixelsPerPage pageSize = 0 /\ 0 < total /\
   loopCount (storedTotalPages pageSize img) = None)
  \/ (~ (pixelsPerPage pageSize = 0 /\ 0 < total) /\
      exists n, loopCount (storedTotalPages pageSize img) = Some n /\
                (pixelsPerPage pageSize <= 0 -> 0 <= total -> n = 0%nat)).
Proof.
  intros total. unfold storedTotalPages. fold total.
  unfold div, ofZ, isZero. simpl Qnum.
  destruct (Z.eqb_spec (pixelsPerPage pageSize) 0) as [H0|Hne].
  - destruct (Z.compare_spec total 0) as [Ht|Ht|Ht].
    + right. split; [lia|]. exists 0%nat. by split.
    + right. split; [lia|]. exists 0%nat. by split.
    + left. by repeat split.
  - right. split; [lia|]. cbn [mathCeil loopCount].
    eexists. split; [reflexivity|].
    intros Hle Htot. rewrite Qceiling_Z.
    assert (Qceiling (inject_Z total / inject_Z (pixelsPerPage pageSize))
            <= 0); [|lia].
    change 0 with (Qceiling 0). apply Qceiling_resp_le.
    unfold Qle, Qdiv, Qmult, Qinv, inject_Z. simpl.
    destruct (pixelsPerPage pageSize) as [|q|q] eqn:Hq; simpl; lia.
Qed.

(** X5.  [storeImage] does not return exactly when a page holds no pixel and
    the image is not empty: the number of pages is then infinite.  A page holds
    no pixel when the page size is under four bytes (2^-18 MB) and not
    negative.  When a page holds no pixel or a negative number of them and
    [storeImage] returns, it has created no page. *)
Theorem storeImage_hangs_on_tiny_pages :
  forall (memoryLimit pageSize : Q) (now : nat -> Z) (s : state)
         (img : ImageData.t),
    (storeImage memoryLimit pageSize now s (Some img) = Diverges <->
     pixelsPerPage pageSize = 0 /\
     0 < ImageData.width img * ImageData.height img) /\
    (pixelsPerPage pageSize = 0 <->
     (0 <= pageSize)%Q /\ (pageSize < 1 # 262144)%Q) /\
    (forall s',
       storeImage memoryLimit pageSize now s (Some img) = Returns s' ->
       pixelsPerPage pageSize <= 0 ->
       0 <= ImageData.width img * ImageData.height img ->
       pageTable s' = []).
Proof.
  intros memoryLimit pageSize now s img.
  split; [|split; [apply pixelsPerPage_zero|]].
  - unfold storeImage. fold (storedTotalPages pageSize img).
    destruct (loopCount_totalPages pageSize img)
      as [(H0 & Ht & ->)|(Hn & n & -> & _)]; [done|].
    split; [done|]. intros H. by destruct Hn.
  - intros s' Hs' Hle Htot. unfold storeImage in Hs'.
    fold (storedTotalPages pageSize img) in Hs'.
    destruct (loopCount_totalPages pageSize img)
      as [(H0 & Ht & Heq)|(Hn & n & Heq & Hzero)]; rewrite Heq in Hs';
      [done|].
    rewrite (Hzero Hle Htot) in Hs'. by injection Hs' as <-.
Qed.

(* ================================================================== *)
(** ** Loops over pixels *)
(* ================================================================== *)

Lemma rd_app_l (x y : bytes) i :
  i < Z.of_nat (length x) -> rd (x ++ y) i = rd x i.
Proof.
  intros Hi. unfold rd. destruct (i <? 0) eqn:H0; [done|].
  apply Z.ltb_ge in H0. by rewrite lookup_app_l by lia.
Qed.

Lemma rd_app_r (x y : bytes) i :
  0 <= i -> rd (x ++ y) (Z.of_nat (length x) + i) = rd y i.
Proof.
  intros Hi. unfold rd.
  destruct (Z.ltb_spec (Z.of_nat (length x) + i) 0); [lia|].
  destruct (Z.ltb_spec i 0); [lia|].
  rewrite lookup_app_r by lia.
  by replace (Z.to_nat (Z.of_nat (length x) + i) - length x)%nat
    with (Z.to_nat i) by lia.
Qed.

Lemma wr_app_l (x y : bytes) i v :
  i < Z.of_nat (length x) -> wr (x ++ y) i v = wr x i v ++ y.
Proof.
  intros Hi. unfold wr. destruct (i <? 0) eqn:H0; [done|].
  apply Z.ltb_ge in H0. by rewrite insert_app_l by lia.
Qed.

Lemma wr_app_r (x y : bytes) i v :
  0 <= i -> wr (x ++ y) (Z.of_nat (length x) + i) v = x ++ wr y i v.
Proof.
  intros Hi. unfold wr.
  destruct (Z.ltb_spec (Z.of_nat (length x) + i) 0); [lia|].
  destruct (Z.ltb_spec i 0); [lia|].
  replace (Z.to_nat (Z.of_nat (length x) + i))
    with (length x + Z.to_nat i)%nat by lia.
  apply insert_app_r.
Qed.

Lemma strides_app (x y : bytes) a :
  length x = (4 * a)%nat -> strides (x ++ y) = (a + strides y)%nat.
Proof.
  intros Hx. unfold strides. rewrite length_app, Hx.
  replace (4 * a + length y + 3)%nat with (length y + 3 + a * 4)%nat by lia.
  rewrite Nat.div_add by lia. lia.
Qed.

Section PixelLoop.

Variable step : bytes -> nat -> bytes.
Hypothesis Hstep : pixelStep step.

Lemma length_foldl_step (l : list nat) : forall data,
  length (foldl step data l) = length data.
Proof.
  destruct Hstep as (Hlen & _).
  induction l as [|k l IH]; intros data; [done|].
  cbn [foldl]. by rewrite IH, Hlen.
Qed.

Lemma length_pixelLoop data : length (pixelLoop step data) = length data.
Proof. apply length_foldl_step. Qed.

Lemma foldl_step_left (x y : bytes) a j :
  length x = (4 * a)%nat -> (j <= a)%nat ->
  foldl step (x ++ y) (seq 0 j) = foldl step x (seq 0 j) ++ y.
Proof.
  destruct Hstep as (_ & Hl & _). intros Hx.
  induction j as [|j IH]; intros Hj; [done|].
  rewrite seq_S, !foldl_app. cbn [foldl]. rewrite IH by lia.
  apply Hl. rewrite length_foldl_step. lia.
Qed.

Lemma foldl_step_right (x y : bytes) a m :
  length x = (4 * a)%nat ->
  foldl step (x ++ y) (seq a m) = x ++ foldl step y (seq 0 m).
Proof.
  destruct Hstep as (_ & _ & Hr). intros Hx.
  induction m as [|m IH]; [done|].
  rewrite !seq_S, !foldl_app. cbn [foldl]. rewrite IH.
  by apply Hr.
Qed.

(** The loop on whole pixels followed by more bytes is the loop on each
    part. *)
Lemma pixelLoop_app (x y : bytes) a :
  length x = (4 * a)%nat ->
  pixelLoop step (x ++ y) = pixelLoop step x ++ pixelLoop step y.
Proof.
  intros Hx. unfold pixelLoop.
  rewrite (strides_app x y a Hx), (strides_quads x a Hx).
  rewrite seq_app, foldl_app.
  rewrite (foldl_step_left x y a a Hx) by lia. cbn [Nat.add].
  apply foldl_step_right. by rewrite length_foldl_step.
Qed.

End PixelLoop.

(** *** The steps of the image processor *)

Ltac unfold_steps :=
  unfold brightnessStep, contrastStep, contrastPixel, grayscaleStep,
         sepiaStep, invertStep;
  cbv zeta.

Ltac pixel_step :=
  split; [|split];
  [ intros data k; unfold_steps; by rewrite !length_wr
  | intros x y k Hk; unfold_steps;
    repeat first [ rewrite rd_app_l by (rewrite ?length_wr; lia)
                 | rewrite wr_app_l by (rewrite ?length_wr; lia) ];
    reflexivity
  | intros x y a k Hx; unfold_steps;
    replace (4 * Z.of_nat (a + k))
      with (Z.of_nat (length x) + 4 * Z.of_nat k) by lia;
    rewrite <- ?Z.add_assoc;
    repeat first [ rewrite rd_app_r by lia | rewrite wr_app_r by lia ];
    reflexivity ].

Lemma pixelStep_brightness factor : pixelStep (brightnessStep factor).
Proof. pixel_step. Qed.

Lemma pixelStep_contrast factor : pixelStep (contrastStep factor).
Proof. pixel_step. Qed.

Lemma pixelStep_grayscale : pixelStep grayscaleStep.
Proof. pixel_step. Qed.

Lemma pixelStep_sepia : pixelStep sepiaStep.
Proof. pixel_step. Qed.

Lemma pixelStep_invert : pixelStep invertStep.
Proof. pixel_step. Qed.

Lemma filterLoop_pixelLoop filter data :
  filterLoop filter data
  = if String.eqb filter "grayscale" then pixelLoop grayscaleStep data
    else if String.eqb filter "sepia" then pixelLoop sepiaStep data
    else if String.eqb filter "invert" then pixelLoop invertStep data
    else data.
Proof. reflexivity. Qed.

Lemma length_filterLoop filter data :
  length (filterLoop filter data) = length data.
Proof.
  rewrite filterLoop_pixelLoop.
  destruct (String.eqb filter "grayscale");
    [exact (length_pixelLoop _ pixelStep_grayscale _)|].
  destruct (String.eqb filter "sepia");
    [exact (length_pixelLoop _ pixelStep_sepia _)|].
  destruct (String.eqb filter "invert");
    [exact (length_pixelLoop _ pixelStep_invert _)|].
  done.
Qed.

Lemma length_brightnessLoop b data :
  length (brightnessLoop b data) = length data.
Proof. apply (length_pixelLoop _ (pixelStep_brightness _)). Qed.

Lemma length_contrastLoop c data :
  length (contrastLoop c data) = length data.
Proof. apply (length_pixelLoop _ (pixelStep_contrast _)). Qed.

Lemma length_processedBytes adj filter data :
  length (processedBytes adj filter data) = length data.
Proof.
  unfold processedBytes. cbv zeta. rewrite length_filterLoop.
  destruct (contrast adj =? 0), (brightness adj =? 0);
    by rewrite ?length_contrastLoop, ?length_brightnessLoop.
Qed.

(** Processing whole pixels followed by more bytes is processing each
    part. *)
Lemma processedBytes_app adj filter (x y : bytes) a :
  length x = (4 * a)%nat ->
  processedBytes adj filter (x ++ y)
  = processedBytes adj filter x ++ processedBytes adj filter y.
Proof.
  intros Hx. unfold processedBytes. cbv zeta.
  set (b := fun data : bytes =>
              if brightness adj =? 0 then data
              else brightnessLoop (brightness adj) data).
  set (c := fun data : bytes =>
              if contrast adj =? 0 then data
              else contrastLoop (contrast adj) data).
  change (filterLoop filter (c (b (x ++ y)))
          = filterLoop filter (c (b x)) ++ filterLoop filter (c (b y))).
  assert (Hb : b (x ++ y) = b x ++ b y /\ length (b x) = (4 * a)%nat).
  { subst b. cbv beta. destruct (brightness adj =? 0); [done|].
    split; [apply (pixelLoop_app _ (pixelStep_brightness _) x y a Hx)|].
    by rewrite length_brightnessLoop. }
  destruct Hb as [-> Hbx].
  assert (Hc : c (b x ++ b y) = c (b x) ++ c (b y) /\
               length (c (b x)) = (4 * a)%nat).
  { subst c. cbv beta. destruct (contrast adj =? 0); [done|].
    split; [apply (pixelLoop_app _ (pixelStep_contrast _) _ _ a Hbx)|].
    by rewrite length_contrastLoop. }
  destruct Hc as [-> Hcx].
  rewrite !filterLoop_pixelLoop.
  destruct (String.eqb filter "grayscale");
    [exact (pixelLoop_app _ pixelStep_grayscale _ _ a Hcx)|].
  destruct (String.eqb filter "sepia");
    [exact (pixelLoop_app _ pixelStep_sepia _ _ a Hcx)|].
  destruct (String.eqb filter "invert");
    [exact (pixelLoop_app _ pixelStep_invert _ _ a Hcx)|].
  done.
Qed.

(** Processing commutes with cutting out a range of whole pixels. *)
Lemma processedBytes_slice adj filter (source : bytes) (s e : nat) :
  (s <= e)%nat -> (4 * e <= length source)%nat ->
  processedBytes adj filter
    (slice source (Z.of_nat (4 * s)) (Z.of_nat (4 * e)))
  = slice (processedBytes adj filter source)
          (Z.of_nat (4 * s)) (Z.of_nat (4 * e)).
Proof.
  intros Hse He.
  rewrite !slice_inside by (rewrite ?length_processedBytes; lia).
  replace (Z.to_nat (Z.of_nat (4 * e) - Z.of_nat (4 * s)))
    with (4 * (e - s))%nat by lia.
  rewrite Nat2Z.id.
  rewrite <- (take_drop (4 * s) source) at 2.
  rewrite (processedBytes_app _ _ _ _ s) by (rewrite length_take; lia).
  rewrite drop_app_length'
    by (rewrite length_processedBytes, length_take; lia).
  rewrite <- (take_drop (4 * (e - s)) (drop (4 * s) source)) at 2.
  rewrite (processedBytes_app _ _ _ _ (e - s))
    by (rewrite length_take, length_drop; lia).
  rewrite take_app_length'
    by (rewrite length_processedBytes, length_take, length_drop; lia).
  done.
Qed.

(** *** What the loops leave alone *)

Lemma wr_lookup_ne (o : bytes) i v (j : nat) :
  i <> Z.of_nat j -> wr o i v !! j = o !! j.
Proof.
  intros Hne. unfold wr. destruct (Z.ltb_spec i 0); [done|].
  apply list_lookup_insert_ne. lia.
Qed.

Lemma foldl_lookup_kept {A} (step : bytes -> A -> bytes) (j : nat)
    (l : list A) :
  (forall data k, step data k !! j = data !! j) ->
  forall data, foldl step data l !! j = data !! j.
Proof.
  intros Hstep. induction l as [|k l IH]; intros data; [done|].
  cbn [foldl]. by rewrite IH, Hstep.
Qed.

Lemma foldl_Forall_kept {A} (P : Z -> Prop) (step : bytes -> A -> bytes)
    (l : list A) :
  (forall data k, Forall P data -> Forall P (step data k)) ->
  forall data, Forall P data -> Forall P (foldl step data l).
Proof.
  intros Hstep. induction l as [|k l IH]; intros data Hd; [done|].
  cbn [foldl]. by apply IH, Hstep.
Qed.

Ltac alpha_kept :=
  intros ? ?; unfold_steps; rewrite !wr_lookup_ne by lia; reflexivity.

Ltac range_kept :=
  intros ? ? ?; unfold_steps; repeat apply Forall_wr; assumption.

(** No adjustment and no filter stores into an alpha channel. *)
Lemma processedBytes_alpha adj filter (data : bytes) (q : nat) :
  processedBytes adj filter data !! (4 * q + 3)%nat
  = data !! (4 * q + 3)%nat.
Proof.
  unfold processedBytes. cbv zeta.
  assert (forall d : bytes,
            filterLoop filter d !! (4 * q + 3)%nat = d !! (4 * q + 3)%nat)
    as ->.
  { intros d. rewrite filterLoop_pixelLoop. unfold pixelLoop.
    destruct (String.eqb filter "grayscale");
      [apply foldl_lookup_kept; alpha_kept|].
    destruct (String.eqb filter "sepia");
      [apply foldl_lookup_kept; alpha_kept|].
    destruct (String.eqb filter "invert");
      [apply foldl_lookup_kept; alpha_kept|].
    done. }
  assert (forall d : bytes,
            (if contrast adj =? 0 then d else contrastLoop (contrast adj) d)
              !! (4 * q + 3)%nat = d !! (4 * q + 3)%nat) as ->.
  { intros d. destruct (contrast adj =? 0); [done|].
    apply foldl_lookup_kept. alpha_kept. }
  destruct (brightness adj =? 0); [done|].
  apply foldl_lookup_kept. alpha_kept.
Qed.

(** Bytes stay bytes. *)
Lemma processedBytes_range adj filter (data : bytes) :
  Forall inRange data -> Forall inRange (processedBytes adj filter data).
Proof.
  intros Hd. unfold processedBytes. cbv zeta.
  assert (forall d : bytes,
            Forall inRange d -> Forall inRange (filterLoop filter d)) as Hf.
  { intros d Hr. rewrite filterLoop_pixelLoop. unfold pixelLoop.
    destruct (String.eqb filter "grayscale");
      [apply foldl_Forall_kept; [range_kept|done]|].
    destruct (String.eqb filter "sepia");
      [apply foldl_Forall_kept; [range_kept|done]|].
    destruct (String.eqb filter "invert");
      [apply foldl_Forall_kept; [range_kept|done]|].
    done. }
  apply Hf.
  destruct (contrast adj =? 0), (brightness adj =? 0); try done;
    repeat (apply foldl_Forall_kept; [range_kept|]); done.
Qed.

(* ================================================================== *)
(** ** The values of the channels *)
(* ================================================================== *)

(** A fact that holds of each of the 256 bytes holds of every byte. *)
Lemma byte_cases (P : Z -> bool) :
  forallb P (map Z.of_nat (seq 0 256)) = true ->
  forall x, inRange x -> P x = true.
Proof.
  intros H x [Hlo Hhi]. rewrite forallb_forall in H. apply H.
  apply in_map_iff. exists (Z.to_nat x). split; [lia|].
  apply in_seq. lia.
Qed.

(** *** Loops that work channel by channel *)

Lemma wr_lookup (o : bytes) i v (j : nat) :
  wr o i v !! j
  = if decide (i = Z.of_nat j) then (fun _ => toUint8Clamp v) <$> o !! j
    else o !! j.
Proof.
  destruct (decide (i = Z.of_nat j)) as [->|Hne];
    [|by apply wr_lookup_ne].
  rewrite wr_insert by lia. rewrite Nat2Z.id.
  destruct (o !! j) as [x|] eqn:Hj.
  - simpl. apply list_lookup_insert_eq. by apply lookup_lt_Some in Hj.
  - simpl. apply lookup_ge_None. rewrite length_insert.
    by apply lookup_ge_None.
Qed.

Lemma rd_Some (o : bytes) (j : nat) x : o !! j = Some x -> rd o (Z.of_nat j) = ofZ x.
Proof. intros Hj. apply rd_lookup; [lia|]. by rewrite Nat2Z.id. Qed.

Lemma channelStep_lookup G (o : bytes) k (j : nat) :
  channelStep G o k !! j
  = if decide (4 * k <= j < 4 * k + 3)%nat
    then storedChannel G <$> o !! j
    else o !! j.
Proof.
  unfold channelStep, storedChannel. cbv zeta. rewrite !wr_lookup.
  destruct (o !! j) as [x|] eqn:Hj; repeat case_decide; try lia;
    cbn [fmap option_fmap option_map]; try reflexivity.
  all: do 3 f_equal.
  all: apply rd_lookup; [lia|].
  all: rewrite ?wr_lookup_ne by lia.
  all: match goal with
       | H : _ = Z.of_nat _ |- _ => rewrite H, Nat2Z.id; assumption
       end.
Qed.

Lemma foldl_channelStep G (o : bytes) n (j : nat) :
  foldl (channelStep G) o (seq 0 n) !! j
  = if decide (j < 4 * n /\ j mod 4 <> 3)%nat
    then storedChannel G <$> o !! j
    else o !! j.
Proof.
  induction n as [|n IH].
  - cbn [seq foldl]. case_decide; [lia|done].
  - rewrite seq_S, foldl_app. cbn [foldl Nat.add].
    rewrite channelStep_lookup, IH.
    pose proof (Nat.div_mod_eq j 4) as Hdm.
    pose proof (Nat.mod_upper_bound j 4 ltac:(lia)) as Hm.
    repeat case_decide; try done; lia.
Qed.

(** The closed form of a loop that works channel by channel. *)
Lemma channelLoop G (data : bytes) :
  pixelLoop (channelStep G) data = mapChannels (storedChannel G) data.
Proof.
  apply list_eq. intros j. unfold pixelLoop, mapChannels.
  rewrite foldl_channelStep, list_lookup_imap.
  destruct (data !! j) as [x|] eqn:Hj; cbn [fmap option_fmap option_map].
  - apply lookup_lt_Some in Hj. unfold strides.
    pose proof (Nat.div_mod_eq (length data + 3) 4) as Hdm.
    pose proof (Nat.mod_upper_bound (length data + 3) 4 ltac:(lia)) as Hm.
    destruct (Nat.eqb_spec (j mod 4) 3) as [H3|H3];
      case_decide; try done; lia.
  - by case_decide.
Qed.

Lemma brightnessLoop_channels b data :
  brightnessLoop b data
  = mapChannels
      (storedChannel (fun v => clamp (fadd v (brightnessFactor b)))) data.
Proof. apply (channelLoop (fun v => clamp (fadd v (brightnessFactor b)))). Qed.

Lemma contrastLoop_channels c data :
  contrastLoop c data
  = mapChannels
      (storedChannel
         (fun v => clamp (fadd (fmul (contrastFactor c) (fsub v (ofZ 128)))
                               (ofZ 128))))
      data.
Proof.
  apply (channelLoop
           (fun v => clamp (fadd (fmul (contrastFactor c)
                                       (fsub v (ofZ 128)))
                                 (ofZ 128)))).
Qed.

Lemma invertLoop_channels data :
  invertLoop data
  = mapChannels (storedChannel (fun v => fsub (ofZ 255) v)) data.
Proof. apply (channelLoop (fun v => fsub (ofZ 255) v)). Qed.

(* ================================================================== *)
(** ** What [processChunk] does to the channels *)
(* ================================================================== *)

(** The bytes of the array that [processChunk] returns. *)
Lemma processChunk_result h chunkData adj filter :
  arr (fst (processChunk h chunkData adj filter))
      (snd (processChunk h chunkData adj filter))
  = processedBytes adj filter (arr h chunkData).
Proof. rewrite processChunk_spec. cbn [fst snd]. apply arr_snoc. Qed.

Lemma mapChannels_lookup g (data : bytes) (j : nat) :
  mapChannels g data !! j
  = (fun x => if (j mod 4 =? 3)%nat then x else g x) <$> data !! j.
Proof. unfold mapChannels. apply list_lookup_imap. Qed.

Lemma mapChannels_ext f g (data : bytes) :
  Forall (fun x => f x = g x) data ->
  mapChannels f data = mapChannels g data.
Proof.
  intros Hfg. apply list_eq. intros j. rewrite !mapChannels_lookup.
  destruct (data !! j) as [x|] eqn:Hj; [|done].
  cbn [fmap option_fmap option_map].
  destruct (j mod 4 =? 3)%nat; [done|]. f_equal.
  rewrite Forall_forall in Hfg. apply Hfg.
  by apply list_elem_of_lookup_2 in Hj.
Qed.

Lemma mapChannels_compose f g (data : bytes) :
  mapChannels f (mapChannels g data) = mapChannels (fun x => f (g x)) data.
Proof.
  apply list_eq. intros j. rewrite !mapChannels_lookup.
  destruct (data !! j) as [x|]; [|done].
  cbn [fmap option_fmap option_map].
  by destruct (j mod 4 =? 3)%nat.
Qed.

Lemma mapChannels_id (data : bytes) : mapChannels (fun x => x) data = data.
Proof.
  apply list_eq. intros j. rewrite mapChannels_lookup.
  destruct (data !! j) as [x|]; [|done].
  cbn [fmap option_fmap option_map].
  by destruct (j mod 4 =? 3)%nat.
Qed.

(** The channel that [applyInvert] stores. *)
Lemma inverted_channel x :
  inRange x -> storedChannel (fun v => fsub (ofZ 255) v) x = 255 - x.
Proof.
  intros Hx. apply Z.eqb_eq.
  apply (byte_cases
           (fun x => storedChannel (fun v => fsub (ofZ 255) v) x
                     =? 255 - x));
    [vm_compute; reflexivity|exact Hx].
Qed.

(** The channels that [applyBrightness] stores at the ends of the slider. *)
Lemma brightest_channel x :
  inRange x ->
  storedChannel (fun v => clamp (fadd v (brightnessFactor 100))) x = 255.
Proof.
  intros Hx. apply Z.eqb_eq.
  apply (byte_cases
           (fun x =>
              storedChannel
                (fun v => clamp (fadd v (brightnessFactor 100))) x
              =? 255));
    [vm_compute; reflexivity|exact Hx].
Qed.

Lemma darkest_channel x :
  inRange x ->
  storedChannel (fun v => clamp (fadd v (brightnessFactor (-100)))) x = 0.
Proof.
  intros Hx. apply Z.eqb_eq.
  apply (byte_cases
           (fun x =>
              storedChannel
                (fun v => clamp (fadd v (brightnessFactor (-100)))) x
              =? 0));
    [vm_compute; reflexivity|exact Hx].
Qed.

(** The channel that [applyContrast] stores at the low end of the slider:
    the factor is zero. *)
Lemma flattest_channel x :
  inRange x ->
  storedChannel
    (fun v => clamp (fadd (fmul (contrastFactor (-100)) (fsub v (ofZ 128)))
                          (ofZ 128))) x
  = 128.
Proof.
  intros Hx. apply Z.eqb_eq.
  apply (byte_cases
           (fun x =>
              storedChannel
                (fun v => clamp (fadd (fmul (contrastFactor (-100))
                                            (fsub v (ofZ 128)))
                                      (ofZ 128))) x
              =? 128));
    [vm_compute; reflexivity|exact Hx].
Qed.

(** The sepia filter mixes the channels in doubles: for the pixel (6, 57, 81)
    the red sum is just below 61.5. *)
Lemma sepia_is_mixed_in_doubles :
  processedBytes noAdjustments "sepia" [6; 57; 81; 255] = [61; 55; 43; 255].
Proof. vm_compute. reflexivity. Qed.

(** X7.  Whatever the adjustments and the filter, the array that
    [processChunk] returns has the length of the chunk, has each alpha
    channel (the bytes at 3, 7, 11, ...) as it is in the chunk, and holds
    bytes when the chunk does. *)
Theorem processChunk_keeps_alpha :
  forall (h : heap) (chunkData : loc) (adj : adjustments) (filter : string),
    let processed :=
      arr (fst (processChunk h chunkData adj filter))
          (snd (processChunk h chunkData adj filter)) in
    length processed = length (arr h chunkData) /\
    (forall q : nat,
       processed !! (4 * q + 3)%nat = arr h chunkData !! (4 * q + 3)%nat) /\
    (Forall inRange (arr h chunkData) -> Forall inRange processed).
Proof.
  intros h chunkData adj filter processed. subst processed.
  rewrite processChunk_result.
  split; [apply length_processedBytes|].
  split; [intros q; apply processedBytes_alpha|apply processedBytes_range].
Qed.

(** X8.  [processChunk] works pixel by pixel: on a chunk that holds the
    pixels [s] to [e] of an array it returns what it returns on the whole
    array, cut to the pixels [s] to [e]. *)
Theorem processChunk_commutes_with_slicing (h : heap) (whole chunk : loc)
    (adj : adjustments) (filter : string) (s e : nat) :
  (s <= e)%nat ->
  (4 * e <= length (arr h whole))%nat ->
  arr h chunk = slice (arr h whole) (Z.of_nat (4 * s)) (Z.of_nat (4 * e)) ->
  arr (fst (processChunk h chunk adj filter))
      (snd (processChunk h chunk adj filter))
  = slice (arr (fst (processChunk h whole adj filter))
               (snd (processChunk h whole adj filter)))
          (Z.of_nat (4 * s)) (Z.of_nat (4 * e)).
Proof.
  intros Hse He Hchunk. rewrite !processChunk_result, Hchunk.
  by apply processedBytes_slice.
Qed.

Lemma processChunk_commutes_with_slicing_witness :
  (1 <= 2)%nat /\
  (4 * 2 <= length (arr heapTwoPixels 0%nat))%nat /\
  arr heapTwoPixels 1%nat
    = slice (arr heapTwoPixels 0%nat) (Z.of_nat (4 * 1)) (Z.of_nat (4 * 2)) /\
  arr (fst (processChunk heapTwoPixels 1%nat (mkAdjustments 10 20) "invert"))
      (snd (processChunk heapTwoPixels 1%nat (mkAdjustments 10 20) "invert"))
  = slice (arr (fst (processChunk heapTwoPixels 0%nat (mkAdjustments 10 20)
                                  "invert"))
               (snd (processChunk heapTwoPixels 0%nat (mkAdjustments 10 20)
                                  "invert")))
          (Z.of_nat (4 * 1)) (Z.of_nat (4 * 2)).
Proof.
  assert (1 <= 2)%nat as H1 by lia.
  assert (4 * 2 <= length (arr heapTwoPixels 0%nat))%nat as H2
    by (change (arr heapTwoPixels 0%nat) with twoPixels;
        unfold twoPixels; simpl; lia).
  assert (arr heapTwoPixels 1%nat
          = slice (arr heapTwoPixels 0%nat) (Z.of_nat (4 * 1))
                  (Z.of_nat (4 * 2))) as H3 by reflexivity.
  split; [exact H1|]. split; [exact H2|]. split; [exact H3|].
  exact (processChunk_commutes_with_slicing heapTwoPixels 0%nat 1%nat
           (mkAdjustments 10 20) "invert" 1 2 H1 H2 H3).
Defined.

Lemma Forall_inRange_sub (data : bytes) :
  Forall inRange data -> Forall inRange (mapChannels (fun x => 255 - x) data).
Proof.
  intros Hd. apply Forall_lookup. intros j y Hy.
  rewrite mapChannels_lookup in Hy.
  destruct (data !! j) as [x|] eqn:Hj; [|done].
  cbn [fmap option_fmap option_map] in Hy. injection Hy as <-.
  rewrite Forall_lookup in Hd. specialize (Hd j x Hj). unfold inRange in *.
  match goal with |- context [if ?b then _ else _] => destruct b end; lia.
Qed.

Lemma inverted_bytes (data : bytes) :
  Forall inRange data ->
  processedBytes noAdjustments "invert" data
  = mapChannels (fun x => 255 - x) data.
Proof.
  intros Hd.
  change (processedBytes noAdjustments "invert" data) with (invertLoop data).
  rewrite invertLoop_channels. apply mapChannels_ext.
  eapply Forall_impl; [exact Hd|]. apply inverted_channel.
Qed.

(** X9.  The invert filter undoes itself: [processChunk] with the filter
    'invert' and no adjustment, run on its own result, returns the bytes of
    the chunk it started from; one run stores [255 - x] in each colour
    channel [x]. *)
Theorem invert_twice_restores (h : heap) (chunkData : loc) :
  Forall inRange (arr h chunkData) ->
  let once := processChunk h chunkData noAdjustments "invert" in
  let twice := processChunk (fst once) (snd once) noAdjustments "invert" in
  arr (fst once) (snd once)
    = mapChannels (fun x => 255 - x) (arr h chunkData) /\
  arr (fst twice) (snd twice) = arr h chunkData.
Proof.
  intros Hd once twice. subst once twice.
  rewrite !processChunk_result.
  rewrite (inverted_bytes _ Hd).
  split; [done|].
  rewrite (inverted_bytes _ (Forall_inRange_sub _ Hd)).
  rewrite mapChannels_compose. rewrite <- (mapChannels_id (arr h chunkData)) at 2.
  apply mapChannels_ext, Forall_forall. intros x _. lia.
Qed.

Lemma inRange_twoPixels : Forall inRange (arr heapTwoPixels 0%nat).
Proof.
  change (arr heapTwoPixels 0%nat) with twoPixels.
  unfold twoPixels, inRange. repeat constructor; lia.
Qed.

Lemma invert_twice_restores_witness :
  Forall inRange (arr heapTwoPixels 0%nat) /\
  arr (fst (processChunk heapTwoPixels 0%nat noAdjustments "invert"))
      (snd (processChunk heapTwoPixels 0%nat noAdjustments "invert"))
  = mapChannels (fun x => 255 - x) (arr heapTwoPixels 0%nat).
Proof.
  split; [exact inRange_twoPixels|].
  exact (proj1 (invert_twice_restores heapTwoPixels 0%nat
                  inRange_twoPixels)).
Defined.

(** X10.  At the ends of the sliders: a brightness of 100 makes every
    colour channel 255, a brightness of -100 makes it 0, and a contrast of
    -100, whose factor is zero, makes it 128; the alpha channels are as
    they were. *)
Theorem sliders_at_their_ends (h : heap) (chunkData : loc) :
  Forall inRange (arr h chunkData) ->
  let result adj :=
    arr (fst (processChunk h chunkData adj "none"))
        (snd (processChunk h chunkData adj "none")) in
  result (mkAdjustments 100 0)
    = mapChannels (fun _ => 255) (arr h chunkData) /\
  result (mkAdjustments (-100) 0)
    = mapChannels (fun _ => 0) (arr h chunkData) /\
  result (mkAdjustments 0 (-100))
    = mapChannels (fun _ => 128) (arr h chunkData).
Proof.
  intros Hd result. subst result. cbv beta.
  rewrite !processChunk_result.
  split; [|split].
  - change (processedBytes (mkAdjustments 100 0) "none" (arr h chunkData))
      with (brightnessLoop 100 (arr h chunkData)).
    rewrite brightnessLoop_channels. apply mapChannels_ext.
    eapply Forall_impl; [exact Hd|]. apply brightest_channel.
  - change (processedBytes (mkAdjustments (-100) 0) "none" (arr h chunkData))
      with (brightnessLoop (-100) (arr h chunkData)).
    rewrite brightnessLoop_channels. apply mapChannels_ext.
    eapply Forall_impl; [exact Hd|]. apply darkest_channel.
  - change (processedBytes (mkAdjustments 0 (-100)) "none" (arr h chunkData))
      with (contrastLoop (-100) (arr h chunkData)).
    rewrite contrastLoop_channels. apply mapChannels_ext.
    eapply Forall_impl; [exact Hd|]. apply flattest_channel.
Qed.

Lemma sliders_at_their_ends_witness :
  Forall inRange (arr heapTwoPixels 0%nat) /\
  arr (fst (processChunk heapTwoPixels 0%nat (mkAdjustments 100 0) "none"))
      (snd (processChunk heapTwoPixels 0%nat (mkAdjustments 100 0) "none"))
  = mapChannels (fun _ => 255) (arr heapTwoPixels 0%nat).
Proof.
  split; [exact inRange_twoPixels|].
  exact (proj1 (sliders_at_their_ends heapTwoPixels 0%nat
                  inRange_twoPixels)).
Defined.

(* ================================================================== *)
(** ** The identity run on a resident image, on an example *)
(* ================================================================== *)


(* ================================================================== *)
(** ** The rotations by the other angles *)
(* ================================================================== *)

(** In coordinates, for every angle: the place of the pixel at column [x]
    and row [y]. *)
Lemma rotatedIndex_at w h r x y :
  0 <= x < w -> 0 <= y ->
  rotatedIndex w h r (y * w + x)
  = if r =? 90 then x * h + (h - 1 - y)
    else if r =? 180 then (h - 1 - y) * w + (w - 1 - x)
    else if r =? 270 then (w - 1 - x) * h + y
    else y * w + x.
Proof.
  intros Hx Hy.
  assert (Hrem : Z.rem (y * w + x) w = x).
  { rewrite Z.rem_mod_nonneg by nia.
    rewrite Z.add_comm, Z.mod_add by lia. apply Z.mod_small. lia. }
  assert (Hdiv : (y * w + x) / w = y).
  { rewrite Z.add_comm, Z.div_add by lia. rewrite Z.div_small by lia. lia. }
  unfold rotatedIndex. rewrite Hrem, Hdiv.
  destruct (Z.eqb_spec r 90) as [->|H90]; [reflexivity|].
  destruct (Z.eqb_spec r 180) as [->|H180]; [reflexivity|].
  destruct (Z.eqb_spec r 270) as [->|H270]; reflexivity.
Qed.

Lemma rotatedIndex_coords w h r p :
  0 < w -> 0 <= p ->
  rotatedIndex w h r p
  = if r =? 90 then (p mod w) * h + (h - 1 - p / w)
    else if r =? 180 then (h - 1 - p / w) * w + (w - 1 - p mod w)
    else if r =? 270 then (w - 1 - p mod w) * h + p / w
    else p.
Proof.
  intros Hw Hp. destruct (coordinates w p Hw Hp) as (Heq & Hx & Hy).
  rewrite Heq at 1. rewrite rotatedIndex_at by lia.
  repeat (destruct (_ =? _); [reflexivity|]). lia.
Qed.

Lemma rotatedIndex_180_at w h x y :
  0 <= x < w -> 0 <= y ->
  rotatedIndex w h 180 (y * w + x) = (h - 1 - y) * w + (w - 1 - x).
Proof. intros Hx Hy. by rewrite rotatedIndex_at by lia. Qed.

Lemma rotatedIndex_270_at w h x y :
  0 <= x < w -> 0 <= y ->
  rotatedIndex w h 270 (y * w + x) = (w - 1 - x) * h + y.
Proof. intros Hx Hy. by rewrite rotatedIndex_at by lia. Qed.

(** X11.  The remap of [applyChunkToOutput] composes as the angles add: on
    the pixels of an image of any width and height, a rotation of 180 is
    two quarter turns and a rotation of 270 is three, each quarter turn
    taken on the image that the one before left; a rotation of 270 undoes
    a quarter turn and a quarter turn undoes a rotation of 270; a rotation
    of 180 undoes itself; any other angle leaves every pixel at its index;
    and for every angle the new index is an index of the image. *)
Theorem rotations_compose (w h p : Z) :
  0 < w -> 0 < h -> 0 <= p < w * h ->
  rotatedIndex w h 180 p = rotatedIndex h w 90 (rotatedIndex w h 90 p) /\
  rotatedIndex w h 270 p
    = rotatedIndex w h 90 (rotatedIndex h w 90 (rotatedIndex w h 90 p)) /\
  rotatedIndex h w 270 (rotatedIndex w h 90 p) = p /\
  rotatedIndex h w 90 (rotatedIndex w h 270 p) = p /\
  rotatedIndex w h 180 (rotatedIndex w h 180 p) = p /\
  (forall r, r <> 90 -> r <> 180 -> r <> 270 -> rotatedIndex w h r p = p) /\
  (forall r, 0 <= rotatedIndex w h r p < w * h).
Proof.
  intros Hw Hh Hp.
  destruct (coordinates w p Hw ltac:(lia)) as (Heq & Hx & Hy).
  pose proof (row_bound w h p Hw Hp) as Hrow.
  assert (H90 : rotatedIndex w h 90 p = (p mod w) * h + (h - 1 - p / w))
    by (apply rotatedIndex_90_coords; lia).
  assert (H180 : rotatedIndex w h 180 p
                 = (h - 1 - p / w) * w + (w - 1 - p mod w))
    by (rewrite (rotatedIndex_coords w h 180 p) by lia; reflexivity).
  assert (H270 : rotatedIndex w h 270 p = (w - 1 - p mod w) * h + p / w)
    by (rewrite (rotatedIndex_coords w h 270 p) by lia; reflexivity).
  assert (Htwice : rotatedIndex h w 90 (rotatedIndex w h 90 p)
                   = (h - 1 - p / w) * w + (w - 1 - p mod w))
    by (apply rotatedIndex_90_twice; lia).
  split; [by rewrite H180, Htwice|].
  split.
  { rewrite H270, Htwice.
    rewrite (rotatedIndex_90 w h (w - 1 - p mod w) (h - 1 - p / w)) by lia.
    lia. }
  split.
  { rewrite H90.
    rewrite (rotatedIndex_270_at h w (h - 1 - p / w) (p mod w)) by lia.
    lia. }
  split.
  { rewrite H270.
    rewrite (rotatedIndex_90 h w (p / w) (w - 1 - p mod w)) by lia.
    lia. }
  split.
  { rewrite H180.
    rewrite (rotatedIndex_180_at w h (w - 1 - p mod w) (h - 1 - p / w))
      by lia.
    lia. }
  split.
  { intros r H1 H2 H3. rewrite (rotatedIndex_coords w h r p) by lia.
    destruct (Z.eqb_spec r 90); [done|].
    destruct (Z.eqb_spec r 180); [done|].
    by destruct (Z.eqb_spec r 270). }
  intros r. rewrite (rotatedIndex_coords w h r p) by lia.
  destruct (r =? 90); [nia|].
  destruct (r =? 180); [nia|].
  destruct (r =? 270); [nia|lia].
Qed.

Lemma rotations_compose_witness :
  0 < 3 /\ 0 < 2 /\ 0 <= 4 < 3 * 2 /\
  rotatedIndex 3 2 180 4 = rotatedIndex 2 3 90 (rotatedIndex 3 2 90 4) /\
  rotatedIndex 2 3 270 (rotatedIndex 3 2 90 4) = 4.
Proof.
  assert (0 < 3) as H1 by lia. assert (0 < 2) as H2 by lia.
  assert (0 <= 4 < 3 * 2) as H3 by lia.
  split; [exact H1|]. split; [exact H2|]. split; [exact H3|].
  destruct (rotations_compose 3 2 4 H1 H2 H3) as (Ha & _ & Hb & _).
  split; [exact Ha|exact Hb].
Defined.

(* ================================================================== *)
(** ** The contrast at the zero of its denominator *)
(* ================================================================== *)

Lemma contrastFactor_259 : contrastFactor 259 = PInf.
Proof. vm_compute. reflexivity. Qed.

(** Far from the slider the factor need not be finite: the products
    overflow. *)
Lemma contrastFactor_far_out :
  contrastFactor (7 * 10 ^ 305) = NInf /\ contrastFactor (10 ^ 308) = NaN.
Proof. split; vm_compute; reflexivity. Qed.

Lemma contrastFactor_slider c :
  -100 <= c <= 100 -> exists q, contrastFactor c = Fin q.
Proof.
  intros Hc.
  assert (forallb (fun n => isFinite (contrastFactor (Z.of_nat n - 100)))
                  (seq 0 201) = true) as H
    by (vm_compute; reflexivity).
  rewrite forallb_forall in H. specialize (H (Z.to_nat (c + 100))).
  replace (Z.of_nat (Z.to_nat (c + 100)) - 100) with c in H by lia.
  destruct (contrastFactor c) as [q| | |]; [by exists q|..];
    discriminate H; apply in_seq; lia.
Qed.

(** The channel that [applyContrast] stores when the factor is plus
    infinity: the product is plus infinity above 128, minus infinity below
    and NaN at 128. *)
Lemma saturated_channel x :
  inRange x ->
  storedChannel
    (fun v => clamp (fadd (fmul (contrastFactor 259) (fsub v (ofZ 128)))
                          (ofZ 128))) x
  = saturated x.
Proof.
  intros Hx. apply Z.eqb_eq.
  apply (byte_cases
           (fun x =>
              storedChannel
                (fun v => clamp (fadd (fmul (contrastFactor 259)
                                            (fsub v (ofZ 128)))
                                      (ofZ 128))) x
              =? saturated x));
    [vm_compute; reflexivity|exact Hx].
Qed.

Lemma contrast_259_bytes (data : bytes) :
  Forall inRange data ->
  processedBytes (mkAdjustments 0 259) "none" data
  = mapChannels saturated data.
Proof.
  intros Hd.
  change (processedBytes (mkAdjustments 0 259) "none" data)
    with (contrastLoop 259 data).
  rewrite contrastLoop_channels. apply mapChannels_ext.
  eapply Forall_impl; [exact Hd|]. apply saturated_channel.
Qed.

(** C7, as stated, fails: with a contrast of 259 nothing is rejected.  The
    factor is computed with a zero denominator, it is plus infinity, and
    [processChunk] returns the chunk that this factor produces. *)
Lemma contrast_259_is_evaluated :
  contrastFactor 259 = PInf /\
  processChunk [[200; 100; 128; 255; 129; 0; 255; 7]] 0
               (mkAdjustments 0 259) "none"
  = ([[200; 100; 128; 255; 129; 0; 255; 7]; [255; 0; 0; 255; 255; 0; 255; 7]],
     1%nat).
Proof. split; vm_compute; reflexivity. Qed.

(** C7 (amended).  [processChunk] has no failing outcome and no guard on the
    contrast: it returns a processed copy for every contrast.  On the range
    -100..100 of the slider the factor is finite; at 259 the division by
    zero is carried out, the factor is plus infinity, and of a chunk of
    bytes, of any length, each colour channel above 128 comes out at 255,
    every other colour channel at 0 and each alpha channel untouched. *)
Theorem contrast_259_saturates :
  (forall c, -100 <= c <= 100 -> exists q, contrastFactor c = Fin q) /\
  contrastFactor 259 = PInf /\
  (forall h chunkData adj filter,
     exists processed,
       processChunk h chunkData adj filter = (h ++ [processed], length h)) /\
  (forall h chunkData,
     Forall inRange (arr h chunkData) ->
     processChunk h chunkData (mkAdjustments 0 259) "none"
     = (h ++ [mapChannels saturated (arr h chunkData)], length h)).
Proof.
  split; [exact contrastFactor_slider|].
  split; [exact contrastFactor_259|].
  split.
  - intros h chunkData adj filter. rewrite processChunk_spec. eauto.
  - intros h chunkData Hd.
    by rewrite processChunk_spec, contrast_259_bytes.
Qed.

(* ================================================================== *)
(** ** A buffer of another length than the declared size asks for *)
(* ================================================================== *)



